(** * Memory hierarchy simulator: a shallow embedding of [main.py]

    The simulation engine of the program (classes [CacheBlock], [CacheSet],
    [CacheLevel], [MemoryHierarchy], [AccessPatternGenerator] and
    [PerformanceAnalyzer]) is translated class by class, one module per
    class.  Of the graphical front end ([SimulatorApp]) only the part of
    [run_simulation] that drives the engine is translated.

    Conventions.
    - Python integers are [Z]; [//] and [%] are floor division and the
      modulus with the sign of the divisor, as [Z.div] and [Z.modulo] are,
      and they raise [ZeroDivisionError] on a zero divisor.
    - [a / b] on integers is the float division of Python: the quotient
      rounded to the nearest double (ties to even), [ZeroDivisionError] on a
      zero divisor and [OverflowError] when the rounded quotient is beyond
      the largest double.  A double is kept as its integer mantissa and
      binary exponent; [int] truncates it towards zero.
    - Exceptions are the [Raise] branch of [result]; the mutated objects
      are returned in the [Ok] branch.
    - [time.time()] and the module-level random generator are the two
      ambient effects.  Both are read from the [World] that every effectful
      function threads: a sequence of clock readings and a sequence of raw
      random draws, each with the number of values consumed so far.  Clock
      readings are floats in the program; they are only ever compared, so
      the model keeps them as integers (think of the reading in units of
      the clock resolution).  Two readings may be equal.  *)

From Stdlib Require Import ZArith QArith Qabs String List Lia.
From stdpp Require Import base option list gmap strings.

Local Open Scope Z_scope.

(** ** Exceptions *)

Inductive exn : Type :=
| ZeroDivisionError
| ValueError
| InvalidArgument
| ConfigurationError
| OverflowError.

Inductive result (A : Type) : Type :=
| Ok (a : A)
| Raise (e : exn).

Arguments Ok {A} a.
Arguments Raise {A} e.

#[global] Instance result_ret : MRet result := fun A a => Ok a.

#[global] Instance result_bind : MBind result := fun A B k c =>
  match c with
  | Ok a => k a
  | Raise e => Raise e
  end.

Definition is_ok {A} (r : result A) : bool :=
  match r with Ok _ => true | Raise _ => false end.

(** [a // b] *)
Definition floordiv (a b : Z) : result Z :=
  if b =? 0 then Raise ZeroDivisionError else Ok (a / b).

(** [a % b] *)
Definition pymod (a b : Z) : result Z :=
  if b =? 0 then Raise ZeroDivisionError else Ok (a mod b).

(** ** Floats

    A finite double is [fmant * 2 ^ fexp], with [|fmant| <= 2 ^ 53] and
    [-1074 <= fexp]. *)
Record float : Type := mkFloat { fmant : Z; fexp : Z }.

(** The rational number that a float stands for. *)
Definition float_value (x : float) : Q :=
  (fmant x * 2 ^ Z.max 0 (fexp x)) # Z.to_pos (2 ^ Z.max 0 (- fexp x)).

(** The value of one unit in the last place of [x]. *)
Definition ulp (x : float) : Q :=
  2 ^ Z.max 0 (fexp x) # Z.to_pos (2 ^ Z.max 0 (- fexp x)).

(** The doubles: at most 53 bits of mantissa, all of them in use unless
    the exponent is the smallest one. *)
Definition is_double (x : float) : Prop :=
  Z.abs (fmant x) <= 2 ^ 53
  ∧ -1074 <= fexp x
  ∧ (fmant x = 0 ∨ fexp x = -1074 ∨ 2 ^ 52 <= Z.abs (fmant x)).

(** [a / b] over [2 ^ e], as a numerator and a denominator. *)
Definition scaled (a b e : Z) : Z * Z :=
  (a * 2 ^ Z.max 0 (- e), b * 2 ^ Z.max 0 e).

(** The integer part of [log2 (a / b)], for positive [a] and [b]. *)
Definition floor_log2_quotient (a b : Z) : Z :=
  let d := Z.log2 a - Z.log2 b in
  let '(num, den) := scaled a b d in
  if den <=? num then d else d - 1.

(** The double nearest to [a / b] for positive [a] and [b], ties to the
    even mantissa: 53 bits of mantissa, or fewer below [2 ^ -1022] where
    the exponent stays at [-1074]. *)
Definition round_to_double (a b : Z) : float :=
  let e := Z.max (floor_log2_quotient a b - 52) (-1074) in
  let '(num, den) := scaled a b e in
  let q := num / den in
  let r := num mod den in
  let m := if 2 * r <? den then q
           else if den <? 2 * r then q + 1
           else if Z.even q then q else q + 1 in
  mkFloat m e.

(** Beyond the largest double. *)
Definition too_large (x : float) : bool :=
  2 ^ 1024 <=? fmant x * 2 ^ Z.max 0 (fexp x).

(** [a / b] on integers. *)
Definition truediv (a b : Z) : result float :=
  if b =? 0 then Raise ZeroDivisionError
  else if a =? 0 then Ok (mkFloat 0 0)
  else
    let x := round_to_double (Z.abs a) (Z.abs b) in
    if too_large x then Raise OverflowError
    else Ok (mkFloat (Z.sgn a * Z.sgn b * fmant x) (fexp x)).

(** [int(x)] on a float: truncation towards zero. *)
Definition int_of_float (x : float) : Z :=
  Z.quot (fmant x * 2 ^ Z.max 0 (fexp x)) (2 ^ Z.max 0 (- fexp x)).

(** [int(a / b)] on integers. *)
Definition int_truediv (a b : Z) : result Z :=
  x ← truediv a b;
  mret (int_of_float x).

(** An integer small enough for its quotients not to overflow. *)
Definition in_double_range (n : Z) : bool := Z.abs n <? 2 ^ 1023.

(** A number that is an [int] on one path and a [float] on another; the
    float is a double or an infinity. *)
Inductive number : Type :=
| Int (n : Z)
| Float (x : float)
| Infinity (negative : bool).

(** The order of numbers. *)
Definition number_le (u v : number) : Prop :=
  match u, v with
  | Infinity true, _ => True
  | _, Infinity false => True
  | Infinity false, _ => False
  | _, Infinity true => False
  | Int m, Int n => m <= n
  | Int m, Float y => (inject_Z m <= float_value y)%Q
  | Float x, Int n => (float_value x <= inject_Z n)%Q
  | Float x, Float y => (float_value x <= float_value y)%Q
  end.

(** [x * y] on floats: the product rounded to the nearest double, an
    infinity when that is beyond the largest double. *)
Definition float_mul (x y : float) : number :=
  let m := fmant x * fmant y in
  let e := fexp x + fexp y in
  if m =? 0 then Float (mkFloat 0 0)
  else
    let z := round_to_double (Z.abs m * 2 ^ Z.max 0 e) (2 ^ Z.max 0 (- e)) in
    if too_large z then Infinity (m <? 0)
    else Float (mkFloat (Z.sgn m * fmant z) (fexp z)).

(** ** The ambient world: wall clock and random generator *)

Record World : Type := mkWorld {
  time_src : nat -> Z;       (* the k-th reading of [time.time()] *)
  ticks : nat;               (* readings taken so far *)
  rand_src : nat -> nat;     (* the k-th raw draw of the generator *)
  gauss_src : nat -> Z;      (* the k-th draw of [int(random.gauss(0, 100))] *)
  draws : nat                (* draws taken so far *)
}.

(** [time.time()] *)
Definition time_time (w : World) : Z * World :=
  (time_src w (ticks w),
   mkWorld (time_src w) (S (ticks w)) (rand_src w) (gauss_src w) (draws w)).

Definition next_draw (w : World) : World :=
  mkWorld (time_src w) (ticks w) (rand_src w) (gauss_src w) (S (draws w)).

(** [random.choice(seq)] on a non-empty sequence: the position chosen. *)
Definition random_choice_index (len : nat) (w : World) : nat * World :=
  ((rand_src w (draws w) mod len)%nat, next_draw w).

(** [random.randint(a, b)]: uniform in [a..b], [ValueError] on an empty range. *)
Definition random_randint (a b : Z) (w : World) : result (Z * World) :=
  if b <? a then Raise ValueError
  else Ok (a + Z.of_nat (rand_src w (draws w)) mod (b - a + 1), next_draw w).

(** [int(random.gauss(0, 100))] *)
Definition random_gauss_int (w : World) : Z * World :=
  (gauss_src w (draws w), next_draw w).

(** The clock never runs backwards (it may stand still). *)
Definition monotone_clock (w : World) : Prop :=
  forall i j : nat, (i <= j)%nat -> time_src w i <= time_src w j.

(** ** [min] and [max] with a key

    Python's [min(xs, key=f)] returns the first element whose key is
    minimal, [max] the first whose key is maximal: the running best is
    replaced only by a strictly better candidate.  The functions return
    the position of that element, which stands for the object itself. *)

Fixpoint first_best_from {A} (better : Z -> Z -> bool) (key : A -> Z)
    (best_i : nat) (best_v : Z) (i : nat) (xs : list A) : nat :=
  match xs with
  | [] => best_i
  | x :: xs' =>
      if better (key x) best_v
      then first_best_from better key i (key x) (S i) xs'
      else first_best_from better key best_i best_v (S i) xs'
  end.

Definition py_min_index {A} (key : A -> Z) (xs : list A) : option nat :=
  match xs with
  | [] => None
  | x :: xs' => Some (first_best_from Z.ltb key 0%nat (key x) 1%nat xs')
  end.

Definition py_max_index {A} (key : A -> Z) (xs : list A) : option nat :=
  match xs with
  | [] => None
  | x :: xs' => Some (first_best_from Z.gtb key 0%nat (key x) 1%nat xs')
  end.

(** ** class CacheBlock *)

Module CacheBlock.

Record t : Type := mk {
  tag : Z;
  last_access : Z;
  insertion_time : Z;
  access_count : Z
}.

(** [CacheBlock(tag)]: two clock readings, the first for [last_access]. *)
Definition init (tag : Z) (w : World) : t * World :=
  let '(t1, w1) := time_time w in
  let '(t2, w2) := time_time w1 in
  (mk tag t1 t2 1, w2).

(** [block.last_access = time.time(); block.access_count += 1] *)
Definition touch (b : t) (w : World) : t * World :=
  let '(now, w1) := time_time w in
  (mk (tag b) now (insertion_time b) (access_count b + 1), w1).

End CacheBlock.

(** ** class CacheSet *)

Module CacheSet.

Record t : Type := mk {
  capacity : Z;
  blocks : list CacheBlock.t;
  policy : string
}.

Definition init (capacity : Z) (policy : string) : t := mk capacity [] policy.

(** The loop shared by [access] and [insert]: the first block carrying
    [tag] is touched; [None] when no block carries it. *)
Fixpoint touch_first (tag : Z) (bs : list CacheBlock.t) (w : World)
    : option (list CacheBlock.t * World) :=
  match bs with
  | [] => None
  | b :: bs' =>
      if CacheBlock.tag b =? tag then
        let '(b', w') := CacheBlock.touch b w in Some (b' :: bs', w')
      else
        match touch_first tag bs' w with
        | Some (bs'', w') => Some (b :: bs'', w')
        | None => None
        end
  end.

Definition access (s : t) (tag : Z) (w : World) : t * bool * World :=
  match touch_first tag (blocks s) w with
  | Some (bs, w') => (mk (capacity s) bs (policy s), true, w')
  | None => (s, false, w)
  end.

(** The victim's position, by policy; [None] for a policy name that no
    branch recognises ([victim] stays [None]). *)
Definition choose_victim (s : t) (w : World) : option nat * World :=
  if String.eqb (policy s) "LRU" then
    (py_min_index CacheBlock.last_access (blocks s), w)
  else if String.eqb (policy s) "MRU" then
    (py_max_index CacheBlock.last_access (blocks s), w)
  else if String.eqb (policy s) "LFU" then
    (py_min_index CacheBlock.access_count (blocks s), w)
  else if String.eqb (policy s) "FIFO" then
    (py_min_index CacheBlock.insertion_time (blocks s), w)
  else if String.eqb (policy s) "Random" then
    let '(i, w') := random_choice_index (length (blocks s)) w in (Some i, w')
  else (None, w).

Definition replace (s : t) (w : World) : t * World :=
  match blocks s with
  | [] => (s, w)
  | _ :: _ =>
      match choose_victim s w with
      | (Some i, w') => (mk (capacity s) (delete i (blocks s)) (policy s), w')
      | (None, w') => (s, w')
      end
  end.

Definition insert (s : t) (tag : Z) (w : World) : t * World :=
  match touch_first tag (blocks s) w with
  | Some (bs, w') => (mk (capacity s) bs (policy s), w')
  | None =>
      let '(s1, w1) :=
        if Z.of_nat (length (blocks s)) >=? capacity s then replace s w
        else (s, w) in
      let '(new_block, w2) := CacheBlock.init tag w1 in
      (mk (capacity s1) (blocks s1 ++ [new_block]) (policy s1), w2)
  end.

Definition tags (s : t) : list Z := CacheBlock.tag <$> blocks s.

End CacheSet.

(** ** class CacheLevel *)

Module CacheLevel.

Record t : Type := mk {
  name : string;
  size : Z;
  block_size : Z;
  associativity : Z;
  access_time : Z;
  policy : string;
  num_sets : Z;
  sets : gmap Z CacheSet.t;
  hits : Z;
  misses : Z
}.

(** [CacheLevel(name, size_bytes, block_size, associativity, access_time,
    policy)].  Associativity [0] stands for a fully associative level. *)
Definition init (name : string) (size_bytes block_size associativity
    access_time : Z) (policy : string) : result t :=
  if associativity =? 0 then
    ways ← int_truediv size_bytes block_size;
    mret (mk name size_bytes block_size ways access_time policy 1 ∅ 0 0)
  else
    q ← int_truediv size_bytes (block_size * associativity);
    mret (mk name size_bytes block_size associativity access_time policy
             (Z.max 1 q) ∅ 0 0).

Definition get_index_and_tag (l : t) (address : Z) : result (Z * Z) :=
  block_number ← floordiv address (block_size l);
  index ← pymod block_number (num_sets l);
  tag ← floordiv block_number (num_sets l);
  mret (index, tag).

Definition with_sets (l : t) (m : gmap Z CacheSet.t) : t :=
  mk (name l) (size l) (block_size l) (associativity l) (access_time l)
     (policy l) (num_sets l) m (hits l) (misses l).

Definition add_hit (l : t) : t :=
  mk (name l) (size l) (block_size l) (associativity l) (access_time l)
     (policy l) (num_sets l) (sets l) (hits l + 1) (misses l).

Definition add_miss (l : t) : t :=
  mk (name l) (size l) (block_size l) (associativity l) (access_time l)
     (policy l) (num_sets l) (sets l) (hits l) (misses l + 1).

Definition access (l : t) (address : Z) (w : World)
    : result (t * bool * World) :=
  '(index, tag) ← get_index_and_tag l address;
  match sets l !! index with
  | None => mret (l, false, w)
  | Some s =>
      let '(s', found, w') := CacheSet.access s tag w in
      let l' := with_sets l (<[index := s']> (sets l)) in
      if found then mret (add_hit l', true, w')
      else mret (add_miss l', false, w')
  end.

Definition insert (l : t) (address : Z) (w : World) : result (t * World) :=
  '(index, tag) ← get_index_and_tag l address;
  let s :=
    match sets l !! index with
    | None => CacheSet.init (associativity l) (policy l)
    | Some s => s
    end in
  let '(s', w') := CacheSet.insert s tag w in
  mret (with_sets l (<[index := s']> (sets l)), w').

(** The tags resident at each set index that has been created. *)
Definition contents (l : t) : gmap Z (list Z) := CacheSet.tags <$> sets l.

(** [get_stats()]: the two counters and the two rates in per cent.  A rate
    is a float division followed by a float multiplication by [100], or
    the integer [0]. *)
Definition get_stats (l : t) : result (Z * Z * number * number) :=
  let total := hits l + misses l in
  hit_rate ←
    (if total >? 0 then
       x ← truediv (hits l) total;
       mret (float_mul x (mkFloat 100 0))
     else mret (Int 0));
  miss_rate ←
    (if total >? 0 then
       x ← truediv (misses l) total;
       mret (float_mul x (mkFloat 100 0))
     else mret (Int 0));
  mret (hits l, misses l, hit_rate, miss_rate).

End CacheLevel.

(** ** class MemoryHierarchy *)

Module MemoryHierarchy.

(** The configuration dictionary, one field per key that is read. *)
Record config : Type := mkConfig {
  cfg_policy : string;
  block_size : Z;
  l1_size : Z; l1_assoc : Z; l1_time : Z;
  l2_enabled : bool; l2_size : Z; l2_assoc : Z; l2_time : Z;
  l3_enabled : bool; l3_size : Z; l3_assoc : Z; l3_time : Z;
  ram_size : Z; ram_time : Z;
  disk_size : Z; disk_time : Z
}.

Record t : Type := mk {
  levels : list CacheLevel.t;
  disk_level : CacheLevel.t
}.

Definition init (c : config) : result t :=
  l1 ← CacheLevel.init "L1 Cache" (l1_size c) (block_size c) (l1_assoc c)
         (l1_time c) (cfg_policy c);
  let levels := [l1] in
  levels ←
    (if l2_enabled c then
       l2 ← CacheLevel.init "L2 Cache" (l2_size c) (block_size c)
              (l2_assoc c) (l2_time c) (cfg_policy c);
       mret (levels ++ [l2])
     else mret levels);
  levels ←
    (if l3_enabled c then
       l3 ← CacheLevel.init "L3 Cache" (l3_size c) (block_size c)
              (l3_assoc c) (l3_time c) (cfg_policy c);
       mret (levels ++ [l3])
     else mret levels);
  let ram_size_bytes := ram_size c * 1024 * 1024 in
  ram ← CacheLevel.init "Main Memory (RAM)" ram_size_bytes (block_size c) 8
          (ram_time c) (cfg_policy c);
  let levels := levels ++ [ram] in
  let disk_size_bytes := disk_size c * 1024 * 1024 * 1024 in
  disk ← CacheLevel.init "Secondary Memory (Disk)" disk_size_bytes
           (block_size c) 1 (disk_time c) "FIFO";
  mret (mk levels disk).

(** The sizes that the constructor divides are all small enough for the
    divisions not to overflow. *)
Definition sizes_in_double_range (c : config) : bool :=
  in_double_range (l1_size c)
  && (negb (l2_enabled c) || in_double_range (l2_size c))
  && (negb (l3_enabled c) || in_double_range (l3_size c))
  && in_double_range (ram_size c * 1024 * 1024)
  && in_double_range (disk_size c * 1024 * 1024 * 1024).

(** [for level in ls: level.insert(address)] *)
Fixpoint insert_all (ls : list CacheLevel.t) (address : Z) (w : World)
    : result (list CacheLevel.t * World) :=
  match ls with
  | [] => mret ([], w)
  | l :: ls' =>
      '(l', w1) ← CacheLevel.insert l address w;
      '(ls'', w2) ← insert_all ls' address w1;
      mret (l' :: ls'', w2)
  end.

(** How the probing loop of [access_memory] ends: with a hit at position
    [i] of [levels] (and that level's name), or without any hit. *)
Inductive outcome : Type :=
| HitAt (i : nat) (name : string)
| NoHit.

(** The loop [for i, level in enumerate(self.levels)].  [done] holds the
    levels before position [i], already probed; [rest] the levels from
    position [i] on.  On a hit the levels before [i] are warmed and the
    loop returns. *)
Fixpoint probe_levels (done rest : list CacheLevel.t) (total_time : Z)
    (address : Z) (w : World)
    : result (list CacheLevel.t * Z * outcome * World) :=
  match rest with
  | [] => mret (done, total_time, NoHit, w)
  | level :: rest' =>
      let total_time := total_time + CacheLevel.access_time level in
      '(level', is_hit, w1) ← CacheLevel.access level address w;
      if is_hit : bool then
        '(warmed, w2) ← insert_all done address w1;
        mret (warmed ++ level' :: rest', total_time,
              HitAt (length done) (CacheLevel.name level'), w2)
      else probe_levels (done ++ [level']) rest' total_time address w1
  end.

Definition access_memory (h : t) (address : Z) (w : World)
    : result (t * (Z * string) * World) :=
  '(levels1, total_time, o, w1) ← probe_levels [] (levels h) 0 address w;
  match o with
  | HitAt _ name => mret (mk levels1 (disk_level h), (total_time, name), w1)
  | NoHit =>
      let total_time := total_time + CacheLevel.access_time (disk_level h) in
      let disk1 := CacheLevel.add_hit (disk_level h) in
      '(disk2, w2) ← CacheLevel.insert disk1 address w1;
      '(levels2, w3) ← insert_all levels1 address w2;
      mret (mk levels2 disk2, (total_time, "Disk"), w3)
  end.

(** The position at which the probing loop of [access_memory] hits. *)
Definition resolving_position (h : t) (address : Z) (w : World)
    : option nat :=
  match probe_levels [] (levels h) 0 address w with
  | Ok (_, _, HitAt i _, _) => Some i
  | _ => None
  end.

End MemoryHierarchy.

(** ** class AccessPatternGenerator *)

Module AccessPatternGenerator.

Record t : Type := mk { max_address : Z }.

(** [AccessPatternGenerator(max_address)] stores its argument. *)
Definition init (max_address : Z) : result t := mret (mk max_address).

(** [generate_sequential]: [count] iterations left, [current_addr] next. *)
Fixpoint sequential_loop (g : t) (count : nat) (stride current_addr : Z)
    : result (list Z) :=
  match count with
  | O => mret []
  | S count' =>
      next ← pymod (current_addr + stride) (max_address g);
      addresses ← sequential_loop g count' stride next;
      mret (current_addr :: addresses)
  end.

Definition generate_sequential (g : t) (num_requests stride : Z)
    : result (list Z) :=
  sequential_loop g (Z.to_nat num_requests) stride 0.

Fixpoint random_loop (g : t) (count : nat) (w : World)
    : result (list Z * World) :=
  match count with
  | O => mret ([], w)
  | S count' =>
      '(a, w1) ← random_randint 0 (max_address g) w;
      '(addresses, w2) ← random_loop g count' w1;
      mret (a :: addresses, w2)
  end.

Definition generate_random (g : t) (num_requests : Z) (w : World)
    : result (list Z * World) :=
  random_loop g (Z.to_nat num_requests) w.

(** The body of the loop of [generate_locality] for the indices
    [i, i+1, ...], [count] of them. *)
Fixpoint locality_loop (g : t) (num_requests : Z) (count : nat) (i : Z)
    (current_hotspot : Z) (w : World) : result (list Z * World) :=
  match count with
  | O => mret ([], w)
  | S count' =>
      chunk ← floordiv num_requests 10;
      r ← pymod i chunk;
      '(current_hotspot, w1) ←
        (if r =? 0 then random_randint 0 (max_address g) w
         else mret (current_hotspot, w));
      let '(offset, w2) := random_gauss_int w1 in
      addr ← pymod (Z.abs (current_hotspot + offset)) (max_address g);
      low ← pymod addr 4;
      let addr := addr - low in
      '(addresses, w3) ←
        locality_loop g num_requests count' (i + 1) current_hotspot w2;
      mret (addr :: addresses, w3)
  end.

Definition generate_locality (g : t) (num_requests : Z) (w : World)
    : result (list Z * World) :=
  '(current_hotspot, w1) ← random_randint 0 (max_address g) w;
  locality_loop g num_requests (Z.to_nat num_requests) 0 current_hotspot w1.

End AccessPatternGenerator.

(** ** class PerformanceAnalyzer *)

Module PerformanceAnalyzer.

Record t : Type := mk {
  hierarchy : MemoryHierarchy.t;
  total_time : Z;
  num_requests : Z;
  amat : number
}.

(** [PerformanceAnalyzer(hierarchy, total_time, num_requests)]:
    [total_time / num_requests] is a float division, the [0] of the other
    branch an [int]. *)
Definition init (hierarchy : MemoryHierarchy.t) (total_time num_requests : Z)
    : result t :=
  amat ←
    (if num_requests >? 0 then
       x ← truediv total_time num_requests;
       mret (Float x)
     else mret (Int 0));
  mret (mk hierarchy total_time num_requests amat).

End PerformanceAnalyzer.

(** ** Runs of operations

    Sequences of calls on one object, as a driver issues them.  The world
    is threaded from one call to the next. *)

(** Calls on a [CacheSet]: [access(tag)] and [insert(tag)]. *)
Inductive set_op : Type :=
| Touch (tag : Z)
| Admit (tag : Z).

Definition run_set_op (s : CacheSet.t) (op : set_op) (w : World)
    : CacheSet.t * World :=
  match op with
  | Touch tag => let '(s', _, w') := CacheSet.access s tag w in (s', w')
  | Admit tag => CacheSet.insert s tag w
  end.

(** The states of the set after each call of the sequence, in order. *)
Fixpoint set_states (s : CacheSet.t) (ops : list set_op) (w : World)
    : list CacheSet.t :=
  match ops with
  | [] => []
  | op :: ops' =>
      let '(s', w') := run_set_op s op w in s' :: set_states s' ops' w'
  end.

Fixpoint run_set_ops (s : CacheSet.t) (ops : list set_op) (w : World)
    : CacheSet.t * World :=
  match ops with
  | [] => (s, w)
  | op :: ops' => let '(s', w') := run_set_op s op w in run_set_ops s' ops' w'
  end.

(** The policy names that [replace] recognises. *)
Definition known_policy (p : string) : Prop :=
  p ∈ ["LRU"; "MRU"; "LFU"; "FIFO"; "Random"].

(** The invariant of a set: within capacity, tags pairwise distinct. *)
Definition set_inv (s : CacheSet.t) : Prop :=
  Z.of_nat (length (CacheSet.blocks s)) <= CacheSet.capacity s
  ∧ NoDup (CacheSet.tags s).

(** Calls on a [CacheLevel]: [access(address)] and [insert(address)]. *)
Inductive level_op : Type :=
| Probe (address : Z)
| Warm (address : Z).

(** Does [access(address)] find a set at the index of the address? *)
Definition reaches_set (l : CacheLevel.t) (address : Z) : bool :=
  match CacheLevel.get_index_and_tag l address with
  | Ok (index, _) => bool_decide (is_Some (CacheLevel.sets l !! index))
  | Raise _ => false
  end.

(** A run of calls on a level; next to the final level it returns the
    number of [access] calls that found a set at their index. *)
Fixpoint run_level_ops (l : CacheLevel.t) (ops : list level_op) (w : World)
    : result (CacheLevel.t * nat * World) :=
  match ops with
  | [] => mret (l, 0%nat, w)
  | Probe address :: ops' =>
      '(l1, _, w1) ← CacheLevel.access l address w;
      '(l2, n, w2) ← run_level_ops l1 ops' w1;
      mret (l2, if reaches_set l address then S n else n, w2)
  | Warm address :: ops' =>
      '(l1, w1) ← CacheLevel.insert l address w;
      run_level_ops l1 ops' w1
  end.

(** The fields of a level that no method assigns after construction. *)
Definition same_shape (l l' : CacheLevel.t) : Prop :=
  CacheLevel.name l' = CacheLevel.name l
  ∧ CacheLevel.size l' = CacheLevel.size l
  ∧ CacheLevel.block_size l' = CacheLevel.block_size l
  ∧ CacheLevel.associativity l' = CacheLevel.associativity l
  ∧ CacheLevel.access_time l' = CacheLevel.access_time l
  ∧ CacheLevel.policy l' = CacheLevel.policy l
  ∧ CacheLevel.num_sets l' = CacheLevel.num_sets l.

(** A level on which address decomposition cannot divide by zero. *)
Definition divides_safely (l : CacheLevel.t) : Prop :=
  CacheLevel.block_size l <> 0 ∧ CacheLevel.num_sets l <> 0.

(** [access(address)] on [l] reports a hit, in every world. *)
Definition probe_hits (l : CacheLevel.t) (address : Z) : Prop :=
  forall w : World, exists l' w',
    CacheLevel.access l address w = Ok (l', true, w').

(** The driver's loop: [for a in addrs: t, _ = hierarchy.access_memory(a);
    t_mem += t]. *)
Fixpoint run_trace (h : MemoryHierarchy.t) (addrs : list Z) (t_mem : Z)
    (w : World) : result (MemoryHierarchy.t * Z * World) :=
  match addrs with
  | [] => mret (h, t_mem, w)
  | a :: addrs' =>
      '(h1, (t, _), w1) ← MemoryHierarchy.access_memory h a w;
      run_trace h1 addrs' (t_mem + t) w1
  end.

(** The hierarchies that a sequence of [access_memory] calls can produce
    from [h0]; the world of each call is arbitrary. *)
Inductive reachable (h0 : MemoryHierarchy.t) : MemoryHierarchy.t -> Prop :=
| reachable_start : reachable h0 h0
| reachable_step h address w h' r w' :
    reachable h0 h ->
    MemoryHierarchy.access_memory h address w = Ok (h', r, w') ->
    reachable h0 h'.

(** Every level of the hierarchy, the disk level included, decomposes
    addresses without dividing by zero. *)
Definition hierarchy_safe (h : MemoryHierarchy.t) : Prop :=
  Forall divides_safely (MemoryHierarchy.levels h)
  ∧ divides_safely (MemoryHierarchy.disk_level h).

(** Is level [j] probed by [access_memory(address)]?  The loop probes the
    levels in order and stops at the first hit. *)
Definition probed (h : MemoryHierarchy.t) (address : Z) (w : World) (j : nat)
    : bool :=
  match MemoryHierarchy.resolving_position h address w with
  | Some i => (j <=? i)%nat
  | None => true
  end.

(** The number of probes of level [j] that find a set at their index while
    the driver's loop runs over [addrs]. *)
Fixpoint reached_probes (h : MemoryHierarchy.t) (addrs : list Z) (w : World)
    (j : nat) : nat :=
  match addrs with
  | [] => 0%nat
  | a :: addrs' =>
      match MemoryHierarchy.access_memory h a w with
      | Ok (h1, _, w1) =>
          ((if probed h a w j
               && from_option (fun l => reaches_set l a) false
                    (MemoryHierarchy.levels h !! j)
            then 1 else 0)
           + reached_probes h1 addrs' w1 j)%nat
      | Raise _ => 0%nat
      end
  end.

(** [replace] removes the first block whose [key] is smallest. *)
Definition evicts_first_smallest (key : CacheBlock.t -> Z) (s : CacheSet.t)
    (w : World) : Prop :=
  exists i victim,
    CacheSet.blocks s !! i = Some victim
    ∧ CacheSet.replace s w
      = (CacheSet.mk (CacheSet.capacity s) (delete i (CacheSet.blocks s))
           (CacheSet.policy s), w)
    ∧ (forall b, b ∈ CacheSet.blocks s -> key victim <= key b)
    ∧ (forall j b, (j < i)%nat -> CacheSet.blocks s !! j = Some b ->
         key victim < key b).

(** [replace] removes the first block whose [key] is largest. *)
Definition evicts_first_largest (key : CacheBlock.t -> Z) (s : CacheSet.t)
    (w : World) : Prop :=
  exists i victim,
    CacheSet.blocks s !! i = Some victim
    ∧ CacheSet.replace s w
      = (CacheSet.mk (CacheSet.capacity s) (delete i (CacheSet.blocks s))
           (CacheSet.policy s), w)
    ∧ (forall b, b ∈ CacheSet.blocks s -> key b <= key victim)
    ∧ (forall j b, (j < i)%nat -> CacheSet.blocks s !! j = Some b ->
         key b < key victim).

(** The invariant of a level: every set that exists sits at an index below
    [num_sets], was created with the level's associativity and policy, and
    satisfies the invariant of a set. *)
Definition level_inv (l : CacheLevel.t) : Prop :=
  forall index s,
    CacheLevel.sets l !! index = Some s ->
    0 <= index < CacheLevel.num_sets l
    ∧ CacheSet.capacity s = CacheLevel.associativity l
    ∧ CacheSet.policy s = CacheLevel.policy l
    ∧ set_inv s.

(** What one [access_memory(address)] call does to a level of [levels]:
    it probes it or not, and then inserts the address or not. *)
Definition level_step (address : Z) (l l' : CacheLevel.t) : Prop :=
  exists l1,
    (l1 = l
     ∨ exists wa hit wb, CacheLevel.access l address wa = Ok (l1, hit, wb))
    ∧ (l' = l1
       ∨ exists wc wd, CacheLevel.insert l1 address wc = Ok (l', wd)).

(** A level with positive associativity and set count and one of the five
    policies, whose sets satisfy the invariant. *)
Definition well_formed (l : CacheLevel.t) : Prop :=
  0 < CacheLevel.associativity l
  ∧ 0 < CacheLevel.num_sets l
  ∧ CacheLevel.block_size l <> 0
  ∧ known_policy (CacheLevel.policy l)
  ∧ level_inv l.

(** The sum of the access times of a list of levels. *)
Definition total_latency (ls : list CacheLevel.t) : Z :=
  foldr (fun l acc => CacheLevel.access_time l + acc) 0 ls.

(** The number of addresses of [addrs] that the driver's loop resolves at
    the disk level. *)
Fixpoint terminal_fetches (h : MemoryHierarchy.t) (addrs : list Z) (w : World)
    : nat :=
  match addrs with
  | [] => 0%nat
  | a :: addrs' =>
      match MemoryHierarchy.access_memory h a w with
      | Ok (h1, _, w1) =>
          ((match MemoryHierarchy.resolving_position h a w with
            | Some _ => 0
            | None => 1
            end)
           + terminal_fetches h1 addrs' w1)%nat
      | Raise _ => 0%nat
      end
  end.

(** The level [l] with another access time. *)
Definition retime (t : Z) (l : CacheLevel.t) : CacheLevel.t :=
  CacheLevel.mk (CacheLevel.name l) (CacheLevel.size l)
    (CacheLevel.block_size l) (CacheLevel.associativity l) t
    (CacheLevel.policy l) (CacheLevel.num_sets l) (CacheLevel.sets l)
    (CacheLevel.hits l) (CacheLevel.misses l).

(** [l2] is [l1] with an access time that is not smaller. *)
Definition slower_level (l1 l2 : CacheLevel.t) : Prop :=
  l2 = retime (CacheLevel.access_time l2) l1
  ∧ CacheLevel.access_time l1 <= CacheLevel.access_time l2.

(** [h2] is [h1] with access times that are not smaller. *)
Definition slower_hierarchy (h1 h2 : MemoryHierarchy.t) : Prop :=
  Forall2 slower_level (MemoryHierarchy.levels h1) (MemoryHierarchy.levels h2)
  ∧ slower_level (MemoryHierarchy.disk_level h1)
      (MemoryHierarchy.disk_level h2).

(** ** class SimulatorApp

    Of the front end only the computation of [run_simulation] is
    modelled, from the configuration dictionary on: the hierarchy, the
    generator over the main memory's address space, the addresses of the
    chosen pattern, the timed loop and the analyzer.  Reading the form,
    the status labels, the table and the chart are left out. *)

Module SimulatorApp.

Definition run_simulation (config : MemoryHierarchy.config) (num : Z)
    (pat : string) (w : World) : result (PerformanceAnalyzer.t * World) :=
  hierarchy ← MemoryHierarchy.init config;
  generator ←
    AccessPatternGenerator.init
      (MemoryHierarchy.ram_size config * 1024 * 1024);
  '(addrs, w1) ←
    (if String.eqb pat "Sequential" then
       addrs ← AccessPatternGenerator.generate_sequential generator num 4;
       mret (addrs, w)
     else if String.eqb pat "Random" then
       AccessPatternGenerator.generate_random generator num w
     else AccessPatternGenerator.generate_locality generator num w);
  let '(start, w2) := time_time w1 in
  '(hierarchy', t_mem, w3) ← run_trace hierarchy addrs 0 w2;
  let '(stop, w4) := time_time w3 in
  analyzer ← PerformanceAnalyzer.init hierarchy' t_mem num;
  mret (analyzer, w4).

End SimulatorApp.

(** ** Concrete worlds and objects, for evaluating the model *)

(** A clock that advances by one unit at every reading. *)
Definition ticking_world : World :=
  mkWorld (fun k => Z.of_nat k) 0 (fun k => k) (fun _ => 0) 0.

(** A clock too coarse to tell any two readings apart. *)
Definition frozen_world : World :=
  mkWorld (fun _ => 0) 0 (fun k => k) (fun _ => 0) 0.

Definition unwrap {A} (default : A) (r : result A) : A :=
  match r with Ok a => a | Raise _ => default end.

(** The configuration that the front end offers by default. *)
Definition demo_config : MemoryHierarchy.config :=
  MemoryHierarchy.mkConfig "LRU" 64
    32768 4 1
    true 262144 8 5
    true 2097152 16 15
    1024 100
    500 10000000.

(** A direct-mapped level with a single set: one block of 64 bytes. *)
Definition tiny_level : CacheLevel.t :=
  CacheLevel.mk "L1 Cache" 64 64 1 1 "LRU" 1 ∅ 0 0.

(** The same level after [insert(0)]. *)
Definition tiny_level_warm : CacheLevel.t :=
  (unwrap (tiny_level, ticking_world)
     (CacheLevel.insert tiny_level 0 ticking_world)).1.

(** The hierarchy built from the default configuration. *)
Definition demo_hierarchy : MemoryHierarchy.t :=
  unwrap (MemoryHierarchy.mk [] tiny_level) (MemoryHierarchy.init demo_config).

(** Five addresses that share set 0 of the four-way L1: the fifth fetch
    evicts the block of address 0 from L1, while L2 keeps it. *)
Definition demo_after_five : MemoryHierarchy.t * Z * World :=
  unwrap (demo_hierarchy, 0, ticking_world)
    (run_trace demo_hierarchy [0; 8192; 16384; 24576; 32768] 0 ticking_world).

Definition demo_after_hit : MemoryHierarchy.t * (Z * string) * World :=
  unwrap (demo_hierarchy, (0, ""), ticking_world)
    (MemoryHierarchy.access_memory demo_after_five.1.1 0 demo_after_five.2).

Definition demo_after_fetch : MemoryHierarchy.t * (Z * string) * World :=
  unwrap (demo_hierarchy, (0, ""), ticking_world)
    (MemoryHierarchy.access_memory demo_hierarchy 0 ticking_world).

(** The default configuration with a negative L1 size. *)
Definition negative_size_config : MemoryHierarchy.config :=
  MemoryHierarchy.mkConfig "LRU" 64
    (-32768) 4 1
    true 262144 8 5
    true 2097152 16 15
    1024 100
    500 10000000.

(** The default configuration with an L1 size of [10 ^ 400]. *)
Definition huge_size_config : MemoryHierarchy.config :=
  MemoryHierarchy.mkConfig "LRU" 64
    (10 ^ 400) 4 1
    true 262144 8 5
    true 2097152 16 15
    1024 100
    500 10000000.

(** The default configuration with a block size of zero. *)
Definition zero_block_config : MemoryHierarchy.config :=
  MemoryHierarchy.mkConfig "LRU" 0
    32768 4 1
    true 262144 8 5
    true 2097152 16 15
    1024 100
    500 10000000.

(** The default hierarchy with a main memory of 250 ns instead of 100. *)
Definition demo_slow_ram : MemoryHierarchy.t :=
  unwrap demo_hierarchy
    (MemoryHierarchy.init
       (MemoryHierarchy.mkConfig "LRU" 64
          32768 4 1
          true 262144 8 5
          true 2097152 16 15
          1024 250
          500 10000000)).

(** * Facts about the model *)

(** ** Float division *)

Lemma pow2_max_pos e : 0 < 2 ^ Z.max 0 e.
Proof. apply Z.pow_pos_nonneg; lia. Qed.

(** [2 ^ (e + k)], as a numerator and denominator, against [2 ^ k * 2 ^ e]. *)
Lemma pow2_shift e k :
  0 <= k ->
  2 ^ Z.max 0 (e + k) * 2 ^ Z.max 0 (- e)
  = 2 ^ k * 2 ^ Z.max 0 e * 2 ^ Z.max 0 (- (e + k)).
Proof.
  intros Hk. rewrite <- !Z.pow_add_r by lia. f_equal. lia.
Qed.

(** [2 ^ e <= a / b], without fractions. *)
Definition pow2_le_quotient (e a b : Z) : Prop :=
  b * 2 ^ Z.max 0 e <= a * 2 ^ Z.max 0 (- e).

Lemma pow2_le_quotient_shift e k a b :
  0 <= k ->
  pow2_le_quotient (e + k) a b
  <-> 2 ^ k * (b * 2 ^ Z.max 0 e) <= a * 2 ^ Z.max 0 (- e).
Proof.
  intros Hk. unfold pow2_le_quotient.
  pose proof (pow2_shift e k Hk) as Hs.
  pose proof (pow2_max_pos e). pose proof (pow2_max_pos (- e)).
  pose proof (pow2_max_pos (e + k)). pose proof (pow2_max_pos (- (e + k))).
  assert (0 < 2 ^ k) by (apply Z.pow_pos_nonneg; lia).
  set (U := 2 ^ Z.max 0 e) in *. set (D := 2 ^ Z.max 0 (- e)) in *.
  set (Uk := 2 ^ Z.max 0 (e + k)) in *.
  set (Dk := 2 ^ Z.max 0 (- (e + k))) in *. set (K := 2 ^ k) in *.
  split; intros Hle.
  - apply (Z.mul_le_mono_pos_r _ _ Dk); [lia|].
    apply (Z.mul_le_mono_nonneg_r _ _ D) in Hle; [|lia].
    replace (K * (b * U) * Dk) with (b * (K * U * Dk)) by ring.
    rewrite <- Hs. lia.
  - apply (Z.mul_le_mono_pos_r _ _ D); [lia|].
    apply (Z.mul_le_mono_nonneg_r _ _ Dk) in Hle; [|lia].
    replace (b * Uk * D) with (b * (Uk * D)) by ring.
    rewrite Hs. lia.
Qed.

Lemma pow2_le_quotient_antitone e1 e2 a b :
  0 < b -> e1 <= e2 ->
  pow2_le_quotient e2 a b -> pow2_le_quotient e1 a b.
Proof.
  intros Hb Hle H. replace e2 with (e1 + (e2 - e1)) in H by lia.
  apply pow2_le_quotient_shift in H; [|lia].
  unfold pow2_le_quotient.
  pose proof (pow2_max_pos e1).
  assert (0 < 2 ^ (e2 - e1)) by (apply Z.pow_pos_nonneg; lia).
  nia.
Qed.

Lemma log2_quotient_lower a b :
  0 < a -> 0 < b -> pow2_le_quotient (Z.log2 a - Z.log2 b - 1) a b.
Proof.
  intros Ha Hb. unfold pow2_le_quotient.
  destruct (Z.log2_spec a Ha) as [Hla _].
  destruct (Z.log2_spec b Hb) as [_ Hlb].
  pose proof (Z.log2_nonneg a). pose proof (Z.log2_nonneg b).
  set (d := Z.log2 a - Z.log2 b - 1).
  assert (2 ^ Z.succ (Z.log2 b) * 2 ^ Z.max 0 d
          = 2 ^ Z.log2 a * 2 ^ Z.max 0 (- d)) as Heq.
  { rewrite <- !Z.pow_add_r by lia. f_equal. lia. }
  pose proof (pow2_max_pos d). pose proof (pow2_max_pos (- d)).
  nia.
Qed.

Lemma log2_quotient_upper a b :
  0 < a -> 0 < b -> ~ pow2_le_quotient (Z.log2 a - Z.log2 b + 1) a b.
Proof.
  intros Ha Hb. unfold pow2_le_quotient.
  destruct (Z.log2_spec a Ha) as [_ Hla].
  destruct (Z.log2_spec b Hb) as [Hlb _].
  pose proof (Z.log2_nonneg a). pose proof (Z.log2_nonneg b).
  set (d := Z.log2 a - Z.log2 b + 1).
  assert (2 ^ Z.log2 b * 2 ^ Z.max 0 d
          = 2 ^ Z.succ (Z.log2 a) * 2 ^ Z.max 0 (- d)) as Heq.
  { rewrite <- !Z.pow_add_r by lia. f_equal. lia. }
  pose proof (pow2_max_pos d). pose proof (pow2_max_pos (- d)).
  nia.
Qed.

(** [floor_log2_quotient a b] is the integer part of [log2 (a / b)]. *)
Lemma floor_log2_quotient_spec a b :
  0 < a -> 0 < b ->
  pow2_le_quotient (floor_log2_quotient a b) a b
  ∧ ~ pow2_le_quotient (floor_log2_quotient a b + 1) a b
  ∧ floor_log2_quotient a b <= Z.log2 a - Z.log2 b.
Proof.
  intros Ha Hb. unfold floor_log2_quotient, scaled.
  destruct (Z.leb_spec (b * 2 ^ Z.max 0 (Z.log2 a - Z.log2 b))
              (a * 2 ^ Z.max 0 (- (Z.log2 a - Z.log2 b)))) as [Hle|Hlt].
  - split_and!; [exact Hle | by apply log2_quotient_upper | lia].
  - split_and!; [by apply log2_quotient_lower | | lia].
    replace (Z.log2 a - Z.log2 b - 1 + 1) with (Z.log2 a - Z.log2 b) by lia.
    unfold pow2_le_quotient. lia.
Qed.

(** The mantissa that [round_to_double] picks at exponent [e]. *)
Lemma round_to_double_spec a b :
  0 < a -> 0 < b ->
  let x := round_to_double a b in
  let '(num, den) := scaled a b (fexp x) in
  -1074 <= fexp x
  ∧ fexp x <= Z.max (Z.log2 a - Z.log2 b - 52) (-1074)
  ∧ 0 <= fmant x <= 2 ^ 53
  ∧ 2 * Z.abs (fmant x * den - num) <= den.
Proof.
  intros Ha Hb.
  destruct (floor_log2_quotient_spec a b Ha Hb) as (_ & Hup & Hlog).
  unfold round_to_double.
  set (e := Z.max (floor_log2_quotient a b - 52) (-1074)) in *.
  assert (~ pow2_le_quotient (e + 53) a b) as Hlt.
  { intros H. apply Hup. revert H.
    apply pow2_le_quotient_antitone; [done | lia]. }
  rewrite pow2_le_quotient_shift in Hlt by lia.
  unfold scaled. cbn [fexp fmant].
  pose proof (pow2_max_pos e) as HU. pose proof (pow2_max_pos (- e)) as HD.
  set (num := a * 2 ^ Z.max 0 (- e)) in *.
  set (den := b * 2 ^ Z.max 0 e) in *.
  assert (0 < den) as Hden by (unfold den; nia).
  assert (0 <= num) as Hnum by (unfold num; nia).
  pose proof (Z.div_mod num den ltac:(lia)) as Hdm.
  pose proof (Z.mod_pos_bound num den Hden) as Hr.
  assert (0 <= num / den) as Hq0 by (apply Z.div_pos; lia).
  assert (num / den < 2 ^ 53) as Hq.
  { apply Z.div_lt_upper_bound; lia. }
  set (q := num / den) in *. set (r := num mod den) in *.
  split; [lia|]. split; [lia|].
  destruct (Z.ltb_spec (2 * r) den) as [H1|H1].
  { split; [lia|]. replace (q * den - num) with (- r) by lia.
    rewrite Z.abs_opp, Z.abs_eq; lia. }
  destruct (Z.ltb_spec den (2 * r)) as [H2|H2].
  { split; [lia|]. replace ((q + 1) * den - num) with (den - r) by lia.
    rewrite Z.abs_eq; lia. }
  destruct (Z.even q).
  { split; [lia|]. replace (q * den - num) with (- r) by lia.
    rewrite Z.abs_opp, Z.abs_eq; lia. }
  split; [lia|]. replace ((q + 1) * den - num) with (den - r) by lia.
  rewrite Z.abs_eq; lia.
Qed.

(** Python raises [ZeroDivisionError] exactly when the divisor is zero. *)
Lemma truediv_ZeroDivisionError a b :
  truediv a b = Raise ZeroDivisionError <-> b = 0.
Proof.
  unfold truediv. destruct (Z.eqb_spec b 0) as [->|Hb]; [done|].
  destruct (a =? 0); [split; [done | lia]|].
  destruct (too_large _); split; (done || lia).
Qed.

(** With a non-zero divisor the only failure is [OverflowError]. *)
Lemma truediv_cases a b :
  b <> 0 ->
  (exists x, truediv a b = Ok x) ∨ truediv a b = Raise OverflowError.
Proof.
  intros Hb. unfold truediv. destruct (Z.eqb_spec b 0) as [|_]; [done|].
  destruct (a =? 0); [left; eauto|].
  destruct (too_large _); [by right | left; eauto].
Qed.

(** No overflow below [2 ^ 1023]. *)
Lemma truediv_in_range a b :
  b <> 0 -> Z.abs a < 2 ^ 1023 -> exists x, truediv a b = Ok x.
Proof.
  intros Hb Ha. unfold truediv. destruct (Z.eqb_spec b 0) as [|_]; [done|].
  destruct (Z.eqb_spec a 0) as [|Ha0]; [eauto|].
  assert (0 < Z.abs a) as Hpa by lia. assert (0 < Z.abs b) as Hpb by lia.
  pose proof (round_to_double_spec _ _ Hpa Hpb) as H. cbv zeta in H.
  set (x := round_to_double (Z.abs a) (Z.abs b)) in *.
  unfold scaled in H. destruct H as (He & He' & Hm & _).
  assert (too_large x = false) as ->; [|eauto].
  unfold too_large. apply Z.leb_gt.
  assert (Z.log2 (Z.abs a) <= 1022).
  { assert (Z.log2 (Z.abs a) < 1023); [|lia]. apply Z.log2_lt_pow2; lia. }
  pose proof (Z.log2_nonneg (Z.abs b)).
  assert (2 ^ Z.max 0 (fexp x) <= 2 ^ 970) by (apply Z.pow_le_mono_r; lia).
  pose proof (pow2_max_pos (fexp x)).
  change (2 ^ 1024) with (2 ^ 53 * 2 ^ 970 * 2).
  assert (0 < 2 ^ 970) by done. assert (0 < 2 ^ 53) by done.
  set (P970 := 2 ^ 970) in *. set (P53 := 2 ^ 53) in *.
  nia.
Qed.

(** The result is within half a unit in the last place of the quotient. *)
Lemma truediv_error a b x :
  0 < b -> truediv a b = Ok x ->
  (2 * Qabs (float_value x - inject_Z a / inject_Z b) <= ulp x)%Q
  ∧ Z.abs (fmant x) <= 2 ^ 53
  ∧ -1074 <= fexp x.
Proof.
  intros Hb. unfold truediv. destruct (Z.eqb_spec b 0) as [|_]; [lia|].
  destruct (Z.eqb_spec a 0) as [->|Ha0].
  { intros [= <-]. split; [|done]. vm_compute. destruct b; done. }
  assert (0 < Z.abs a) as Hpa by lia. assert (0 < Z.abs b) as Hpb by lia.
  pose proof (round_to_double_spec _ _ Hpa Hpb) as H. cbv zeta in H.
  destruct (round_to_double (Z.abs a) (Z.abs b)) as [m e].
  destruct (too_large _); [done|]. intros [= <-]. cbn [fmant fexp] in *.
  unfold scaled in H. destruct H as (He & _ & Hm & Herr).
  replace (Z.sgn b) with 1 by lia. rewrite (Z.abs_eq b) in Herr by lia.
  split; [|split; [|done]].
  2:{ destruct a; cbn [Z.sgn]; lia. }
  unfold ulp, float_value. cbn [fmant fexp].
  pose proof (pow2_max_pos e) as HU.
  pose proof (pow2_max_pos (- e)) as HD.
  set (U := 2 ^ Z.max 0 e) in *.
  set (D := 2 ^ Z.max 0 (- e)) in *.
  destruct b as [|p|p]; try lia.
  unfold Qle, Qabs, Qminus, Qplus, Qopp, Qdiv, Qmult, Qinv, inject_Z.
  cbn [Qnum Qden].
  rewrite !Pos.mul_1_l, Pos2Z.inj_mul, Z2Pos.id by lia.
  assert (Z.abs (Z.sgn a * 1 * m * U * Z.pos p + - (a * 1) * D)
          = Z.abs (m * (Z.pos p * U) - Z.abs a * D)) as ->.
  { destruct a as [|q|q]; [done| |]; cbn [Z.sgn Z.abs].
    - f_equal. lia.
    - rewrite <- Z.abs_opp. f_equal. lia. }
  set (X := Z.abs _) in *. nia.
Qed.

Lemma int_truediv_Ok_nonzero a b q : int_truediv a b = Ok q -> b <> 0.
Proof.
  unfold int_truediv. intros H ->.
  assert (truediv a 0 = Raise ZeroDivisionError) as Hz
    by by apply truediv_ZeroDivisionError.
  by rewrite Hz in H.
Qed.

Lemma int_truediv_ZeroDivisionError a b :
  int_truediv a b = Raise ZeroDivisionError <-> b = 0.
Proof.
  unfold int_truediv. split.
  - destruct (truediv a b) eqn:E; [done|]. simpl. intros [= ->].
    by apply truediv_ZeroDivisionError in E.
  - intros Hb. apply (truediv_ZeroDivisionError a) in Hb. by rewrite Hb.
Qed.

Lemma int_truediv_cases a b :
  b <> 0 ->
  (exists q, int_truediv a b = Ok q)
  ∨ int_truediv a b = Raise OverflowError.
Proof.
  intros Hb. unfold int_truediv.
  destruct (truediv_cases a b Hb) as [[x ->]| ->]; simpl; eauto.
Qed.

Lemma int_truediv_in_range a b :
  b <> 0 -> Z.abs a < 2 ^ 1023 -> exists q, int_truediv a b = Ok q.
Proof.
  intros Hb Ha. unfold int_truediv.
  destruct (truediv_in_range a b Hb Ha) as [x ->]. simpl. eauto.
Qed.

(** Below the smallest exponent aside, the mantissa has 53 bits. *)
Lemma round_to_double_normal a b :
  0 < a -> 0 < b ->
  fexp (round_to_double a b) = -1074
  ∨ 2 ^ 52 <= fmant (round_to_double a b).
Proof.
  intros Ha Hb.
  destruct (floor_log2_quotient_spec a b Ha Hb) as (HL & _ & _).
  unfold round_to_double.
  set (L := floor_log2_quotient a b) in *.
  destruct (Z.le_gt_cases (L - 52) (-1074)) as [Hsub|Hnorm].
  { left. unfold scaled. cbn [fexp]. lia. }
  right. replace (Z.max (L - 52) (-1074)) with (L - 52) by lia.
  replace L with (L - 52 + 52) in HL by lia.
  apply pow2_le_quotient_shift in HL; [|lia].
  unfold scaled. cbn [fmant].
  pose proof (pow2_max_pos (L - 52)) as HU.
  set (num := a * 2 ^ Z.max 0 (- (L - 52))) in *.
  set (den := b * 2 ^ Z.max 0 (L - 52)) in *.
  assert (0 < den) as Hden by (unfold den; nia).
  assert (2 ^ 52 <= num / den) as Hq
    by (apply Z.div_le_lower_bound; lia).
  repeat case_match; lia.
Qed.

Lemma truediv_double a b x : truediv a b = Ok x -> is_double x.
Proof.
  unfold truediv. destruct (Z.eqb_spec b 0) as [|Hb]; [done|].
  destruct (Z.eqb_spec a 0) as [->|Ha0].
  { intros [= <-]. unfold is_double. simpl. split_and!; [done|done|by left]. }
  assert (0 < Z.abs a) as Hpa by lia. assert (0 < Z.abs b) as Hpb by lia.
  pose proof (round_to_double_spec _ _ Hpa Hpb) as H. cbv zeta in H.
  pose proof (round_to_double_normal _ _ Hpa Hpb) as Hn.
  destruct (round_to_double (Z.abs a) (Z.abs b)) as [m e].
  destruct (too_large _); [done|]. intros [= <-]. cbn [fmant fexp] in *.
  unfold scaled in H. destruct H as (He & _ & Hm & _).
  assert (Z.abs (Z.sgn a * Z.sgn b * m) = m) as Habs.
  { destruct a, b; cbn [Z.sgn]; lia. }
  unfold is_double. cbn [fmant fexp]. rewrite Habs.
  split_and!; [lia | done | lia].
Qed.

Lemma round_to_double_fexp a b :
  fexp (round_to_double a b) = Z.max (floor_log2_quotient a b - 52) (-1074).
Proof. reflexivity. Qed.

(** [int(a / b)] is the truncated quotient while [a] is below [2 ^ 53]. *)
Lemma round_to_double_truncated a b :
  0 < a < 2 ^ 53 -> 0 < b ->
  int_of_float (round_to_double a b) = a / b.
Proof.
  intros [Ha Ha53] Hb.
  destruct (floor_log2_quotient_spec a b Ha Hb) as (HL & HL1 & _).
  pose proof (round_to_double_spec a b Ha Hb) as H. cbv zeta in H.
  pose proof (round_to_double_fexp a b) as He.
  destruct (round_to_double a b) as [m e]. unfold int_of_float.
  cbn [fmant fexp] in *. unfold scaled in H.
  destruct H as (_ & _ & Hm & Herr).
  set (L := floor_log2_quotient a b) in *.
  assert (L <= 52) as HL52.
  { destruct (Z.le_gt_cases L 52) as [|Hgt]; [done|]. exfalso.
    assert (pow2_le_quotient 53 a b) as H53.
    { revert HL. apply pow2_le_quotient_antitone; [done | lia]. }
    unfold pow2_le_quotient in H53.
    change (Z.max 0 53) with 53 in H53.
    replace (Z.max 0 (- (53))) with 0 in H53 by lia. lia. }
  assert (e <= 0) as He0 by lia.
  rewrite (Z.max_l 0 e) in * by lia. rewrite Z.pow_0_r, !Z.mul_1_r in *.
  rewrite Z.quot_div_nonneg; [|lia|apply pow2_max_pos].
  pose proof (pow2_max_pos (- e)) as HD.
  set (D := 2 ^ Z.max 0 (- e)) in *.
  pose proof (Z.div_mod a b ltac:(lia)) as Hdm.
  pose proof (Z.mod_pos_bound a b Hb) as Hr.
  assert (0 <= a / b) as Hq0 by (apply Z.div_pos; lia).
  set (q0 := a / b) in *. set (r0 := a mod b) in *.
  assert (2 * (m * b - a * D) <= b ∧ 2 * (a * D - m * b) <= b)
    as [Hup Hlo] by lia.
  destruct (Z.le_gt_cases (-1074) (L - 52)) as [Hnorm|Hsub].
  - (* 53 bits of mantissa *)
    assert (e = L - 52) as HeL by lia.
    assert (b < 2 * D) as HbD.
    { unfold pow2_le_quotient in HL.
      assert (2 ^ Z.max 0 L * (2 * D) = 2 ^ 53 * 2 ^ Z.max 0 (- L)) as Hid.
      { unfold D. change 2 with (2 ^ 1) at 2.
        rewrite <- !Z.pow_add_r by lia. f_equal. lia. }
      pose proof (pow2_max_pos L). pose proof (pow2_max_pos (- L)).
      nia. }
    symmetry. apply Z.div_unique with (r := m - q0 * D).
    + left. nia.
    + lia.
  - (* below the normal range the quotient is smaller than one *)
    assert (~ pow2_le_quotient 0 a b) as H0.
    { intros H. apply HL1. revert H.
      apply pow2_le_quotient_antitone; [done | lia]. }
    unfold pow2_le_quotient in H0.
    replace (Z.max 0 (- 0)) with 0 in H0 by lia.
    replace (Z.max 0 0) with 0 in H0 by lia. rewrite Z.pow_0_r in H0.
    assert (q0 = 0) as -> by (unfold q0; apply Z.div_small; lia).
    apply Z.div_small. split; [lia|].
    assert (2 ^ 53 < D); [|lia].
    unfold D. apply Z.pow_lt_mono_r; lia.
Qed.

Lemma truediv_in_range_value a b :
  b <> 0 -> a <> 0 -> Z.abs a < 2 ^ 1023 ->
  truediv a b
  = Ok (mkFloat
          (Z.sgn a * Z.sgn b * fmant (round_to_double (Z.abs a) (Z.abs b)))
          (fexp (round_to_double (Z.abs a) (Z.abs b)))).
Proof.
  intros Hb Ha Hr. destruct (truediv_in_range a b Hb Hr) as [y Hy].
  revert Hy. unfold truediv.
  destruct (Z.eqb_spec b 0) as [|_]; [done|].
  destruct (Z.eqb_spec a 0) as [|_]; [done|].
  by destruct (too_large _).
Qed.

Lemma int_of_float_sign s m e :
  s = 1 ∨ s = -1 ->
  int_of_float (mkFloat (s * m) e) = s * int_of_float (mkFloat m e).
Proof.
  unfold int_of_float. cbn [fmant fexp].
  pose proof (pow2_max_pos (- e)).
  intros [->| ->].
  - by rewrite !Z.mul_1_l.
  - replace (-1 * m * 2 ^ Z.max 0 e) with (- (m * 2 ^ Z.max 0 e)) by lia.
    rewrite Z.quot_opp_l by lia. lia.
Qed.

Lemma int_truediv_small a b :
  b <> 0 -> Z.abs a < 2 ^ 53 -> int_truediv a b = Ok (Z.quot a b).
Proof.
  intros Hb Ha. unfold int_truediv.
  destruct (Z.eq_dec a 0) as [->|Ha0].
  { unfold truediv. destruct (Z.eqb_spec b 0) as [|_]; [done|]. simpl.
    by rewrite Z.quot_0_l. }
  rewrite truediv_in_range_value; [|done|done|].
  2:{ eapply Z.lt_trans; [exact Ha|]. by apply Z.pow_lt_mono_r. }
  cbn [mbind result_bind mret result_ret]. f_equal.
  rewrite int_of_float_sign by (destruct a, b; simpl; lia || auto).
  pose proof (round_to_double_truncated (Z.abs a) (Z.abs b)) as Ht.
  destruct (round_to_double (Z.abs a) (Z.abs b)) as [m e].
  cbn [fmant fexp]. rewrite Ht by lia.
  by rewrite Z.quot_div.
Qed.

(** An integer quotient of at most [2 ^ 53] is not rounded. *)
Lemma round_to_double_exact b k :
  0 < b -> 0 < k <= 2 ^ 53 ->
  let x := round_to_double (k * b) b in
  fmant x * 2 ^ Z.max 0 (fexp x) = k * 2 ^ Z.max 0 (- fexp x).
Proof.
  intros Hb [Hk Hk53]. cbv zeta.
  assert (0 < k * b) as Ha by nia.
  destruct (floor_log2_quotient_spec (k * b) b Ha Hb) as (HL & HL1 & _).
  unfold round_to_double, scaled. cbn [fmant fexp].
  set (L := floor_log2_quotient (k * b) b) in *.
  assert (0 <= L) as HL0.
  { destruct (Z.le_gt_cases 0 L) as [|Hlt]; [done|]. exfalso. apply HL1.
    apply (pow2_le_quotient_antitone (L + 1) 0); [done | lia|].
    unfold pow2_le_quotient.
    replace (Z.max 0 (- 0)) with 0 by lia.
    replace (Z.max 0 0) with 0 by lia. rewrite Z.pow_0_r. nia. }
  assert (L <= 53) as HL53.
  { destruct (Z.le_gt_cases L 53) as [|Hgt]; [done|]. exfalso.
    assert (pow2_le_quotient 54 (k * b) b) as H54.
    { revert HL. apply pow2_le_quotient_antitone; [done | lia]. }
    unfold pow2_le_quotient in H54.
    replace (Z.max 0 (- (54))) with 0 in H54 by lia.
    replace (Z.max 0 54) with 54 in H54 by lia.
    rewrite Z.pow_0_r in H54.
    assert (2 ^ 53 < 2 ^ 54) by done. nia. }
  replace (Z.max (L - 52) (-1074)) with (L - 52) by lia.
  destruct (Z.le_gt_cases L 52) as [Hle|Hgt].
  - replace (Z.max 0 (L - 52)) with 0 by lia.
    rewrite Z.pow_0_r, !Z.mul_1_r.
    pose proof (pow2_max_pos (- (L - 52))) as HD.
    set (D := 2 ^ Z.max 0 (- (L - 52))) in *.
    replace (k * b * D) with (k * D * b) by ring.
    rewrite Z.mod_mul, Z.div_mul by lia.
    rewrite Z.mul_0_r. destruct (Z.ltb_spec 0 b); lia.
  - assert (L = 53) as HL' by lia. rewrite HL' in HL |- *.
    unfold pow2_le_quotient in HL.
    replace (Z.max 0 (- (53))) with 0 in HL by lia.
    replace (Z.max 0 53) with 53 in HL by lia. rewrite Z.pow_0_r in HL.
    assert (k = 2 ^ 53) as -> by nia.
    replace (Z.max 0 (- (53 - 52))) with 0 by lia.
    replace (Z.max 0 (53 - 52)) with 1 by lia.
    rewrite Z.pow_0_r, Z.pow_1_r, !Z.mul_1_r.
    replace (2 ^ 53 * b) with (2 ^ 52 * (b * 2))
      by (change (2 ^ 53) with (2 ^ 52 * 2); ring).
    rewrite Z.mod_mul, Z.div_mul by lia.
    rewrite Z.mul_0_r. destruct (Z.ltb_spec 0 (b * 2)); [|lia].
    reflexivity.
Qed.

(** [a / b] is exact when the quotient is an integer of at most 53 bits. *)
Lemma truediv_exact k b :
  0 < b -> Z.abs k <= 2 ^ 53 ->
  exists x, truediv (k * b) b = Ok x ∧ (float_value x == inject_Z k)%Q.
Proof.
  intros Hb Hk. unfold truediv.
  destruct (Z.eqb_spec b 0) as [|_]; [lia|].
  destruct (Z.eqb_spec (k * b) 0) as [Hz|Ha0].
  { exists (mkFloat 0 0). split; [done|]. assert (k = 0) as -> by nia. done. }
  assert (k <> 0) as Hk0 by (intros ->; lia).
  rewrite Z.abs_mul, (Z.abs_eq b) by lia.
  pose proof (round_to_double_exact b (Z.abs k) Hb ltac:(lia)) as Hx.
  pose proof (round_to_double_spec (Z.abs k * b) b ltac:(nia) Hb) as Hs.
  cbv zeta in Hx, Hs.
  destruct (round_to_double (Z.abs k * b) b) as [m e].
  cbn [fmant fexp] in Hx, Hs. unfold scaled in Hs.
  destruct Hs as (_ & _ & Hm & _).
  pose proof (pow2_max_pos e) as HU. pose proof (pow2_max_pos (- e)) as HD.
  assert (2 ^ 53 < 2 ^ 1024) as Hbig by done.
  assert (too_large (mkFloat m e) = false) as ->.
  { unfold too_large. cbn [fmant fexp]. apply Z.leb_gt.
    destruct (Z.le_gt_cases e 0) as [He|He].
    - replace (Z.max 0 e) with 0 by lia. rewrite Z.pow_0_r. lia.
    - rewrite Hx. replace (Z.max 0 (- e)) with 0 by lia.
      rewrite Z.pow_0_r. lia. }
  eexists. split; [reflexivity|].
  unfold float_value, Qeq. cbn [fmant fexp Qnum Qden inject_Z].
  rewrite Z2Pos.id by lia. rewrite Z.sgn_mul.
  replace (Z.sgn b) with 1 by lia.
  replace (Z.sgn k * 1 * 1 * m * 2 ^ Z.max 0 e * 1)
    with (Z.sgn k * (m * 2 ^ Z.max 0 e)) by ring.
  rewrite Hx. pose proof (Z.sgn_abs k). nia.
Qed.

Lemma floor_log2_quotient_mono a a' b :
  0 < a <= a' -> 0 < b ->
  floor_log2_quotient a b <= floor_log2_quotient a' b.
Proof.
  intros [Ha Hle] Hb.
  destruct (floor_log2_quotient_spec a b Ha Hb) as (HL & _ & _).
  destruct (floor_log2_quotient_spec a' b ltac:(lia) Hb) as (_ & HL' & _).
  destruct (Z.le_gt_cases (floor_log2_quotient a b)
              (floor_log2_quotient a' b)) as [|Hgt]; [done|].
  exfalso. apply HL'.
  apply (pow2_le_quotient_antitone _ (floor_log2_quotient a b)); [done|lia|].
  unfold pow2_le_quotient in *.
  pose proof (pow2_max_pos (- floor_log2_quotient a b)). nia.
Qed.

(** Rounding keeps the order of two quotients by the same divisor. *)
Lemma round_to_double_mono a a' b :
  0 < a <= a' -> 0 < b ->
  fmant (round_to_double a b) * 2 ^ Z.max 0 (fexp (round_to_double a b))
  * 2 ^ Z.max 0 (- fexp (round_to_double a' b))
  <= fmant (round_to_double a' b)
     * 2 ^ Z.max 0 (fexp (round_to_double a' b))
     * 2 ^ Z.max 0 (- fexp (round_to_double a b)).
Proof.
  intros [Ha Hle] Hb. assert (0 < a') as Ha' by lia.
  pose proof (floor_log2_quotient_mono a a' b ltac:(lia) Hb) as HLL.
  pose proof (round_to_double_fexp a b) as He.
  pose proof (round_to_double_fexp a' b) as He'.
  set (e := fexp (round_to_double a b)) in *.
  set (e' := fexp (round_to_double a' b)) in *.
  assert (e <= e') as Hee by lia.
  pose proof (pow2_max_pos e) as HU. pose proof (pow2_max_pos (- e)) as HD.
  pose proof (pow2_max_pos e') as HU'.
  pose proof (pow2_max_pos (- e')) as HD'.
  destruct (Z.eq_dec e e') as [Heq|Hne].
  - (* the same exponent: the mantissas are ordered *)
    rewrite <- Heq in *. clear Heq HU' HD'.
    assert (fmant (round_to_double a b) <= fmant (round_to_double a' b));
      [|by do 2 (apply Z.mul_le_mono_nonneg_r; [lia|])].
    unfold round_to_double, scaled. cbn [fmant].
    rewrite <- He, <- He'.
    fold e. replace (fexp (round_to_double a' b)) with e by done.
    set (D := 2 ^ Z.max 0 (- e)) in *. set (U := 2 ^ Z.max 0 e) in *.
    assert (0 < b * U) as Hden by nia.
    assert (a * D <= a' * D) as Hnum by nia.
    pose proof (Z.div_mod (a * D) (b * U) ltac:(lia)) as Hdm.
    pose proof (Z.mod_pos_bound (a * D) (b * U) Hden) as Hr.
    pose proof (Z.div_mod (a' * D) (b * U) ltac:(lia)) as Hdm'.
    pose proof (Z.mod_pos_bound (a' * D) (b * U) Hden) as Hr'.
    pose proof (Z.div_le_mono _ _ (b * U) Hden Hnum) as Hq.
    set (q := a * D / (b * U)) in *. set (r := (a * D) mod (b * U)) in *.
    set (q' := a' * D / (b * U)) in *.
    set (r' := (a' * D) mod (b * U)) in *.
    set (den := b * U) in *.
    destruct (Z.eq_dec q q') as [Hqq|Hqq].
    + rewrite <- Hqq in *. assert (r <= r') by lia.
      destruct (Z.ltb_spec (2 * r) den), (Z.ltb_spec (2 * r') den),
        (Z.ltb_spec den (2 * r)), (Z.ltb_spec den (2 * r'));
        destruct (Z.even q); lia.
    + assert (q + 1 <= q') by lia.
      destruct (Z.ltb_spec (2 * r) den), (Z.ltb_spec (2 * r') den),
        (Z.ltb_spec den (2 * r)), (Z.ltb_spec den (2 * r'));
        destruct (Z.even q), (Z.even q'); lia.
  - (* a larger exponent: its mantissa has 53 bits *)
    pose proof (round_to_double_spec a b Ha Hb) as Hs. cbv zeta in Hs.
    unfold scaled in Hs. destruct Hs as (Hmin & _ & Hm & _).
    destruct (round_to_double_normal a' b Ha' Hb) as [Hsub|Hm'];
      [fold e e' in Hmin |- *; lia|].
    fold e e' in Hmin |- *.
    pose proof (pow2_shift e (e' - e) ltac:(lia)) as Hs.
    replace (e + (e' - e)) with e' in Hs by lia.
    assert (2 <= 2 ^ (e' - e)) as Hk.
    { change 2 with (2 ^ 1) at 1. apply Z.pow_le_mono_r; lia. }
    set (D := 2 ^ Z.max 0 (- e)) in *. set (U := 2 ^ Z.max 0 e) in *.
    set (D' := 2 ^ Z.max 0 (- e')) in *. set (U' := 2 ^ Z.max 0 e') in *.
    set (m := fmant (round_to_double a b)) in *.
    set (m' := fmant (round_to_double a' b)) in *.
    set (K := 2 ^ (e' - e)) in *.
    replace (m' * U' * D) with (m' * (U' * D)) by ring. rewrite Hs.
    assert (2 ^ 53 = 2 ^ 52 * 2) as H53 by done.
    assert (0 < 2 ^ 52) as H52 by done.
    set (P52 := 2 ^ 52) in *. set (P53 := 2 ^ 53) in *.
    assert (m <= m' * K) by nia.
    assert (0 < U * D') by nia.
    replace (m' * (K * U * D')) with (m' * K * (U * D')) by ring.
    replace (m * U * D') with (m * (U * D')) by ring.
    apply Z.mul_le_mono_nonneg_r; lia.
Qed.

(** The form of a quotient by a positive divisor. *)
Lemma truediv_Ok_form a b x :
  0 < b -> a <> 0 -> truediv a b = Ok x ->
  x = mkFloat (Z.sgn a * fmant (round_to_double (Z.abs a) b))
              (fexp (round_to_double (Z.abs a) b))
  ∧ too_large (round_to_double (Z.abs a) b) = false.
Proof.
  intros Hb Ha. unfold truediv.
  destruct (Z.eqb_spec b 0) as [|_]; [lia|].
  destruct (Z.eqb_spec a 0) as [|_]; [done|].
  rewrite (Z.abs_eq b) by lia. replace (Z.sgn b) with 1 by lia.
  rewrite Z.mul_1_r.
  destruct (too_large _); [done|]. by intros [= <-].
Qed.

Lemma float_value_le x y :
  (float_value x <= float_value y)%Q
  <-> fmant x * 2 ^ Z.max 0 (fexp x) * 2 ^ Z.max 0 (- fexp y)
      <= fmant y * 2 ^ Z.max 0 (fexp y) * 2 ^ Z.max 0 (- fexp x).
Proof.
  unfold Qle, float_value. cbn [Qnum Qden].
  by rewrite !Z2Pos.id by apply pow2_max_pos.
Qed.

Lemma round_to_double_nonneg a b :
  0 < a -> 0 < b -> 0 <= fmant (round_to_double a b).
Proof.
  intros Ha Hb. pose proof (round_to_double_spec a b Ha Hb) as H.
  cbv zeta in H. unfold scaled in H. lia.
Qed.

(** Float division by a positive divisor keeps the order of dividends. *)
Lemma truediv_mono a a' b x x' :
  0 < b -> a <= a' ->
  truediv a b = Ok x -> truediv a' b = Ok x' ->
  (float_value x <= float_value x')%Q.
Proof.
  intros Hb Hle Hx Hx'. apply float_value_le.
  assert (forall c y, truediv c b = Ok y ->
            (0 <= c -> 0 <= fmant y) ∧ (c <= 0 -> fmant y <= 0)) as Hsign.
  { intros c y Hy. destruct (Z.eq_dec c 0) as [->|Hc].
    - unfold truediv in Hy. destruct (Z.eqb_spec b 0); [lia|].
      simpl in Hy. injection Hy as <-. simpl. lia.
    - destruct (truediv_Ok_form c b y Hb Hc Hy) as [-> _]. cbn [fmant].
      pose proof (round_to_double_nonneg (Z.abs c) b ltac:(lia) Hb).
      split; intros; [replace (Z.sgn c) with 1 by lia
                     |replace (Z.sgn c) with (-1) by lia]; lia. }
  pose proof (pow2_max_pos (fexp x)). pose proof (pow2_max_pos (- fexp x)).
  pose proof (pow2_max_pos (fexp x')). pose proof (pow2_max_pos (- fexp x')).
  destruct (Z.le_gt_cases a 0) as [Ha|Ha].
  - destruct (Z.le_gt_cases 0 a') as [Ha'|Ha'].
    + (* a <= 0 <= a' *)
      pose proof (proj2 (Hsign a x Hx) Ha).
      pose proof (proj1 (Hsign a' x' Hx') Ha').
      apply Z.le_trans with 0.
      * apply Z.mul_nonpos_nonneg; [|lia].
        apply Z.mul_nonpos_nonneg; lia.
      * apply Z.mul_nonneg_nonneg; [|lia].
        apply Z.mul_nonneg_nonneg; lia.
    + (* a <= a' < 0 *)
      destruct (truediv_Ok_form a b x Hb ltac:(lia) Hx) as [-> _].
      destruct (truediv_Ok_form a' b x' Hb ltac:(lia) Hx') as [-> _].
      cbn [fmant fexp] in *.
      pose proof (round_to_double_mono (Z.abs a') (Z.abs a) b
                    ltac:(lia) Hb) as Hm.
      replace (Z.sgn a) with (-1) by lia.
      replace (Z.sgn a') with (-1) by lia. lia.
  - (* 0 < a <= a' *)
    destruct (truediv_Ok_form a b x Hb ltac:(lia) Hx) as [-> _].
    destruct (truediv_Ok_form a' b x' Hb ltac:(lia) Hx') as [-> _].
    cbn [fmant fexp] in *.
    pose proof (round_to_double_mono (Z.abs a) (Z.abs a') b
                  ltac:(lia) Hb) as Hm.
    replace (Z.sgn a) with 1 by lia.
    replace (Z.sgn a') with 1 by lia. lia.
Qed.

(** A quotient between two integers of at most 53 bits does not overflow
    and is rounded to a double between them. *)
Lemma truediv_between lo hi t n :
  0 < n -> Z.abs lo <= 2 ^ 53 -> Z.abs hi <= 2 ^ 53 ->
  n * lo <= t <= n * hi ->
  exists x,
    truediv t n = Ok x
    ∧ (inject_Z lo <= float_value x <= inject_Z hi)%Q.
Proof.
  intros Hn Hlo Hhi [Hl Hh].
  destruct (truediv_exact lo n Hn Hlo) as (xl & Hxl & Hvl).
  destruct (truediv_exact hi n Hn Hhi) as (xh & Hxh & Hvh).
  assert (exists x, truediv t n = Ok x) as [x Hx].
  { destruct (truediv_cases t n ltac:(lia)) as [|Hov]; [done|]. exfalso.
    revert Hov. unfold truediv.
    destruct (Z.eqb_spec n 0) as [|_]; [lia|].
    destruct (Z.eqb_spec t 0) as [|Ht]; [done|].
    rewrite (Z.abs_eq n) by lia.
    set (K := Z.max (Z.abs lo) (Z.abs hi)).
    assert (0 < Z.abs t <= K * n) as Hbound by nia.
    assert (0 < K <= 2 ^ 53) as HK by nia.
    pose proof (round_to_double_mono (Z.abs t) (K * n) n Hbound Hn) as Hm.
    pose proof (round_to_double_exact n K Hn HK) as He. cbv zeta in He.
    pose proof (round_to_double_spec (Z.abs t) n ltac:(lia) Hn) as Hs.
    cbv zeta in Hs. unfold scaled in Hs. destruct Hs as (_ & _ & Hmt & _).
    destruct (round_to_double (Z.abs t) n) as [m e].
    destruct (round_to_double (K * n) n) as [mk ek].
    cbn [fmant fexp] in *.
    assert (too_large (mkFloat m e) = false) as ->; [|done].
    unfold too_large. cbn [fmant fexp]. apply Z.leb_gt.
    assert (2 ^ 53 < 2 ^ 1024) as Hbig by done.
    pose proof (pow2_max_pos (- ek)) as HDk.
    destruct (Z.le_gt_cases e 0) as [He0|He0].
    - replace (Z.max 0 e) with 0 by lia. rewrite Z.pow_0_r. lia.
    - replace (Z.max 0 (- e)) with 0 in Hm by lia.
      rewrite Z.pow_0_r, Z.mul_1_r in Hm. rewrite He in Hm.
      assert (m * 2 ^ Z.max 0 e <= K); [|lia].
      apply (Z.mul_le_mono_pos_r _ _ (2 ^ Z.max 0 (- ek))); lia. }
  exists x. split; [done|]. split.
  - rewrite <- Hvl. eapply truediv_mono; [exact Hn| |exact Hxl|exact Hx].
    lia.
  - rewrite <- Hvh. eapply truediv_mono; [exact Hn| |exact Hx|exact Hxh].
    lia.
Qed.

(** A quotient of at most an integer of 53 bits is rounded to at most that
    integer. *)
Lemma round_to_double_le_int a b K :
  0 < a <= K * b -> 0 < b -> 0 < K <= 2 ^ 53 ->
  too_large (round_to_double a b) = false
  ∧ fmant (round_to_double a b) * 2 ^ Z.max 0 (fexp (round_to_double a b))
    <= K * 2 ^ Z.max 0 (- fexp (round_to_double a b)).
Proof.
  intros Ha Hb HK.
  pose proof (round_to_double_mono a (K * b) b Ha Hb) as Hm.
  pose proof (round_to_double_exact b K Hb HK) as He. cbv zeta in He.
  pose proof (round_to_double_spec a b ltac:(lia) Hb) as Hs.
  cbv zeta in Hs. unfold scaled in Hs. destruct Hs as (_ & _ & Hmt & _).
  destruct (round_to_double a b) as [m e].
  destruct (round_to_double (K * b) b) as [mk ek].
  cbn [fmant fexp] in *.
  pose proof (pow2_max_pos (- ek)) as HDk.
  pose proof (pow2_max_pos (- e)) as HD.
  assert (m * 2 ^ Z.max 0 e <= K * 2 ^ Z.max 0 (- e)) as Hle.
  { apply (Z.mul_le_mono_pos_r _ _ (2 ^ Z.max 0 (- ek))); [lia|].
    rewrite He in Hm. lia. }
  split; [|exact Hle].
  unfold too_large. cbn [fmant fexp]. apply Z.leb_gt.
  assert (2 ^ 53 < 2 ^ 1024) as Hbig by done.
  destruct (Z.le_gt_cases e 0) as [He0|He0].
  - replace (Z.max 0 e) with 0 by lia. rewrite Z.pow_0_r. lia.
  - replace (Z.max 0 (- e)) with 0 in Hle by lia.
    rewrite Z.pow_0_r in Hle. lia.
Qed.

(** A rate between 0 and 1 gives a percentage between 0 and 100. *)
Lemma float_mul_percent x :
  (0 <= float_value x <= 1)%Q ->
  exists y,
    float_mul x (mkFloat 100 0) = Float y
    ∧ (0 <= float_value y <= 100)%Q.
Proof.
  unfold float_value at 1 2, Qle. cbn [Qnum Qden].
  pose proof (pow2_max_pos (fexp x)) as HU.
  pose proof (pow2_max_pos (- fexp x)) as HD.
  rewrite Z2Pos.id by done. intros [H0 H1].
  unfold float_mul. cbn [fmant fexp]. rewrite Z.add_0_r.
  destruct (Z.eqb_spec (fmant x * 100) 0) as [|Hm].
  { eexists. split; [reflexivity|]. split; vm_compute; discriminate. }
  assert (0 < fmant x) as Hpos by nia.
  rewrite (Z.abs_eq (fmant x * 100)) by lia.
  replace (Z.sgn (fmant x * 100)) with 1 by lia.
  destruct (round_to_double_le_int
              (fmant x * 100 * 2 ^ Z.max 0 (fexp x))
              (2 ^ Z.max 0 (- fexp x)) 100) as [-> Hle];
    [nia | done | done |].
  pose proof (round_to_double_nonneg
                (fmant x * 100 * 2 ^ Z.max 0 (fexp x))
                (2 ^ Z.max 0 (- fexp x)) ltac:(nia) HD) as Hnn.
  eexists. split; [reflexivity|].
  unfold float_value, Qle. cbn [Qnum Qden fmant fexp].
  rewrite Z2Pos.id by apply pow2_max_pos.
  destruct (round_to_double _ _) as [m e]. cbn [fmant fexp] in *.
  pose proof (pow2_max_pos e). lia.
Qed.

(** The rate 1 gives the percentage 100. *)
Lemma float_mul_percent_one x :
  (float_value x == 1)%Q ->
  exists y,
    float_mul x (mkFloat 100 0) = Float y ∧ (float_value y == 100)%Q.
Proof.
  unfold float_value at 1, Qeq. cbn [Qnum Qden].
  pose proof (pow2_max_pos (fexp x)) as HU.
  pose proof (pow2_max_pos (- fexp x)) as HD.
  rewrite Z2Pos.id by done. intros H1.
  unfold float_mul. cbn [fmant fexp]. rewrite Z.add_0_r.
  assert (0 < fmant x) as Hpos by nia.
  destruct (Z.eqb_spec (fmant x * 100) 0) as [|_]; [lia|].
  rewrite (Z.abs_eq (fmant x * 100)) by lia.
  replace (Z.sgn (fmant x * 100)) with 1 by lia.
  replace (fmant x * 100 * 2 ^ Z.max 0 (fexp x))
    with (100 * 2 ^ Z.max 0 (- fexp x)) by lia.
  destruct (round_to_double_le_int
              (100 * 2 ^ Z.max 0 (- fexp x))
              (2 ^ Z.max 0 (- fexp x)) 100) as [-> _];
    [lia | done | done |].
  pose proof (round_to_double_exact (2 ^ Z.max 0 (- fexp x)) 100 HD
                ltac:(done)) as He.
  cbv zeta in He.
  eexists. split; [reflexivity|].
  unfold float_value, Qeq. cbn [Qnum Qden fmant fexp].
  rewrite Z2Pos.id by apply pow2_max_pos.
  destruct (round_to_double _ _) as [m e]. cbn [fmant fexp] in *. lia.
Qed.

#[global] Arguments int_truediv : simpl never.

(** ** Construction *)


(** ** min and max *)

Lemma first_best_from_bound {A} better (key : A -> Z) xs :
  forall best_i best_v i,
    (best_i < i)%nat ->
    (first_best_from better key best_i best_v i xs < i + length xs)%nat.
Proof.
  induction xs as [|x xs IH]; intros best_i best_v i Hlt; simpl.
  - lia.
  - destruct (better (key x) best_v).
    + specialize (IH i (key x) (S i)). lia.
    + specialize (IH best_i best_v (S i)). lia.
Qed.

Lemma py_min_index_bound {A} (key : A -> Z) xs i :
  py_min_index key xs = Some i -> (i < length xs)%nat.
Proof.
  destruct xs as [|x xs]; simpl; [discriminate|].
  intros [= <-].
  pose proof (first_best_from_bound Z.ltb key xs 0%nat (key x) 1%nat). lia.
Qed.

Lemma py_max_index_bound {A} (key : A -> Z) xs i :
  py_max_index key xs = Some i -> (i < length xs)%nat.
Proof.
  destruct xs as [|x xs]; simpl; [discriminate|].
  intros [= <-].
  pose proof (first_best_from_bound Z.gtb key xs 0%nat (key x) 1%nat). lia.
Qed.

Lemma py_min_index_nonempty {A} (key : A -> Z) xs :
  xs <> [] -> is_Some (py_min_index key xs).
Proof. destruct xs; [congruence|]. simpl. eauto. Qed.

Lemma py_max_index_nonempty {A} (key : A -> Z) xs :
  xs <> [] -> is_Some (py_max_index key xs).
Proof. destruct xs; [congruence|]. simpl. eauto. Qed.

(** ** CacheSet *)

Lemma touch_first_tags tag bs w bs' w' :
  CacheSet.touch_first tag bs w = Some (bs', w') ->
  CacheBlock.tag <$> bs' = CacheBlock.tag <$> bs.
Proof.
  revert bs'. induction bs as [|b bs IH]; intros bs'; simpl; [discriminate|].
  destruct (CacheBlock.tag b =? tag).
  - intros [= <- <-]. reflexivity.
  - destruct (CacheSet.touch_first tag bs w) as [[bs'' w'']|]; [|discriminate].
    intros [= <- <-]. simpl. f_equal. by apply IH.
Qed.

Lemma touch_first_insertion_times tag bs w bs' w' :
  CacheSet.touch_first tag bs w = Some (bs', w') ->
  CacheBlock.insertion_time <$> bs' = CacheBlock.insertion_time <$> bs.
Proof.
  revert bs'. induction bs as [|b bs IH]; intros bs'; simpl; [discriminate|].
  destruct (CacheBlock.tag b =? tag).
  - intros [= <- <-]. reflexivity.
  - destruct (CacheSet.touch_first tag bs w) as [[bs'' w'']|]; [|discriminate].
    intros [= <- <-]. simpl. f_equal. by apply IH.
Qed.

Lemma touch_first_None tag bs w :
  CacheSet.touch_first tag bs w = None <-> tag ∉ CacheBlock.tag <$> bs.
Proof.
  induction bs as [|b bs IH]; simpl.
  - split; [intros _; apply not_elem_of_nil | done].
  - rewrite not_elem_of_cons. destruct (Z.eqb_spec (CacheBlock.tag b) tag) as [->|Hne].
    + split; [discriminate | intros [? _]; congruence].
    + destruct (CacheSet.touch_first tag bs w) as [[bs'' w'']|].
      * split; [discriminate|]. intros [_ H]. by apply IH in H.
      * split; [|done]. intros _. split; [congruence|]. by apply IH.
Qed.

Lemma set_access_tags s tag w :
  CacheSet.tags (CacheSet.access s tag w).1.1 = CacheSet.tags s.
Proof.
  unfold CacheSet.access, CacheSet.tags.
  destruct (CacheSet.touch_first tag (CacheSet.blocks s) w) as [[bs w']|] eqn:E;
    simpl; [|done].
  by eapply touch_first_tags.
Qed.

Lemma set_access_capacity s tag w :
  CacheSet.capacity (CacheSet.access s tag w).1.1 = CacheSet.capacity s.
Proof.
  unfold CacheSet.access.
  by destruct (CacheSet.touch_first tag (CacheSet.blocks s) w) as [[bs w']|].
Qed.

Lemma set_access_policy s tag w :
  CacheSet.policy (CacheSet.access s tag w).1.1 = CacheSet.policy s.
Proof.
  unfold CacheSet.access.
  by destruct (CacheSet.touch_first tag (CacheSet.blocks s) w) as [[bs w']|].
Qed.

Lemma set_access_hit_iff s tag w :
  (CacheSet.access s tag w).1.2 = true <-> tag ∈ CacheSet.tags s.
Proof.
  unfold CacheSet.access, CacheSet.tags.
  destruct (CacheSet.touch_first tag (CacheSet.blocks s) w) as [[bs w']|] eqn:E;
    simpl.
  - split; [|done]. intros _.
    destruct (decide (tag ∈ CacheBlock.tag <$> CacheSet.blocks s)) as [|Hn];
      [done|].
    apply (touch_first_None tag _ w) in Hn. congruence.
  - apply touch_first_None in E. split; [discriminate | contradiction].
Qed.

Lemma known_policy_cases p :
  known_policy p ->
  p = "LRU" ∨ p = "MRU" ∨ p = "LFU" ∨ p = "FIFO" ∨ p = "Random".
Proof.
  unfold known_policy. rewrite !elem_of_cons, elem_of_nil. tauto.
Qed.

Lemma choose_victim_known s w :
  known_policy (CacheSet.policy s) ->
  CacheSet.blocks s <> [] ->
  exists i w', CacheSet.choose_victim s w = (Some i, w')
            ∧ (i < length (CacheSet.blocks s))%nat.
Proof.
  intros Hp Hne. destruct s as [cap bs p]; simpl in *.
  unfold CacheSet.choose_victim; simpl.
  apply known_policy_cases in Hp as [->|[->|[->|[->| ->]]]]; simpl.
  - destruct (py_min_index_nonempty CacheBlock.last_access bs Hne) as [i Hi].
    rewrite Hi. eauto using py_min_index_bound.
  - destruct (py_max_index_nonempty CacheBlock.last_access bs Hne) as [i Hi].
    rewrite Hi. eauto using py_max_index_bound.
  - destruct (py_min_index_nonempty CacheBlock.access_count bs Hne) as [i Hi].
    rewrite Hi. eauto using py_min_index_bound.
  - destruct (py_min_index_nonempty CacheBlock.insertion_time bs Hne) as [i Hi].
    rewrite Hi. eauto using py_min_index_bound.
  - eexists _, _. split; [reflexivity|].
    apply Nat.mod_upper_bound. destruct bs; [congruence | simpl; lia].
Qed.

Lemma replace_capacity s w :
  CacheSet.capacity (CacheSet.replace s w).1 = CacheSet.capacity s.
Proof.
  unfold CacheSet.replace. destruct (CacheSet.blocks s); [done|].
  by destruct (CacheSet.choose_victim s w) as [[i|] w'].
Qed.

Lemma replace_policy s w :
  CacheSet.policy (CacheSet.replace s w).1 = CacheSet.policy s.
Proof.
  unfold CacheSet.replace. destruct (CacheSet.blocks s); [done|].
  by destruct (CacheSet.choose_victim s w) as [[i|] w'].
Qed.

Lemma replace_tags_sublist s w :
  CacheSet.tags (CacheSet.replace s w).1 `sublist_of` CacheSet.tags s.
Proof.
  unfold CacheSet.replace, CacheSet.tags.
  destruct (CacheSet.blocks s) as [|b bs] eqn:E; [simpl; by rewrite E|].
  destruct (CacheSet.choose_victim s w) as [[i|] w']; simpl.
  - rewrite list_fmap_delete. apply sublist_delete.
  - by rewrite E.
Qed.

Lemma replace_length_known s w :
  known_policy (CacheSet.policy s) ->
  CacheSet.blocks s <> [] ->
  S (length (CacheSet.blocks (CacheSet.replace s w).1))
  = length (CacheSet.blocks s).
Proof.
  intros Hp Hne.
  destruct (choose_victim_known s w Hp Hne) as (i & w' & Hv & Hi).
  unfold CacheSet.replace.
  destruct (CacheSet.blocks s) as [|b bs] eqn:E; [congruence|].
  rewrite Hv. simpl.
  rewrite (length_delete (b :: bs) i) by (by apply lookup_lt_is_Some_2).
  simpl. lia.
Qed.

Lemma set_insert_capacity s tag w :
  CacheSet.capacity (CacheSet.insert s tag w).1 = CacheSet.capacity s.
Proof.
  unfold CacheSet.insert.
  destruct (CacheSet.touch_first tag (CacheSet.blocks s) w) as [[bs w']|];
    [done|].
  destruct (Z.of_nat (length (CacheSet.blocks s)) >=? CacheSet.capacity s).
  - pose proof (replace_capacity s w) as H.
    destruct (CacheSet.replace s w) as [s1 w1]. simpl in *.
    by destruct (CacheBlock.init tag w1).
  - by destruct (CacheBlock.init tag w).
Qed.

Lemma set_insert_policy s tag w :
  CacheSet.policy (CacheSet.insert s tag w).1 = CacheSet.policy s.
Proof.
  unfold CacheSet.insert.
  destruct (CacheSet.touch_first tag (CacheSet.blocks s) w) as [[bs w']|];
    [done|].
  destruct (Z.of_nat (length (CacheSet.blocks s)) >=? CacheSet.capacity s).
  - pose proof (replace_policy s w) as H.
    destruct (CacheSet.replace s w) as [s1 w1]. simpl in *.
    by destruct (CacheBlock.init tag w1).
  - by destruct (CacheBlock.init tag w).
Qed.

(** After [insert(tag)] the tag is resident, whatever the capacity and
    the policy: the new block is appended after the eviction. *)
Lemma set_insert_resident s tag w :
  tag ∈ CacheSet.tags (CacheSet.insert s tag w).1.
Proof.
  unfold CacheSet.insert, CacheSet.tags.
  destruct (CacheSet.touch_first tag (CacheSet.blocks s) w) as [[bs w']|] eqn:E.
  - simpl. rewrite (touch_first_tags _ _ _ _ _ E).
    destruct (decide (tag ∈ CacheBlock.tag <$> CacheSet.blocks s)) as [|Hn];
      [done|].
    apply (touch_first_None tag _ w) in Hn. congruence.
  - destruct (if Z.of_nat (length (CacheSet.blocks s)) >=? CacheSet.capacity s
              then CacheSet.replace s w else (s, w)) as [s1 w1].
    unfold CacheBlock.init, time_time. simpl.
    rewrite fmap_app, elem_of_app. right. simpl. apply list_elem_of_singleton.
    reflexivity.
Qed.

Lemma set_insert_inv s tag w :
  0 < CacheSet.capacity s ->
  known_policy (CacheSet.policy s) ->
  set_inv s ->
  set_inv (CacheSet.insert s tag w).1.
Proof.
  intros Hcap Hp [Hlen Hnd]. unfold set_inv, CacheSet.insert, CacheSet.tags in *.
  destruct (CacheSet.touch_first tag (CacheSet.blocks s) w) as [[bs w']|] eqn:E.
  - simpl. pose proof (touch_first_tags _ _ _ _ _ E) as Ht.
    split; [|by rewrite Ht].
    apply (f_equal length) in Ht. rewrite !length_fmap in Ht. lia.
  - apply touch_first_None in E.
    destruct (Z.geb_spec (Z.of_nat (length (CacheSet.blocks s)))
                (CacheSet.capacity s)) as [Hfull|Hroom].
    + assert (CacheSet.blocks s <> []) as Hne.
      { intros Hnil. rewrite Hnil in Hfull. simpl in Hfull. lia. }
      pose proof (replace_length_known s w Hp Hne) as Hl.
      pose proof (replace_tags_sublist s w) as Hsub.
      pose proof (replace_capacity s w) as Hc.
      destruct (CacheSet.replace s w) as [s1 w1]. simpl in *.
      unfold CacheBlock.init, time_time, CacheSet.tags in *. simpl.
      rewrite length_app, fmap_app. simpl. split; [lia|].
      apply NoDup_app. split_and!.
      * by eapply sublist_NoDup.
      * intros x Hx ->%list_elem_of_singleton. apply E.
        by eapply elem_of_sublist.
      * apply NoDup_singleton.
    + unfold CacheBlock.init, time_time. simpl.
      rewrite length_app, fmap_app. simpl. split; [lia|].
      apply NoDup_app. split_and!; [done| |apply NoDup_singleton].
      intros x Hx ->%list_elem_of_singleton. by apply E.
Qed.

Lemma run_set_op_inv s op w :
  0 < CacheSet.capacity s ->
  known_policy (CacheSet.policy s) ->
  set_inv s ->
  set_inv (run_set_op s op w).1
  ∧ CacheSet.capacity (run_set_op s op w).1 = CacheSet.capacity s
  ∧ CacheSet.policy (run_set_op s op w).1 = CacheSet.policy s.
Proof.
  intros Hcap Hp Hinv. destruct op as [tag|tag]; simpl.
  - pose proof (set_access_tags s tag w) as Ht.
    pose proof (set_access_capacity s tag w) as Hc.
    pose proof (set_access_policy s tag w) as Hpol.
    destruct (CacheSet.access s tag w) as [[s' hit] w']. simpl in *.
    split_and!; [|done|done].
    destruct Hinv as [Hlen Hnd]. unfold set_inv. rewrite Hc, Ht.
    split; [|done].
    unfold CacheSet.tags in Ht. apply (f_equal length) in Ht.
    rewrite !length_fmap in Ht. lia.
  - split_and!.
    + by apply set_insert_inv.
    + apply set_insert_capacity.
    + apply set_insert_policy.
Qed.

Lemma set_access_insertion_times s tag w :
  CacheBlock.insertion_time <$> CacheSet.blocks (CacheSet.access s tag w).1.1
  = CacheBlock.insertion_time <$> CacheSet.blocks s.
Proof.
  unfold CacheSet.access.
  destruct (CacheSet.touch_first tag (CacheSet.blocks s) w) as [[bs w']|] eqn:E;
    simpl; [|done].
  by eapply touch_first_insertion_times.
Qed.

Lemma set_states_inv_from ops :
  forall s w,
    0 < CacheSet.capacity s ->
    known_policy (CacheSet.policy s) ->
    set_inv s ->
    Forall (fun s' => Z.of_nat (length (CacheSet.blocks s'))
                        <= CacheSet.capacity s
                      ∧ NoDup (CacheSet.tags s'))
           (set_states s ops w).
Proof.
  induction ops as [|op ops IH]; intros s w Hcap Hp Hinv; simpl.
  - constructor.
  - destruct (run_set_op_inv s op w Hcap Hp Hinv) as (Hi & Hc & Hpol).
    destruct (run_set_op s op w) as [s' w']. simpl in *.
    constructor.
    + destruct Hi as [Hlen Hnd]. split; [lia | done].
    + rewrite <- Hc. apply IH; [lia | by rewrite Hpol | done].
Qed.

(** ** CacheLevel *)

Lemma same_shape_refl l : same_shape l l.
Proof. by repeat split. Qed.

Lemma same_shape_trans l1 l2 l3 :
  same_shape l1 l2 -> same_shape l2 l3 -> same_shape l1 l3.
Proof.
  unfold same_shape. intros (?&?&?&?&?&?&?) (?&?&?&?&?&?&?).
  split_and!; congruence.
Qed.

Lemma get_index_and_tag_shape l l' address :
  same_shape l l' ->
  CacheLevel.get_index_and_tag l' address
  = CacheLevel.get_index_and_tag l address.
Proof.
  intros (_&_&Hb&_&_&_&Hn). unfold CacheLevel.get_index_and_tag.
  by rewrite Hb, Hn.
Qed.

Lemma get_index_and_tag_total l address :
  divides_safely l ->
  CacheLevel.get_index_and_tag l address
  = Ok ((address / CacheLevel.block_size l) mod CacheLevel.num_sets l,
        (address / CacheLevel.block_size l) / CacheLevel.num_sets l).
Proof.
  intros [Hb Hn]. unfold CacheLevel.get_index_and_tag, floordiv, pymod.
  apply Z.eqb_neq in Hb, Hn. rewrite Hb. simpl. rewrite Hn. simpl.
  reflexivity.
Qed.

Lemma get_index_and_tag_Ok l address index tag :
  CacheLevel.get_index_and_tag l address = Ok (index, tag) ->
  divides_safely l.
Proof.
  unfold CacheLevel.get_index_and_tag, floordiv, pymod, divides_safely.
  destruct (Z.eqb_spec (CacheLevel.block_size l) 0); simpl; [discriminate|].
  destruct (Z.eqb_spec (CacheLevel.num_sets l) 0); simpl; [discriminate|].
  done.
Qed.

Lemma level_access_unfold l address w index tag :
  CacheLevel.get_index_and_tag l address = Ok (index, tag) ->
  CacheLevel.access l address w =
    match CacheLevel.sets l !! index with
    | None => Ok (l, false, w)
    | Some s =>
        let r := CacheSet.access s tag w in
        let l' := CacheLevel.with_sets l (<[index := r.1.1]> (CacheLevel.sets l)) in
        Ok (if r.1.2 then CacheLevel.add_hit l' else CacheLevel.add_miss l',
            r.1.2, r.2)
    end.
Proof.
  intros Hd. unfold CacheLevel.access. rewrite Hd. simpl.
  destruct (CacheLevel.sets l !! index) as [s|]; [|done].
  destruct (CacheSet.access s tag w) as [[s' found] w']. simpl.
  by destruct found.
Qed.

Lemma level_insert_unfold l address w index tag :
  CacheLevel.get_index_and_tag l address = Ok (index, tag) ->
  CacheLevel.insert l address w =
    let s := match CacheLevel.sets l !! index with
             | None => CacheSet.init (CacheLevel.associativity l)
                         (CacheLevel.policy l)
             | Some s => s
             end in
    let r := CacheSet.insert s tag w in
    Ok (CacheLevel.with_sets l (<[index := r.1]> (CacheLevel.sets l)), r.2).
Proof.
  intros Hd. unfold CacheLevel.insert. rewrite Hd. simpl.
  by destruct (CacheSet.insert _ tag w) as [s' w'].
Qed.

Lemma level_access_Ok_decomposes l address w r :
  CacheLevel.access l address w = Ok r ->
  exists index tag, CacheLevel.get_index_and_tag l address = Ok (index, tag).
Proof.
  unfold CacheLevel.access.
  destruct (CacheLevel.get_index_and_tag l address) as [[index tag]|e];
    [eauto | discriminate].
Qed.

Lemma level_insert_Ok_decomposes l address w r :
  CacheLevel.insert l address w = Ok r ->
  exists index tag, CacheLevel.get_index_and_tag l address = Ok (index, tag).
Proof.
  unfold CacheLevel.insert.
  destruct (CacheLevel.get_index_and_tag l address) as [[index tag]|e];
    [eauto | discriminate].
Qed.

Lemma level_access_total l address w :
  divides_safely l -> exists r, CacheLevel.access l address w = Ok r.
Proof.
  intros Hs. rewrite (level_access_unfold _ _ _ _ _
                        (get_index_and_tag_total l address Hs)).
  destruct (CacheLevel.sets l !! _); eauto.
Qed.

Lemma level_insert_total l address w :
  divides_safely l -> exists r, CacheLevel.insert l address w = Ok r.
Proof.
  intros Hs. rewrite (level_insert_unfold _ _ _ _ _
                        (get_index_and_tag_total l address Hs)).
  eauto.
Qed.

Lemma level_access_shape l address w l' hit w' :
  CacheLevel.access l address w = Ok (l', hit, w') -> same_shape l l'.
Proof.
  intros H. destruct (level_access_Ok_decomposes _ _ _ _ H) as (i & t & Hd).
  rewrite (level_access_unfold _ _ _ _ _ Hd) in H.
  destruct (CacheLevel.sets l !! i) as [s|].
  - simpl in H. injection H as <- _ _.
    destruct (CacheSet.access s t w).1.2; by repeat split.
  - injection H as <- _ _. apply same_shape_refl.
Qed.

Lemma level_insert_shape l address w l' w' :
  CacheLevel.insert l address w = Ok (l', w') -> same_shape l l'.
Proof.
  intros H. destruct (level_insert_Ok_decomposes _ _ _ _ H) as (i & t & Hd).
  rewrite (level_insert_unfold _ _ _ _ _ Hd) in H. simpl in H.
  injection H as <- _. by repeat split.
Qed.

Lemma level_insert_counters l address w l' w' :
  CacheLevel.insert l address w = Ok (l', w') ->
  CacheLevel.hits l' = CacheLevel.hits l
  ∧ CacheLevel.misses l' = CacheLevel.misses l.
Proof.
  intros H. destruct (level_insert_Ok_decomposes _ _ _ _ H) as (i & t & Hd).
  rewrite (level_insert_unfold _ _ _ _ _ Hd) in H. simpl in H.
  injection H as <- _. done.
Qed.

(** A probe changes no set's tags: it creates no block and removes none. *)
Lemma level_access_contents l address w l' hit w' :
  CacheLevel.access l address w = Ok (l', hit, w') ->
  CacheLevel.contents l' = CacheLevel.contents l.
Proof.
  intros H. destruct (level_access_Ok_decomposes _ _ _ _ H) as (i & t & Hd).
  rewrite (level_access_unfold _ _ _ _ _ Hd) in H.
  destruct (CacheLevel.sets l !! i) as [s|] eqn:Hs.
  - simpl in H. injection H as <- _ _.
    assert (CacheLevel.contents
              (CacheLevel.with_sets l
                 (<[i := (CacheSet.access s t w).1.1]> (CacheLevel.sets l)))
            = CacheLevel.contents l) as Hc.
    { unfold CacheLevel.contents. simpl.
      rewrite fmap_insert, set_access_tags.
      apply insert_id. by rewrite lookup_fmap, Hs. }
    by destruct (CacheSet.access s t w).1.2.
  - by injection H as <- _ _.
Qed.

(** What a probe does to the counters, by the three ways it can end. *)
Lemma level_access_counters l address w l' hit w' index tag :
  CacheLevel.access l address w = Ok (l', hit, w') ->
  CacheLevel.get_index_and_tag l address = Ok (index, tag) ->
  match CacheLevel.sets l !! index with
  | None => l' = l ∧ hit = false ∧ w' = w
  | Some s =>
      if hit
      then CacheLevel.hits l' = CacheLevel.hits l + 1
           ∧ CacheLevel.misses l' = CacheLevel.misses l
      else CacheLevel.hits l' = CacheLevel.hits l
           ∧ CacheLevel.misses l' = CacheLevel.misses l + 1
  end.
Proof.
  intros H Hd. rewrite (level_access_unfold _ _ _ _ _ Hd) in H.
  destruct (CacheLevel.sets l !! index) as [s|].
  - simpl in H. injection H as <- <- _.
    by destruct (CacheSet.access s tag w).1.2.
  - by injection H as <- <- <-.
Qed.

Lemma level_insert_then_probe_hits l address w l' w' :
  CacheLevel.insert l address w = Ok (l', w') -> probe_hits l' address.
Proof.
  intros H w0.
  pose proof (level_insert_shape _ _ _ _ _ H) as Hshape.
  destruct (level_insert_Ok_decomposes _ _ _ _ H) as (i & t & Hd).
  rewrite (level_insert_unfold _ _ _ _ _ Hd) in H. simpl in H.
  injection H as <- _.
  rewrite <- (get_index_and_tag_shape _ _ _ Hshape) in Hd.
  rewrite (level_access_unfold _ _ _ _ _ Hd). simpl.
  rewrite lookup_insert_eq. simpl.
  match goal with |- context [CacheSet.access ?s t w0] =>
    pose proof (proj2 (set_access_hit_iff s t w0)) as Hhit end.
  rewrite Hhit by apply set_insert_resident.
  eauto.
Qed.

Lemma divides_safely_shape l l' :
  same_shape l l' -> divides_safely l -> divides_safely l'.
Proof.
  intros (_&_&Hb&_&_&_&Hn) [? ?]. unfold divides_safely. by rewrite Hb, Hn.
Qed.

Lemma level_access_counts_reached l address w l' hit w' :
  CacheLevel.access l address w = Ok (l', hit, w') ->
  CacheLevel.hits l' + CacheLevel.misses l'
  = CacheLevel.hits l + CacheLevel.misses l
    + (if reaches_set l address then 1 else 0).
Proof.
  intros H. destruct (level_access_Ok_decomposes _ _ _ _ H) as (i & t & Hd).
  pose proof (level_access_counters _ _ _ _ _ _ _ _ H Hd) as Hc.
  unfold reaches_set. rewrite Hd.
  destruct (CacheLevel.sets l !! i) as [s|].
  - rewrite bool_decide_eq_true_2 by eauto. destruct hit; lia.
  - rewrite bool_decide_eq_false_2 by (by intros [? ?]).
    destruct Hc as (-> & _ & _). lia.
Qed.

Lemma run_level_ops_counters ops :
  forall l w,
    divides_safely l ->
    exists l' n w',
      run_level_ops l ops w = Ok (l', n, w')
      ∧ CacheLevel.hits l' + CacheLevel.misses l'
        = CacheLevel.hits l + CacheLevel.misses l + Z.of_nat n.
Proof.
  induction ops as [|[address|address] ops IH]; intros l w Hs; simpl.
  - exists l, 0%nat, w. split; [done | simpl; lia].
  - destruct (level_access_total l address w Hs) as [[[l1 hit] w1] Ha].
    rewrite Ha. simpl.
    pose proof (level_access_counts_reached _ _ _ _ _ _ Ha) as Hc.
    pose proof (level_access_shape _ _ _ _ _ _ Ha) as Hshape.
    destruct (IH l1 w1 (divides_safely_shape _ _ Hshape Hs))
      as (l2 & n & w2 & Hrun & Hsum).
    rewrite Hrun. simpl. eexists _, _, _. split; [reflexivity|].
    destruct (reaches_set l address); lia.
  - destruct (level_insert_total l address w Hs) as [[l1 w1] Hi].
    rewrite Hi. simpl.
    pose proof (level_insert_counters _ _ _ _ _ Hi) as [Hh Hm].
    pose proof (level_insert_shape _ _ _ _ _ Hi) as Hshape.
    destruct (IH l1 w1 (divides_safely_shape _ _ Hshape Hs))
      as (l2 & n & w2 & Hrun & Hsum).
    exists l2, n, w2. split; [done | lia].
Qed.

(** ** MemoryHierarchy *)

Lemma insert_all_Forall2 ls :
  forall address w ls' w',
    MemoryHierarchy.insert_all ls address w = Ok (ls', w') ->
    Forall2 (fun l l' => exists wa wb,
               CacheLevel.insert l address wa = Ok (l', wb)) ls ls'.
Proof.
  induction ls as [|l ls IH]; intros address w ls' w'; simpl.
  - intros [= <- <-]. constructor.
  - destruct (CacheLevel.insert l address w) as [[l1 w1]|e] eqn:Hi;
      simpl; [|discriminate].
    destruct (MemoryHierarchy.insert_all ls address w1) as [[ls1 w2]|e] eqn:Hr;
      simpl; [|discriminate].
    intros [= <- <-]. constructor; eauto.
Qed.

Lemma insert_all_total ls :
  forall address w,
    Forall divides_safely ls ->
    exists r, MemoryHierarchy.insert_all ls address w = Ok r.
Proof.
  induction ls as [|l ls IH]; intros address w Hs; simpl; [eauto|].
  apply Forall_cons in Hs as [Hl Hls].
  destruct (level_insert_total l address w Hl) as [[l1 w1] ->]. simpl.
  destruct (IH address w1 Hls) as [[ls1 w2] ->]. simpl. eauto.
Qed.

Lemma probe_levels_NoHit rest :
  forall done total address w ls' total' w',
    MemoryHierarchy.probe_levels done rest total address w
    = Ok (ls', total', MemoryHierarchy.NoHit, w') ->
    exists rest',
      ls' = done ++ rest'
      ∧ Forall2 (fun l l' => exists wa wb,
                   CacheLevel.access l address wa = Ok (l', false, wb))
                rest rest'.
Proof.
  induction rest as [|l rest IH]; intros done total address w ls' total' w';
    simpl.
  - intros [= <- _ _]. exists []. split; [by rewrite app_nil_r | constructor].
  - destruct (CacheLevel.access l address w) as [[[l1 hit] w1]|e] eqn:Ha;
      simpl; [|discriminate].
    destruct hit.
    + destruct (MemoryHierarchy.insert_all done address w1) as [[ws w2]|e];
        simpl; discriminate.
    + intros H. apply IH in H as (rest' & -> & HF).
      exists (l1 :: rest'). split; [by rewrite <- app_assoc|].
      constructor; eauto.
Qed.

Lemma probe_levels_HitAt rest :
  forall done total address w ls' total' i name w',
    MemoryHierarchy.probe_levels done rest total address w
    = Ok (ls', total', MemoryHierarchy.HitAt i name, w') ->
    exists pre pre' li li' post warmed wa wb,
      rest = pre ++ li :: post
      ∧ i = (length done + length pre)%nat
      ∧ Forall2 (fun l l' => exists wa wb,
                   CacheLevel.access l address wa = Ok (l', false, wb))
                pre pre'
      ∧ CacheLevel.access li address wa = Ok (li', true, wb)
      ∧ name = CacheLevel.name li'
      ∧ MemoryHierarchy.insert_all (done ++ pre') address wb
        = Ok (warmed, w')
      ∧ ls' = warmed ++ li' :: post.
Proof.
  induction rest as [|l rest IH];
    intros done total address w ls' total' i name w'; simpl.
  - discriminate.
  - destruct (CacheLevel.access l address w) as [[[l1 hit] w1]|e] eqn:Ha;
      simpl; [|discriminate].
    destruct hit.
    + destruct (MemoryHierarchy.insert_all done address w1) as [[ws w2]|e]
        eqn:Hw; simpl; [|discriminate].
      intros [= <- _ <- <- <-].
      exists [], [], l, l1, rest, ws, w, w1.
      rewrite app_nil_r. simpl. split_and!; done.
    + intros H.
      apply IH in H
        as (pre & pre' & li & li' & post & warmed & wa & wb
            & -> & -> & HF & Hhit & -> & Hw & ->).
      exists (l :: pre), (l1 :: pre'), li, li', post, warmed, wa, wb.
      rewrite <- app_assoc in Hw. rewrite length_app. simpl.
      split_and!; try done; [lia | constructor; eauto].
Qed.

Lemma probe_levels_total rest :
  forall done total address w,
    Forall divides_safely done ->
    Forall divides_safely rest ->
    exists r, MemoryHierarchy.probe_levels done rest total address w = Ok r.
Proof.
  induction rest as [|l rest IH]; intros done total address w Hd Hr; simpl;
    [eauto|].
  apply Forall_cons in Hr as [Hl Hr].
  destruct (level_access_total l address w Hl) as [[[l1 hit] w1] Ha].
  rewrite Ha. simpl. destruct hit.
  - destruct (insert_all_total done address w1 Hd) as [[ws w2] ->]. simpl.
    eauto.
  - apply IH; [|done]. apply Forall_app. split; [done|].
    apply Forall_singleton.
    eapply divides_safely_shape; [|exact Hl].
    by eapply level_access_shape.
Qed.

Lemma Forall2_insert_probe_hits address ls ls' :
  Forall2 (fun l l' => exists wa wb,
             CacheLevel.insert l address wa = Ok (l', wb)) ls ls' ->
  Forall (fun l' => probe_hits l' address) ls'.
Proof.
  induction 1 as [|l l' ls ls' (wa & wb & Hi) _ IH]; constructor; [|done].
  by eapply level_insert_then_probe_hits.
Qed.

Lemma Forall2_compose {A B C} (R : A -> B -> Prop) (S : B -> C -> Prop)
    xs ys zs :
  Forall2 R xs ys -> Forall2 S ys zs ->
  Forall2 (fun x z => exists y, R x y ∧ S y z) xs zs.
Proof.
  intros HR. revert zs. induction HR as [|x y xs ys Hxy _ IH]; intros zs HS.
  - inv HS. constructor.
  - inv HS. constructor; eauto.
Qed.

(** The constructor of a level, with the division set apart. *)
Lemma level_init_raises name size_bytes block_size associativity access_time
    policy :
  CacheLevel.init name size_bytes block_size associativity access_time policy
  = match int_truediv size_bytes
            (if associativity =? 0 then block_size
             else block_size * associativity) with
    | Ok q =>
        Ok (CacheLevel.mk name size_bytes block_size
              (if associativity =? 0 then q else associativity)
              access_time policy
              (if associativity =? 0 then 1 else Z.max 1 q)
              ∅ 0 0)
    | Raise e => Raise e
    end.
Proof.
  unfold CacheLevel.init.
  destruct (associativity =? 0); by destruct (int_truediv _ _).
Qed.

Lemma level_init_divisor block_size associativity :
  (if associativity =? 0 then block_size else block_size * associativity) = 0
  <-> block_size = 0.
Proof. destruct (Z.eqb_spec associativity 0); lia. Qed.

Lemma level_init_Ok name size_bytes block_size associativity access_time
    policy l :
  CacheLevel.init name size_bytes block_size associativity access_time policy
  = Ok l ->
  divides_safely l
  ∧ CacheLevel.hits l = 0 ∧ CacheLevel.misses l = 0
  ∧ CacheLevel.sets l = ∅.
Proof.
  rewrite level_init_raises. unfold divides_safely.
  destruct (int_truediv _ _) as [q|] eqn:E; [|discriminate].
  apply int_truediv_Ok_nonzero in E. rewrite level_init_divisor in E.
  intros [= <-]. simpl. split_and!; try done.
  destruct (associativity =? 0); lia.
Qed.

Lemma level_init_ZeroDivisionError name size_bytes block_size associativity
    access_time policy :
  CacheLevel.init name size_bytes block_size associativity access_time policy
  = Raise ZeroDivisionError
  <-> block_size = 0.
Proof.
  rewrite level_init_raises, <- (level_init_divisor block_size associativity).
  rewrite <- (int_truediv_ZeroDivisionError size_bytes).
  destruct (int_truediv _ _); [split; discriminate|].
  split; by intros [= ->].
Qed.

Lemma level_init_cases name size_bytes block_size associativity access_time
    policy :
  block_size <> 0 ->
  (exists l,
     CacheLevel.init name size_bytes block_size associativity access_time
       policy = Ok l)
  ∨ CacheLevel.init name size_bytes block_size associativity access_time
      policy = Raise OverflowError.
Proof.
  intros Hb. rewrite level_init_raises.
  rewrite <- (level_init_divisor block_size associativity) in Hb.
  destruct (int_truediv_cases size_bytes _ Hb) as [[q ->]| ->]; eauto.
Qed.

Lemma level_init_in_range name size_bytes block_size associativity access_time
    policy :
  block_size <> 0 -> Z.abs size_bytes < 2 ^ 1023 ->
  exists l,
    CacheLevel.init name size_bytes block_size associativity access_time
      policy = Ok l.
Proof.
  intros Hb Hs. rewrite level_init_raises.
  rewrite <- (level_init_divisor block_size associativity) in Hb.
  destruct (int_truediv_in_range size_bytes _ Hb Hs) as [q ->]. eauto.
Qed.

Ltac level_is_safe :=
  split; simpl; [done | repeat case_match; lia].

(** Every division of the hierarchy's constructor, taken in turn. *)
Ltac each_level_division :=
  repeat match goal with
         | |- context [int_truediv ?a ?b] =>
             let q := fresh "q" in
             destruct (int_truediv a b) as [q|]; simpl; [|discriminate]
         end.

Lemma hierarchy_init_block_size c h :
  MemoryHierarchy.init c = Ok h -> MemoryHierarchy.block_size c <> 0.
Proof.
  unfold MemoryHierarchy.init. rewrite !level_init_raises.
  destruct (int_truediv (MemoryHierarchy.l1_size c) _) as [q|] eqn:E;
    [|discriminate].
  apply int_truediv_Ok_nonzero in E. rewrite level_init_divisor in E.
  done.
Qed.

Lemma hierarchy_init_Ok c h :
  MemoryHierarchy.init c = Ok h ->
  hierarchy_safe h
  ∧ CacheLevel.hits (MemoryHierarchy.disk_level h) = 0
  ∧ CacheLevel.misses (MemoryHierarchy.disk_level h) = 0.
Proof.
  intros Hinit. pose proof (hierarchy_init_block_size c h Hinit) as Hb.
  revert Hinit.
  unfold MemoryHierarchy.init. rewrite !level_init_raises.
  destruct (MemoryHierarchy.l2_enabled c), (MemoryHierarchy.l3_enabled c);
    simpl; each_level_division;
    intros [= <-]; unfold hierarchy_safe; simpl;
    (split_and!; [|level_is_safe|done|done]);
    repeat (apply Forall_cons_2; [level_is_safe|]);
    apply Forall_nil_2.
Qed.

Lemma bind_Raise_inv {A B} (c : result A) (k : A -> result B) e :
  c ≫= k = Raise e -> c = Raise e ∨ exists a, c = Ok a ∧ k a = Raise e.
Proof. destruct c as [a|e']; simpl; [eauto | intros [= ->]; eauto]. Qed.

Lemma hierarchy_init_raises c :
  MemoryHierarchy.init c = Raise ZeroDivisionError
  <-> MemoryHierarchy.block_size c = 0.
Proof.
  split.
  - destruct (Z.eq_dec (MemoryHierarchy.block_size c) 0) as [|Hb]; [done|].
    unfold MemoryHierarchy.init. intros H. exfalso.
    apply bind_Raise_inv in H as [H|(l1 & _ & H)];
      [by apply level_init_ZeroDivisionError in H|].
    apply bind_Raise_inv in H as [H|(ls2 & _ & H)].
    { destruct (MemoryHierarchy.l2_enabled c); [|done].
      apply bind_Raise_inv in H as [H|(l2 & _ & H)]; [|done].
      by apply level_init_ZeroDivisionError in H. }
    apply bind_Raise_inv in H as [H|(ls3 & _ & H)].
    { destruct (MemoryHierarchy.l3_enabled c); [|done].
      apply bind_Raise_inv in H as [H|(l3 & _ & H)]; [|done].
      by apply level_init_ZeroDivisionError in H. }
    apply bind_Raise_inv in H as [H|(ram & _ & H)];
      [by apply level_init_ZeroDivisionError in H|].
    apply bind_Raise_inv in H as [H|(disk & _ & H)]; [|done].
    by apply level_init_ZeroDivisionError in H.
  - intros Hb. unfold MemoryHierarchy.init.
    assert (CacheLevel.init "L1 Cache" (MemoryHierarchy.l1_size c)
              (MemoryHierarchy.block_size c) (MemoryHierarchy.l1_assoc c)
              (MemoryHierarchy.l1_time c) (MemoryHierarchy.cfg_policy c)
            = Raise ZeroDivisionError) as ->
      by by apply level_init_ZeroDivisionError.
    done.
Qed.

(** With a block size other than [0] the constructor returns a hierarchy
    or raises [OverflowError]. *)
Lemma hierarchy_init_cases c :
  MemoryHierarchy.block_size c <> 0 ->
  (exists h, MemoryHierarchy.init c = Ok h)
  ∨ MemoryHierarchy.init c = Raise OverflowError.
Proof.
  intros Hb. unfold MemoryHierarchy.init.
  repeat match goal with
         | |- context [CacheLevel.init ?n ?s ?b ?a ?t ?p] =>
             destruct (level_init_cases n s b a t p Hb) as [[? ->]| ->];
             simpl; [|by right]
         | |- context [MemoryHierarchy.l2_enabled c] =>
             destruct (MemoryHierarchy.l2_enabled c); simpl
         | |- context [MemoryHierarchy.l3_enabled c] =>
             destruct (MemoryHierarchy.l3_enabled c); simpl
         end; left; eauto.
Qed.

Lemma hierarchy_init_in_range c :
  MemoryHierarchy.block_size c <> 0 ->
  MemoryHierarchy.sizes_in_double_range c = true ->
  exists h, MemoryHierarchy.init c = Ok h.
Proof.
  intros Hb. unfold MemoryHierarchy.sizes_in_double_range, in_double_range.
  rewrite !andb_true_iff, !orb_true_iff, !negb_true_iff, !Z.ltb_lt.
  intros ((((H1 & H2) & H3) & Hram) & Hdisk). unfold MemoryHierarchy.init.
  destruct (level_init_in_range "L1 Cache" (MemoryHierarchy.l1_size c)
              (MemoryHierarchy.block_size c) (MemoryHierarchy.l1_assoc c)
              (MemoryHierarchy.l1_time c) (MemoryHierarchy.cfg_policy c)
              Hb H1) as [l1 ->].
  destruct (level_init_in_range "Main Memory (RAM)"
              (MemoryHierarchy.ram_size c * 1024 * 1024)
              (MemoryHierarchy.block_size c) 8
              (MemoryHierarchy.ram_time c) (MemoryHierarchy.cfg_policy c)
              Hb Hram) as [ram ->].
  destruct (level_init_in_range "Secondary Memory (Disk)"
              (MemoryHierarchy.disk_size c * 1024 * 1024 * 1024)
              (MemoryHierarchy.block_size c) 1
              (MemoryHierarchy.disk_time c) "FIFO" Hb Hdisk) as [disk ->].
  simpl.
  destruct (MemoryHierarchy.l2_enabled c).
  - destruct H2 as [|H2]; [done|].
    destruct (level_init_in_range "L2 Cache" (MemoryHierarchy.l2_size c)
                (MemoryHierarchy.block_size c) (MemoryHierarchy.l2_assoc c)
                (MemoryHierarchy.l2_time c) (MemoryHierarchy.cfg_policy c)
                Hb H2) as [l2 ->].
    simpl. destruct (MemoryHierarchy.l3_enabled c); [|simpl; eauto].
    destruct H3 as [|H3]; [done|].
    destruct (level_init_in_range "L3 Cache" (MemoryHierarchy.l3_size c)
                (MemoryHierarchy.block_size c) (MemoryHierarchy.l3_assoc c)
                (MemoryHierarchy.l3_time c) (MemoryHierarchy.cfg_policy c)
                Hb H3) as [l3 ->].
    simpl. eauto.
  - simpl. destruct (MemoryHierarchy.l3_enabled c); [|simpl; eauto].
    destruct H3 as [|H3]; [done|].
    destruct (level_init_in_range "L3 Cache" (MemoryHierarchy.l3_size c)
                (MemoryHierarchy.block_size c) (MemoryHierarchy.l3_assoc c)
                (MemoryHierarchy.l3_time c) (MemoryHierarchy.cfg_policy c)
                Hb H3) as [l3 ->].
    simpl. eauto.
Qed.

(** The constructor of the analyzer, with the division set apart. *)
Lemma analyzer_init_unfold h total_time num_requests :
  PerformanceAnalyzer.init h total_time num_requests
  = if num_requests >? 0 then
      match truediv total_time num_requests with
      | Ok x =>
          Ok (PerformanceAnalyzer.mk h total_time num_requests (Float x))
      | Raise e => Raise e
      end
    else Ok (PerformanceAnalyzer.mk h total_time num_requests (Int 0)).
Proof.
  unfold PerformanceAnalyzer.init.
  destruct (num_requests >? 0); [|done]. by destruct (truediv _ _).
Qed.

(** For a positive count the analyzer is constructed, or the division
    overflows. *)
Lemma analyzer_init_cases h total_time num_requests :
  0 < num_requests ->
  (exists x,
     PerformanceAnalyzer.init h total_time num_requests
     = Ok (PerformanceAnalyzer.mk h total_time num_requests (Float x))
     ∧ truediv total_time num_requests = Ok x)
  ∨ (PerformanceAnalyzer.init h total_time num_requests = Raise OverflowError
     ∧ truediv total_time num_requests = Raise OverflowError).
Proof.
  intros Hn. rewrite analyzer_init_unfold.
  destruct (Z.gtb_spec num_requests 0) as [_|]; [|lia].
  destruct (truediv_cases total_time num_requests ltac:(lia)) as [[x ->]| ->];
    eauto.
Qed.

Lemma insert_all_safe ls address w ls' w' :
  MemoryHierarchy.insert_all ls address w = Ok (ls', w') ->
  Forall divides_safely ls -> Forall divides_safely ls'.
Proof.
  intros H%insert_all_Forall2. induction H as [|l l' ls ls' (wa&wb&Hi) _ IH].
  - done.
  - intros [Hl Hls]%Forall_cons. apply Forall_cons_2; [|by apply IH].
    eapply divides_safely_shape; [|exact Hl].
    by eapply level_insert_shape.
Qed.

Lemma probe_levels_safe rest :
  forall done total address w ls' total' o w',
    MemoryHierarchy.probe_levels done rest total address w
    = Ok (ls', total', o, w') ->
    Forall divides_safely done ->
    Forall divides_safely rest ->
    Forall divides_safely ls'.
Proof.
  induction rest as [|l rest IH]; intros done total address w ls' total' o w';
    simpl.
  - by intros [= <- _ _ _].
  - destruct (CacheLevel.access l address w) as [[[l1 hit] w1]|e] eqn:Ha;
      simpl; [|discriminate].
    intros H Hd [Hl Hr]%Forall_cons.
    assert (divides_safely l1) as Hl1.
    { eapply divides_safely_shape; [|exact Hl].
      by eapply level_access_shape. }
    destruct hit.
    + destruct (MemoryHierarchy.insert_all done address w1) as [[ws w2]|e]
        eqn:Hw; simpl in H; [|discriminate].
      injection H as <- _ _ _.
      apply Forall_app. split; [by eapply insert_all_safe|].
      by apply Forall_cons_2.
    + eapply IH; [exact H| |done].
      apply Forall_app. split; [done|]. by apply Forall_singleton.
Qed.

(** On a safe hierarchy [access_memory] returns, and the hierarchy stays
    safe. *)
Lemma access_memory_total h address w :
  hierarchy_safe h ->
  exists h' r w',
    MemoryHierarchy.access_memory h address w = Ok (h', r, w')
    ∧ hierarchy_safe h'.
Proof.
  intros [Hls Hd]. unfold MemoryHierarchy.access_memory.
  destruct (probe_levels_total (MemoryHierarchy.levels h) [] 0 address w
              (Forall_nil_2 _) Hls) as [[[[ls1 t1] o] w1] Hp].
  rewrite Hp. simpl.
  pose proof (probe_levels_safe _ _ _ _ _ _ _ _ _ Hp (Forall_nil_2 _) Hls)
    as Hls1.
  destruct o as [i nm|].
  - eexists _, _, _. split; [reflexivity|]. by split.
  - assert (divides_safely
              (CacheLevel.add_hit (MemoryHierarchy.disk_level h))) as Hd1
      by exact Hd.
    destruct (level_insert_total _ address w1 Hd1) as [[disk2 w2] Hi].
    rewrite Hi. simpl.
    destruct (insert_all_total ls1 address w2 Hls1) as [[ls2 w3] Hw].
    rewrite Hw. simpl.
    eexists _, _, _. split; [reflexivity|]. split; simpl.
    + by eapply insert_all_safe.
    + eapply divides_safely_shape; [|exact Hd1].
      by eapply level_insert_shape.
Qed.

(** What one [access_memory] call does to the disk level. *)
Lemma access_memory_disk h address w h' r w' :
  MemoryHierarchy.access_memory h address w = Ok (h', r, w') ->
  same_shape (MemoryHierarchy.disk_level h) (MemoryHierarchy.disk_level h')
  ∧ CacheLevel.misses (MemoryHierarchy.disk_level h')
    = CacheLevel.misses (MemoryHierarchy.disk_level h)
  ∧ CacheLevel.hits (MemoryHierarchy.disk_level h)
    <= CacheLevel.hits (MemoryHierarchy.disk_level h').
Proof.
  unfold MemoryHierarchy.access_memory.
  destruct (MemoryHierarchy.probe_levels [] (MemoryHierarchy.levels h) 0
              address w) as [[[[ls1 t1] [i1 nm|]] w1]|e] eqn:Hp;
    simpl; try discriminate.
  - intros [= <- _ _]. simpl. split_and!; [apply same_shape_refl|done|lia].
  - destruct (CacheLevel.insert
                (CacheLevel.add_hit (MemoryHierarchy.disk_level h)) address w1)
      as [[disk2 w2]|e] eqn:Hdisk; simpl; [|discriminate].
    destruct (MemoryHierarchy.insert_all ls1 address w2) as [[ls2 w3]|e];
      simpl; [|discriminate].
    intros [= <- _ _]. simpl.
    destruct (level_insert_counters _ _ _ _ _ Hdisk) as [Hh Hm].
    pose proof (level_insert_shape _ _ _ _ _ Hdisk) as Hs.
    split_and!; [exact Hs | by rewrite Hm | rewrite Hh; simpl; lia].
Qed.

Lemma reachable_safe h0 h :
  hierarchy_safe h0 -> reachable h0 h -> hierarchy_safe h.
Proof.
  intros H0. induction 1 as [|h address w h' r w' _ IH Hstep]; [done|].
  destruct (access_memory_total h address w IH) as (h2 & r2 & w2 & Hrun & Hs).
  rewrite Hstep in Hrun. by injection Hrun as <- _ _.
Qed.

Lemma reachable_disk h0 h :
  reachable h0 h ->
  same_shape (MemoryHierarchy.disk_level h0) (MemoryHierarchy.disk_level h)
  ∧ CacheLevel.misses (MemoryHierarchy.disk_level h)
    = CacheLevel.misses (MemoryHierarchy.disk_level h0)
  ∧ CacheLevel.hits (MemoryHierarchy.disk_level h0)
    <= CacheLevel.hits (MemoryHierarchy.disk_level h).
Proof.
  induction 1 as [|h address w h' r w' _ (IHs & IHm & IHh) Hstep].
  - split_and!; [apply same_shape_refl | done | lia].
  - destruct (access_memory_disk _ _ _ _ _ _ Hstep) as (Hs & Hm & Hh).
    split_and!; [by eapply same_shape_trans | congruence | lia].
Qed.

(** The driver's loop only produces reachable hierarchies. *)
Lemma run_trace_reachable h0 addrs :
  forall h t w h' t' w',
    reachable h0 h ->
    run_trace h addrs t w = Ok (h', t', w') ->
    reachable h0 h'.
Proof.
  induction addrs as [|a addrs IH]; intros h t w h' t' w' Hr; simpl.
  - by intros [= <- _ _].
  - destruct (MemoryHierarchy.access_memory h a w)
      as [[[h1 [t1 n1]] w1]|e] eqn:Hstep; simpl; [|discriminate].
    apply IH. by eapply reachable_step.
Qed.

Lemma access_memory_level_counters h address w h' r w' j l :
  MemoryHierarchy.access_memory h address w = Ok (h', r, w') ->
  MemoryHierarchy.levels h !! j = Some l ->
  exists l',
    MemoryHierarchy.levels h' !! j = Some l'
    ∧ CacheLevel.hits l' + CacheLevel.misses l'
      = CacheLevel.hits l + CacheLevel.misses l
        + (if probed h address w j && reaches_set l address then 1 else 0).
Proof.
  unfold MemoryHierarchy.access_memory, probed,
    MemoryHierarchy.resolving_position.
  destruct (MemoryHierarchy.probe_levels [] (MemoryHierarchy.levels h) 0
              address w) as [[[[ls1 t1] [i1 nm|]] w1]|e] eqn:Hp;
    simpl; try discriminate.
  - intros [= <- _ _] Hl. simpl.
    apply probe_levels_HitAt in Hp
      as (pre & pre' & li & li' & post & warmed & wa & wb
          & Hlv & Hi & Hmiss & Hhit & _ & Hwarm & ->).
    simpl in Hi, Hwarm. apply insert_all_Forall2 in Hwarm.
    pose proof (Forall2_length _ _ _ Hmiss) as Hlen1.
    pose proof (Forall2_length _ _ _ Hwarm) as Hlen2.
    rewrite Hlv in Hl.
    destruct (lt_eq_lt_dec j i1) as [[Hlt| ->]|Hgt].
    + rewrite lookup_app_l in Hl by lia.
      destruct (Forall2_lookup_l _ _ _ _ _ Hmiss Hl)
        as (l1 & Hl1 & (wc & wd & Ha)).
      destruct (Forall2_lookup_l _ _ _ _ _ Hwarm Hl1)
        as (l' & Hl' & (we & wf & Hins)).
      exists l'. split; [by rewrite lookup_app_l by lia|].
      pose proof (level_access_counts_reached _ _ _ _ _ _ Ha) as Hc.
      destruct (level_insert_counters _ _ _ _ _ Hins) as [Hh Hm].
      rewrite (proj2 (Nat.leb_le j i1)) by lia. simpl.
      rewrite Hh, Hm. exact Hc.
    + rewrite list_lookup_middle in Hl by lia. injection Hl as <-.
      exists li'. split; [by apply list_lookup_middle; lia|].
      rewrite Nat.leb_refl. simpl.
      by eapply level_access_counts_reached.
    + exists l. split.
      * rewrite lookup_app_r in Hl |- * by lia.
        replace (j - length warmed)%nat with (S (j - S i1)) by lia.
        by replace (j - length pre)%nat with (S (j - S i1)) in Hl by lia.
      * rewrite (proj2 (Nat.leb_gt j i1)) by lia. simpl. lia.
  - destruct (CacheLevel.insert
                (CacheLevel.add_hit (MemoryHierarchy.disk_level h)) address w1)
      as [[disk2 w2]|e] eqn:Hdisk; simpl; [|discriminate].
    destruct (MemoryHierarchy.insert_all ls1 address w2) as [[ls2 w3]|e]
      eqn:Hwarm; simpl; [|discriminate].
    intros [= <- _ _] Hl. simpl.
    apply probe_levels_NoHit in Hp as (rest' & -> & Hmiss). simpl in Hwarm.
    apply insert_all_Forall2 in Hwarm.
    destruct (Forall2_lookup_l _ _ _ _ _ Hmiss Hl)
      as (l1 & Hl1 & (wc & wd & Ha)).
    destruct (Forall2_lookup_l _ _ _ _ _ Hwarm Hl1)
      as (l' & Hl' & (we & wf & Hins)).
    exists l'. split; [done|].
    pose proof (level_access_counts_reached _ _ _ _ _ _ Ha) as Hc.
    destruct (level_insert_counters _ _ _ _ _ Hins) as [Hh Hm].
    rewrite Hh, Hm. exact Hc.
Qed.

(** Counter conservation along the driver's loop: for every level of
    [levels], [hits + misses] grows by the number of probes of that level
    that found a set at their index. *)
Lemma run_trace_level_counters addrs :
  forall h t w h' t' w' j l,
    run_trace h addrs t w = Ok (h', t', w') ->
    MemoryHierarchy.levels h !! j = Some l ->
    exists l',
      MemoryHierarchy.levels h' !! j = Some l'
      ∧ CacheLevel.hits l' + CacheLevel.misses l'
        = CacheLevel.hits l + CacheLevel.misses l
          + Z.of_nat (reached_probes h addrs w j).
Proof.
  induction addrs as [|a addrs IH]; intros h t w h' t' w' j l; simpl.
  - intros [= <- _ _] Hl. exists l. split; [done | lia].
  - destruct (MemoryHierarchy.access_memory h a w)
      as [[[h1 [t1 n1]] w1]|e] eqn:Hstep; simpl; [|discriminate].
    intros Hrun Hl.
    destruct (access_memory_level_counters _ _ _ _ _ _ _ _ Hstep Hl)
      as (l1 & Hl1 & Hc1).
    destruct (IH _ _ _ _ _ _ _ _ Hrun Hl1) as (l' & Hl' & Hc').
    exists l'. split; [done|]. rewrite Hl. simpl.
    destruct (probed h a w j && reaches_set l a); lia.
Qed.

(** ** AccessPatternGenerator *)

Lemma generate_locality_small_raises g num_requests w :
  0 <= AccessPatternGenerator.max_address g ->
  0 < num_requests < 10 ->
  AccessPatternGenerator.generate_locality g num_requests w
  = Raise ZeroDivisionError.
Proof.
  intros Hmax Hn. unfold AccessPatternGenerator.generate_locality,
    random_randint.
  destruct (Z.ltb_spec (AccessPatternGenerator.max_address g) 0); [lia|].
  simpl.
  destruct (Z.to_nat num_requests) as [|count] eqn:Hc; [lia|].
  simpl. unfold floordiv. simpl.
  rewrite Z.div_small by lia. reflexivity.
Qed.

Lemma generate_sequential_zero_bound num_requests stride :
  0 < num_requests ->
  AccessPatternGenerator.generate_sequential (AccessPatternGenerator.mk 0)
    num_requests stride
  = Raise ZeroDivisionError.
Proof.
  intros Hn. unfold AccessPatternGenerator.generate_sequential.
  destruct (Z.to_nat num_requests) as [|count] eqn:Hc; [lia|].
  reflexivity.
Qed.

(** * The claims *)

(** C1.  When [access_memory] resolves at position [i > 0] of [levels],
    afterwards a probe of each of the levels [0 .. i-1] for the same
    address hits.  Level [i] itself is exactly as its own probe left it:
    the warm-up does not touch it, and every set of it holds the tags it
    held before the call (no block was created there).  The name returned
    is that of level [i]; the levels after [i] and the disk level are
    unchanged. *)
Theorem inclusion_after_hit
    (h : MemoryHierarchy.t) (address : Z) (w : World)
    (h' : MemoryHierarchy.t) (total_time : Z) (name : string) (w' : World)
    (i : nat) :
  MemoryHierarchy.access_memory h address w = Ok (h', (total_time, name), w') ->
  MemoryHierarchy.resolving_position h address w = Some i ->
  (0 < i)%nat ->
  (forall j : nat, (j < i)%nat ->
     exists lj, MemoryHierarchy.levels h' !! j = Some lj
                ∧ probe_hits lj address)
  ∧ (exists li li',
       MemoryHierarchy.levels h !! i = Some li
       ∧ MemoryHierarchy.levels h' !! i = Some li'
       ∧ name = CacheLevel.name li
       ∧ (exists wa wb, CacheLevel.access li address wa = Ok (li', true, wb))
       ∧ CacheLevel.contents li' = CacheLevel.contents li)
  ∧ drop (S i) (MemoryHierarchy.levels h')
    = drop (S i) (MemoryHierarchy.levels h)
  ∧ MemoryHierarchy.disk_level h' = MemoryHierarchy.disk_level h.
Proof.
  unfold MemoryHierarchy.access_memory, MemoryHierarchy.resolving_position.
  destruct (MemoryHierarchy.probe_levels [] (MemoryHierarchy.levels h) 0
              address w) as [[[[ls1 t1] [i1 nm|]] w1]|e] eqn:Hp;
    simpl; try discriminate.
  intros [= <- <- <- <-] [= <-] Hpos.
  apply probe_levels_HitAt in Hp
    as (pre & pre' & li & li' & post & warmed & wa & wb
        & Hlv & Hi & Hmiss & Hhit & Hname & Hwarm & ->).
  simpl in Hi, Hwarm. apply insert_all_Forall2 in Hwarm.
  pose proof (Forall2_length _ _ _ Hmiss) as Hlen1.
  pose proof (Forall2_length _ _ _ Hwarm) as Hlen2.
  assert (length warmed = i1) as Hlw by lia.
  assert (length pre = i1) as Hlp by lia.
  simpl. rewrite Hlv. split_and!.
  - intros j Hj.
    destruct (lookup_lt_is_Some_2 warmed j) as [lj Hlj]; [lia|].
    exists lj. split; [by rewrite lookup_app_l by lia|].
    pose proof (Forall2_insert_probe_hits _ _ _ Hwarm) as Hall.
    rewrite Forall_lookup in Hall. by eapply Hall.
  - exists li, li'. split_and!.
    + by apply list_lookup_middle.
    + by apply list_lookup_middle.
    + rewrite Hname.
      by destruct (level_access_shape _ _ _ _ _ _ Hhit) as (-> & _).
    + eauto.
    + by eapply level_access_contents.
  - rewrite !drop_app_ge by lia. rewrite Hlw, Hlp.
    by replace (S i1 - i1)%nat with 1%nat by lia.
  - done.
Qed.

Lemma inclusion_after_hit_witness :
  (exists lj, MemoryHierarchy.levels demo_after_hit.1.1 !! 0%nat = Some lj
              ∧ probe_hits lj 0)
  ∧ demo_after_hit.1.2 = (6, "L2 Cache").
Proof.
  split; [|reflexivity].
  assert (MemoryHierarchy.access_memory demo_after_five.1.1 0 demo_after_five.2
          = Ok (demo_after_hit.1.1, (6, "L2 Cache"), demo_after_hit.2)) as Hrun
    by (vm_compute; reflexivity).
  assert (MemoryHierarchy.resolving_position demo_after_five.1.1 0
            demo_after_five.2 = Some 1%nat) as Hpos
    by (vm_compute; reflexivity).
  apply (proj1 (inclusion_after_hit _ _ _ _ _ _ _ 1%nat Hrun Hpos
                  (Nat.lt_0_succ 0)) 0%nat).
  lia.
Defined.

(** C2.  When no level of [levels] hits, [access_memory] answers ["Disk"];
    the disk level's [hits] grows by exactly one and its [misses] stays;
    the address is inserted into the disk level and into every level of
    [levels] (each after its own missed probe); and afterwards a probe of
    any of them, the disk level included, for the same address hits. *)
Theorem full_warm_up_after_terminal_fetch
    (h : MemoryHierarchy.t) (address : Z) (w : World)
    (h' : MemoryHierarchy.t) (total_time : Z) (name : string) (w' : World) :
  MemoryHierarchy.access_memory h address w = Ok (h', (total_time, name), w') ->
  MemoryHierarchy.resolving_position h address w = None ->
  name = "Disk"
  ∧ CacheLevel.hits (MemoryHierarchy.disk_level h')
    = CacheLevel.hits (MemoryHierarchy.disk_level h) + 1
  ∧ CacheLevel.misses (MemoryHierarchy.disk_level h')
    = CacheLevel.misses (MemoryHierarchy.disk_level h)
  ∧ (exists wa wb,
       CacheLevel.insert (CacheLevel.add_hit (MemoryHierarchy.disk_level h))
         address wa
       = Ok (MemoryHierarchy.disk_level h', wb))
  ∧ Forall2 (fun l l' => exists l1 wa wb wc wd,
               CacheLevel.access l address wa = Ok (l1, false, wb)
               ∧ CacheLevel.insert l1 address wc = Ok (l', wd))
            (MemoryHierarchy.levels h) (MemoryHierarchy.levels h')
  ∧ Forall (fun l' => probe_hits l' address) (MemoryHierarchy.levels h')
  ∧ probe_hits (MemoryHierarchy.disk_level h') address.
Proof.
  unfold MemoryHierarchy.access_memory, MemoryHierarchy.resolving_position.
  destruct (MemoryHierarchy.probe_levels [] (MemoryHierarchy.levels h) 0
              address w) as [[[[ls1 t1] [i1 nm|]] w1]|e] eqn:Hp;
    simpl; try discriminate.
  destruct (CacheLevel.insert
              (CacheLevel.add_hit (MemoryHierarchy.disk_level h)) address w1)
    as [[disk2 w2]|e] eqn:Hdisk; simpl; [|discriminate].
  destruct (MemoryHierarchy.insert_all ls1 address w2) as [[ls2 w3]|e]
    eqn:Hwarm; simpl; [|discriminate].
  intros [= <- <- <- <-] _. simpl.
  apply probe_levels_NoHit in Hp as (rest' & -> & Hmiss). simpl in Hwarm.
  apply insert_all_Forall2 in Hwarm.
  destruct (level_insert_counters _ _ _ _ _ Hdisk) as [Hh Hm].
  split_and!.
  - reflexivity.
  - by rewrite Hh.
  - by rewrite Hm.
  - eauto.
  - eapply Forall2_impl; [exact (Forall2_compose _ _ _ _ _ Hmiss Hwarm)|].
    intros l l' (l1 & (wa & wb & Ha) & (wc & wd & Hi)). eauto 10.
  - by eapply Forall2_insert_probe_hits.
  - by eapply level_insert_then_probe_hits.
Qed.

Lemma full_warm_up_after_terminal_fetch_witness :
  demo_after_fetch.1.2.2 = "Disk"
  ∧ CacheLevel.hits (MemoryHierarchy.disk_level demo_after_fetch.1.1)
    = CacheLevel.hits (MemoryHierarchy.disk_level demo_hierarchy) + 1
  ∧ Forall (fun l' => probe_hits l' 0)
           (MemoryHierarchy.levels demo_after_fetch.1.1)
  ∧ probe_hits (MemoryHierarchy.disk_level demo_after_fetch.1.1) 0.
Proof.
  assert (MemoryHierarchy.access_memory demo_hierarchy 0 ticking_world
          = Ok (demo_after_fetch.1.1,
                (demo_after_fetch.1.2.1, demo_after_fetch.1.2.2),
                demo_after_fetch.2)) as Hrun
    by (vm_compute; reflexivity).
  assert (MemoryHierarchy.resolving_position demo_hierarchy 0 ticking_world
          = None) as Hpos
    by (vm_compute; reflexivity).
  destruct (full_warm_up_after_terminal_fetch _ _ _ _ _ _ _ Hrun Hpos)
    as (Hn & Hh & _ & _ & _ & Hall & Hd).
  split_and!; assumption.
Defined.

(** C3.  A probe ([CacheLevel.access]) whose address decomposes to an index
    at which the level holds no set returns a miss and leaves the level,
    and so both counters, as they were.  At an index that holds a set it
    increments exactly one counter: [hits] when it reports a hit, [misses]
    when it reports a miss.  Hence over any run of [access] and [insert]
    calls on the level, [hits + misses] grows by exactly the number of
    [access] calls that found a set at their index; from a new level, whose
    counters are zero, it equals that number. *)
Theorem probe_counter_conservation
    (l : CacheLevel.t) (address index tag : Z) :
  CacheLevel.get_index_and_tag l address = Ok (index, tag) ->
  (forall w : World,
     match CacheLevel.sets l !! index with
     | None => CacheLevel.access l address w = Ok (l, false, w)
     | Some _ =>
         exists l' hit w',
           CacheLevel.access l address w = Ok (l', hit, w')
           ∧ if hit : bool
             then CacheLevel.hits l' = CacheLevel.hits l + 1
                  ∧ CacheLevel.misses l' = CacheLevel.misses l
             else CacheLevel.hits l' = CacheLevel.hits l
                  ∧ CacheLevel.misses l' = CacheLevel.misses l + 1
     end)
  ∧ (forall (ops : list level_op) (w : World),
       exists l' n w',
         run_level_ops l ops w = Ok (l', n, w')
         ∧ CacheLevel.hits l' + CacheLevel.misses l'
           = CacheLevel.hits l + CacheLevel.misses l + Z.of_nat n).
Proof.
  intros Hd. split.
  - intros w.
    destruct (level_access_total l address w
                (get_index_and_tag_Ok _ _ _ _ Hd)) as [[[l' hit] w'] Ha].
    pose proof (level_access_counters _ _ _ _ _ _ _ _ Ha Hd) as Hc.
    destruct (CacheLevel.sets l !! index) as [s|].
    + exists l', hit, w'. split; [done|]. by destruct hit.
    + destruct Hc as (-> & -> & ->). done.
  - intros ops w. apply run_level_ops_counters.
    by eapply get_index_and_tag_Ok.
Qed.

Lemma probe_counter_conservation_witness :
  (exists l' hit w',
     CacheLevel.access tiny_level_warm 64 ticking_world = Ok (l', hit, w')
     ∧ if hit : bool
       then CacheLevel.hits l' = CacheLevel.hits tiny_level_warm + 1
            ∧ CacheLevel.misses l' = CacheLevel.misses tiny_level_warm
       else CacheLevel.hits l' = CacheLevel.hits tiny_level_warm
            ∧ CacheLevel.misses l' = CacheLevel.misses tiny_level_warm + 1)
  ∧ CacheLevel.access tiny_level 64 ticking_world
    = Ok (tiny_level, false, ticking_world).
Proof.
  split.
  - apply (proj1 (probe_counter_conservation tiny_level_warm 64 0 1
                    eq_refl) ticking_world).
  - apply (proj1 (probe_counter_conservation tiny_level 64 0 1
                    eq_refl) ticking_world).
Defined.

(** C4.  A set of positive capacity that starts empty and replaces by one
    of the five policies stays within its capacity and never holds a tag
    twice: after every call of any sequence of [access] (touch) and
    [insert] (admit) calls, [len(blocks) <= capacity] and the tags of the
    blocks are pairwise distinct. *)
Theorem set_within_capacity_and_tags_unique
    (capacity : Z) (policy : string) (ops : list set_op) (w : World) :
  0 < capacity ->
  known_policy policy ->
  Forall (fun s => Z.of_nat (length (CacheSet.blocks s)) <= capacity
                   ∧ NoDup (CacheSet.tags s))
         (set_states (CacheSet.init capacity policy) ops w).
Proof.
  intros Hcap Hp.
  apply (set_states_inv_from ops (CacheSet.init capacity policy) w); try done.
  split; simpl; [lia | constructor].
Qed.

Lemma set_within_capacity_and_tags_unique_witness :
  Forall (fun s => Z.of_nat (length (CacheSet.blocks s)) <= 2
                   ∧ NoDup (CacheSet.tags s))
         (set_states (CacheSet.init 2 "LRU")
            [Admit 10; Admit 20; Touch 10; Admit 30; Admit 10] ticking_world).
Proof.
  apply (set_within_capacity_and_tags_unique 2 "LRU"
           [Admit 10; Admit 20; Touch 10; Admit 30; Admit 10] ticking_world).
  - lia.
  - unfold known_policy. repeat constructor.
Defined.

(** C5.  In a FIFO set of capacity 2 that starts empty, the calls
    [insert(A)], [insert(B)], [access(A)], [insert(C)] on three distinct
    tags leave exactly B and C resident, in that order: A is evicted, its
    [insertion_time] being the earliest, because [access] leaves the
    tag and the [insertion_time] of every block as they were.  The clock
    is assumed not to run backwards. *)
Theorem fifo_insensitive_to_retouch (w : World) (A B C : Z) :
  monotone_clock w -> A <> B -> A <> C -> B <> C ->
  let s := (run_set_ops (CacheSet.init 2 "FIFO")
              [Admit A; Admit B; Touch A; Admit C] w).1 in
  CacheSet.tags s = [B; C]
  ∧ (A ∉ CacheSet.tags s)
  ∧ (forall (s0 : CacheSet.t) (tag : Z) (w0 : World),
       let s1 := (CacheSet.access s0 tag w0).1.1 in
       CacheBlock.insertion_time <$> CacheSet.blocks s1
       = CacheBlock.insertion_time <$> CacheSet.blocks s0
       ∧ CacheSet.tags s1 = CacheSet.tags s0).
Proof.
  intros Hmono HAB HAC HBC.
  assert ((A =? B) = false) as E1 by (by apply Z.eqb_neq).
  assert ((B =? A) = false) as E1' by (apply Z.eqb_neq; congruence).
  assert ((A =? C) = false) as E2 by (by apply Z.eqb_neq).
  assert ((B =? C) = false) as E3 by (by apply Z.eqb_neq).
  assert (CacheSet.tags
            (run_set_ops (CacheSet.init 2 "FIFO")
               [Admit A; Admit B; Touch A; Admit C] w).1 = [B; C]) as Htags.
  { destruct w as [ts k rs gs d].
    unfold monotone_clock in Hmono. simpl in Hmono. simpl.
    repeat (unfold CacheSet.insert, CacheSet.access, CacheSet.replace,
              CacheSet.choose_victim, CacheBlock.init, CacheBlock.touch,
              time_time; simpl; rewrite ?E1, ?E1', ?E2, ?E3, ?Z.eqb_refl).
    assert ((ts (S (S (S k))) <? ts (S k)) = false) as ->
      by (apply Z.ltb_ge, Hmono; lia).
    reflexivity. }
  intros s. subst s. rewrite Htags. split_and!.
  - reflexivity.
  - rewrite !not_elem_of_cons. split_and!; [done | done | apply not_elem_of_nil].
  - intros s0 tag w0. split.
    + apply set_access_insertion_times.
    + apply set_access_tags.
Qed.

Lemma fifo_insensitive_to_retouch_witness :
  CacheSet.tags (run_set_ops (CacheSet.init 2 "FIFO")
                   [Admit 1; Admit 2; Touch 1; Admit 3] frozen_world).1
  = [2; 3].
Proof.
  apply (fifo_insensitive_to_retouch frozen_world 1 2 3).
  - intros i j Hij. simpl. lia.
  - lia.
  - lia.
  - lia.
Defined.

(** C6.  [generate_locality] computes its chunk size as
    [num_requests // 10] without clamping it: for 5 requests over 1024
    addresses the chunk size is 0 and the modulus test of the first
    iteration raises [ZeroDivisionError], whatever the random draws. *)
Theorem generate_locality_five_requests_raises (w : World) :
  AccessPatternGenerator.generate_locality (AccessPatternGenerator.mk 1024)
    5 w
  = Raise ZeroDivisionError.
Proof.
  apply generate_locality_small_raises; simpl; lia.
Qed.

(** C7 as stated fails: a bound of 0 is accepted. *)
Lemma generator_accepts_zero_bound :
  AccessPatternGenerator.init 0 = Ok (AccessPatternGenerator.mk 0)
  ∧ AccessPatternGenerator.init 0 <> Raise InvalidArgument.
Proof. split; [reflexivity | discriminate]. Qed.

(** C7, amended.  Constructing an [AccessPatternGenerator] never fails: for
    every [max_address], positive or not, the constructor succeeds and
    stores the bound as given. *)
Theorem generator_construction_never_fails (max_address : Z) :
  AccessPatternGenerator.init max_address
  = Ok (AccessPatternGenerator.mk max_address).
Proof. reflexivity. Qed.

(** C8 as stated fails: a negative size is accepted, a block size of zero
    is answered with [ZeroDivisionError] and a size beyond the doubles with
    [OverflowError]. *)
Lemma hierarchy_accepts_negative_size :
  is_ok (MemoryHierarchy.init negative_size_config) = true
  ∧ MemoryHierarchy.init negative_size_config <> Raise ConfigurationError
  ∧ MemoryHierarchy.init zero_block_config = Raise ZeroDivisionError
  ∧ MemoryHierarchy.init huge_size_config = Raise OverflowError.
Proof.
  split_and!.
  - vm_compute. reflexivity.
  - intros H. apply (f_equal is_ok) in H. vm_compute in H. discriminate.
  - vm_compute. reflexivity.
  - vm_compute. reflexivity.
Qed.

(** C8, amended.  [MemoryHierarchy] construction checks nothing and never
    raises a [ConfigurationError].  With a block size of zero it fails with
    a [ZeroDivisionError] that the constructor of the first level (L1)
    raises, so that no level has been constructed.  With any other block
    size it returns a hierarchy or fails with the [OverflowError] of a
    float division, whatever the other numeric fields are (negative or zero
    sizes, associativities and latencies included); it returns a hierarchy
    whenever the byte sizes of L1, of L2 and L3 if enabled, of the main
    memory and of the disk are below [2 ^ 1023] in absolute value. *)
Theorem hierarchy_construction_unchecked (c : MemoryHierarchy.config) :
  MemoryHierarchy.init c <> Raise ConfigurationError
  ∧ (MemoryHierarchy.block_size c = 0 ->
     CacheLevel.init "L1 Cache" (MemoryHierarchy.l1_size c)
       (MemoryHierarchy.block_size c) (MemoryHierarchy.l1_assoc c)
       (MemoryHierarchy.l1_time c) (MemoryHierarchy.cfg_policy c)
     = Raise ZeroDivisionError
     ∧ MemoryHierarchy.init c = Raise ZeroDivisionError)
  ∧ (MemoryHierarchy.block_size c <> 0 ->
     (exists h, MemoryHierarchy.init c = Ok h)
     ∨ MemoryHierarchy.init c = Raise OverflowError)
  ∧ (MemoryHierarchy.block_size c <> 0 ->
     MemoryHierarchy.sizes_in_double_range c = true ->
     exists h, MemoryHierarchy.init c = Ok h).
Proof.
  split_and!.
  - destruct (Z.eq_dec (MemoryHierarchy.block_size c) 0) as [Hz|Hnz].
    + apply hierarchy_init_raises in Hz. by rewrite Hz.
    + by destruct (hierarchy_init_cases c Hnz) as [[h ->]| ->].
  - intros Hz. split; [|by apply hierarchy_init_raises].
    by apply level_init_ZeroDivisionError.
  - apply hierarchy_init_cases.
  - apply hierarchy_init_in_range.
Qed.

Lemma hierarchy_construction_unchecked_witness :
  MemoryHierarchy.init zero_block_config = Raise ZeroDivisionError
  ∧ (exists h, MemoryHierarchy.init negative_size_config = Ok h)
  ∧ ((exists h, MemoryHierarchy.init huge_size_config = Ok h)
     ∨ MemoryHierarchy.init huge_size_config = Raise OverflowError).
Proof.
  split_and!.
  - apply (proj1 (proj2 (hierarchy_construction_unchecked zero_block_config))).
    reflexivity.
  - apply (proj2 (proj2 (proj2 (hierarchy_construction_unchecked
                                  negative_size_config)))).
    + simpl. lia.
    + vm_compute. reflexivity.
  - apply (proj1 (proj2 (proj2 (hierarchy_construction_unchecked
                                  huge_size_config)))).
    simpl. lia.
Defined.

(** C9 as stated fails: for a total of 1 and a count of 3 [amat] is the
    double nearest to one third, which is not one third, and for a total
    of [2 ^ 1024] and a count of 1 the constructor raises [OverflowError]
    and there is no [amat]. *)
Lemma amat_is_rounded_or_overflows :
  PerformanceAnalyzer.init demo_hierarchy 1 3
  = Ok (PerformanceAnalyzer.mk demo_hierarchy 1 3
          (Float (mkFloat 6004799503160661 (-54))))
  ∧ ~ (float_value (mkFloat 6004799503160661 (-54)) == 1 # 3)%Q
  ∧ PerformanceAnalyzer.init demo_hierarchy (2 ^ 1024) 1
    = Raise OverflowError.
Proof.
  split_and!.
  - vm_compute. reflexivity.
  - vm_compute. discriminate.
  - vm_compute. reflexivity.
Qed.

(** C9, amended.  For a count of 0 [amat] is the integer 0.  For a positive
    count the constructor raises [OverflowError], or [amat] is a double
    that differs from the quotient [total_time / num_requests] by at most
    half a unit in its last place.  There is no overflow when [total_time]
    is below [2 ^ 1023] in absolute value, and [amat] is the quotient
    itself when that is an integer of at most [2 ^ 53] in absolute
    value. *)
Theorem amat_is_nearest_double
    (h : MemoryHierarchy.t) (total_time num_requests : Z) :
  0 <= num_requests ->
  (num_requests = 0 ->
   PerformanceAnalyzer.init h total_time num_requests
   = Ok (PerformanceAnalyzer.mk h total_time num_requests (Int 0)))
  ∧ (0 < num_requests ->
     PerformanceAnalyzer.init h total_time num_requests = Raise OverflowError
     ∨ exists x,
         PerformanceAnalyzer.init h total_time num_requests
         = Ok (PerformanceAnalyzer.mk h total_time num_requests (Float x))
         ∧ is_double x
         ∧ (2 * Qabs (float_value x
                      - inject_Z total_time / inject_Z num_requests)
            <= ulp x)%Q)
  ∧ (0 < num_requests -> in_double_range total_time = true ->
     exists x,
       PerformanceAnalyzer.init h total_time num_requests
       = Ok (PerformanceAnalyzer.mk h total_time num_requests (Float x)))
  ∧ (forall k : Z,
       0 < num_requests -> total_time = k * num_requests ->
       Z.abs k <= 2 ^ 53 ->
       exists x,
         PerformanceAnalyzer.init h total_time num_requests
         = Ok (PerformanceAnalyzer.mk h total_time num_requests (Float x))
         ∧ (float_value x == inject_Z k)%Q).
Proof.
  intros Hn. split_and!.
  - intros ->. reflexivity.
  - intros Hpos.
    destruct (analyzer_init_cases h total_time num_requests Hpos)
      as [(x & -> & Hx)|[-> _]]; [right | by left].
    exists x. split; [done|]. split; [by eapply truediv_double|].
    by destruct (truediv_error _ _ _ Hpos Hx) as (Herr & _).
  - intros Hpos Hr. apply Z.ltb_lt in Hr.
    destruct (analyzer_init_cases h total_time num_requests Hpos)
      as [(x & -> & _)|[_ Hx]]; [eauto|].
    destruct (truediv_in_range total_time num_requests ltac:(lia) Hr)
      as [y Hy].
    congruence.
  - intros k Hpos -> Hk.
    destruct (truediv_exact k num_requests Hpos Hk) as (x & Hx & Hv).
    exists x. split; [|done].
    rewrite analyzer_init_unfold, Hx.
    by destruct (Z.gtb_spec num_requests 0) as [_|]; [|lia].
Qed.

Lemma amat_is_nearest_double_witness :
  PerformanceAnalyzer.init demo_hierarchy 10 0
  = Ok (PerformanceAnalyzer.mk demo_hierarchy 10 0 (Int 0))
  ∧ exists x,
      PerformanceAnalyzer.init demo_hierarchy 10 2
      = Ok (PerformanceAnalyzer.mk demo_hierarchy 10 2 (Float x))
      ∧ (float_value x == inject_Z 5)%Q.
Proof.
  split.
  - apply (proj1 (amat_is_nearest_double demo_hierarchy 10 0 ltac:(lia))).
    reflexivity.
  - apply (proj2 (proj2 (proj2
             (amat_is_nearest_double demo_hierarchy 10 2 ltac:(lia))))).
    + lia.
    + reflexivity.
    + vm_compute. discriminate.
Defined.

(** C10.  In every hierarchy that [access_memory] calls can produce from a
    newly constructed one, the disk level's [misses] is 0.  Of the disk
    level only [hits], which never decreases, and [sets] change: its other
    fields are those it was constructed with.  Every further
    [access_memory] call returns. *)
Theorem disk_level_never_misses
    (c : MemoryHierarchy.config) (h0 h : MemoryHierarchy.t) :
  MemoryHierarchy.init c = Ok h0 ->
  reachable h0 h ->
  CacheLevel.misses (MemoryHierarchy.disk_level h) = 0
  ∧ same_shape (MemoryHierarchy.disk_level h0) (MemoryHierarchy.disk_level h)
  ∧ 0 <= CacheLevel.hits (MemoryHierarchy.disk_level h)
  ∧ (forall (address : Z) (w : World),
       exists h' r w',
         MemoryHierarchy.access_memory h address w = Ok (h', r, w')).
Proof.
  intros Hinit Hreach.
  destruct (hierarchy_init_Ok _ _ Hinit) as (Hsafe & Hh0 & Hm0).
  destruct (reachable_disk _ _ Hreach) as (Hs & Hm & Hh).
  split_and!.
  - congruence.
  - exact Hs.
  - lia.
  - intros address w.
    destruct (access_memory_total h address w
                (reachable_safe _ _ Hsafe Hreach)) as (h' & r & w' & Hrun & _).
    eauto.
Qed.

Lemma disk_level_never_misses_witness :
  CacheLevel.misses (MemoryHierarchy.disk_level demo_after_hit.1.1) = 0.
Proof.
  assert (MemoryHierarchy.init demo_config = Ok demo_hierarchy) as Hinit
    by (vm_compute; reflexivity).
  assert (reachable demo_hierarchy demo_after_hit.1.1) as Hreach.
  { eapply (reachable_step _ demo_after_five.1.1 0 demo_after_five.2
              _ demo_after_hit.1.2 demo_after_hit.2).
    - eapply (run_trace_reachable demo_hierarchy
                [0; 8192; 16384; 24576; 32768] demo_hierarchy 0
                ticking_world _ demo_after_five.1.2 demo_after_five.2).
      + apply reachable_start.
      + vm_compute; reflexivity.
    - vm_compute; reflexivity. }
  exact (proj1 (disk_level_never_misses demo_config demo_hierarchy
                  demo_after_hit.1.1 Hinit Hreach)).
Defined.

(** * Further properties of the code *)

(** ** Victim selection *)

Lemma first_min_from_spec {A} (key : A -> Z) xs :
  forall pre best_i bx,
    pre !! best_i = Some bx ->
    (forall y, y ∈ pre -> key bx <= key y) ->
    (forall j y, (j < best_i)%nat -> pre !! j = Some y -> key bx < key y) ->
    exists b,
      (pre ++ xs) !! first_best_from Z.ltb key best_i (key bx) (length pre) xs
      = Some b
      ∧ (forall y, y ∈ pre ++ xs -> key b <= key y)
      ∧ (forall j y,
           (j < first_best_from Z.ltb key best_i (key bx) (length pre) xs)%nat ->
           (pre ++ xs) !! j = Some y -> key b < key y).
Proof.
  induction xs as [|x xs IH]; intros pre best_i bx Hb Hmin Hfirst; simpl.
  - exists bx. rewrite app_nil_r. done.
  - assert (length (pre ++ [x]) = S (length pre)) as Hlen
      by (rewrite length_app; simpl; lia).
    replace (pre ++ x :: xs) with ((pre ++ [x]) ++ xs)
      by (by rewrite <- app_assoc).
    rewrite <- Hlen.
    destruct (Z.ltb_spec (key x) (key bx)) as [Hlt|Hge].
    + apply IH.
      * rewrite lookup_app_r by lia. by rewrite Nat.sub_diag.
      * intros y [Hy|Hy%list_elem_of_singleton]%elem_of_app.
        -- specialize (Hmin y Hy). lia.
        -- subst. lia.
      * intros j y Hj Hy. rewrite lookup_app_l in Hy by lia.
        specialize (Hmin y (list_elem_of_lookup_2 _ _ _ Hy)). lia.
    + apply IH.
      * by apply lookup_app_l_Some.
      * intros y [Hy|Hy%list_elem_of_singleton]%elem_of_app.
        -- by apply Hmin.
        -- subst. lia.
      * intros j y Hj Hy.
        pose proof (lookup_lt_Some _ _ _ Hb) as Hbi.
        rewrite lookup_app_l in Hy by lia. by eapply Hfirst.
Qed.

Lemma py_min_index_spec {A} (key : A -> Z) xs :
  xs <> [] ->
  exists i b,
    py_min_index key xs = Some i
    ∧ xs !! i = Some b
    ∧ (forall y, y ∈ xs -> key b <= key y)
    ∧ (forall j y, (j < i)%nat -> xs !! j = Some y -> key b < key y).
Proof.
  destruct xs as [|x xs]; [done|]. intros _. simpl.
  destruct (first_min_from_spec key xs [x] 0%nat x) as (b & Hb & Hmin & Hfirst).
  - done.
  - intros y ->%list_elem_of_singleton. lia.
  - intros j y Hj. lia.
  - simpl in *. eauto 10.
Qed.

Lemma first_best_from_gtb {A} (key : A -> Z) xs :
  forall best_i best_v i,
    first_best_from Z.gtb key best_i best_v i xs
    = first_best_from Z.ltb (fun x => - key x) best_i (- best_v) i xs.
Proof.
  induction xs as [|x xs IH]; intros best_i best_v i; simpl; [done|].
  replace (key x >? best_v) with (- key x <? - best_v)
    by (rewrite Z.gtb_ltb; destruct (Z.ltb_spec (- key x) (- best_v)),
          (Z.ltb_spec best_v (key x)); lia || done).
  destruct (- key x <? - best_v); apply IH.
Qed.

Lemma py_max_index_spec {A} (key : A -> Z) xs :
  xs <> [] ->
  exists i b,
    py_max_index key xs = Some i
    ∧ xs !! i = Some b
    ∧ (forall y, y ∈ xs -> key y <= key b)
    ∧ (forall j y, (j < i)%nat -> xs !! j = Some y -> key y < key b).
Proof.
  intros Hne.
  destruct (py_min_index_spec (fun x => - key x) xs Hne)
    as (i & b & Hi & Hb & Hmin & Hfirst).
  exists i, b. split_and!.
  - destruct xs as [|x xs]; [done|]. simpl in *.
    by rewrite first_best_from_gtb.
  - done.
  - intros y Hy. specialize (Hmin y Hy). simpl in Hmin. lia.
  - intros j y Hj Hy. specialize (Hfirst j y Hj Hy). simpl in Hfirst. lia.
Qed.

Lemma replace_by_min (key : CacheBlock.t -> Z) s w :
  CacheSet.blocks s <> [] ->
  CacheSet.choose_victim s w = (py_min_index key (CacheSet.blocks s), w) ->
  evicts_first_smallest key s w.
Proof.
  intros Hne Hv.
  destruct (py_min_index_spec key (CacheSet.blocks s) Hne)
    as (i & b & Hi & Hb & Hmin & Hfirst).
  exists i, b. split_and!; try done.
  unfold CacheSet.replace. rewrite Hv, Hi.
  by destruct (CacheSet.blocks s).
Qed.

(** X1.  With the policies LRU, LFU and FIFO, [replace] on a set that is
    not empty removes exactly one block: the first one, in list order,
    among those with the smallest [last_access], [access_count] and
    [insertion_time] respectively.  It reads neither the clock nor the
    random generator. *)
Theorem replace_evicts_first_smallest (s : CacheSet.t) (w : World) :
  CacheSet.blocks s <> [] ->
  (CacheSet.policy s = "LRU" ->
   evicts_first_smallest CacheBlock.last_access s w)
  ∧ (CacheSet.policy s = "LFU" ->
     evicts_first_smallest CacheBlock.access_count s w)
  ∧ (CacheSet.policy s = "FIFO" ->
     evicts_first_smallest CacheBlock.insertion_time s w).
Proof.
  intros Hne. split_and!; intros Hp; apply replace_by_min; try done;
    unfold CacheSet.choose_victim; by rewrite Hp.
Qed.

Lemma replace_evicts_first_smallest_witness :
  evicts_first_smallest CacheBlock.access_count
    (CacheSet.mk 2 [CacheBlock.mk 7 5 1 3; CacheBlock.mk 8 6 2 1] "LFU")
    ticking_world.
Proof.
  apply (proj1 (proj2 (replace_evicts_first_smallest
           (CacheSet.mk 2 [CacheBlock.mk 7 5 1 3; CacheBlock.mk 8 6 2 1] "LFU")
           ticking_world ltac:(discriminate))) eq_refl).
Defined.

(** X2.  With the policy MRU, [replace] on a set that is not empty removes
    exactly one block: the first one, in list order, among those with the
    largest [last_access]. *)
Theorem replace_mru_evicts_first_largest (s : CacheSet.t) (w : World) :
  CacheSet.blocks s <> [] ->
  CacheSet.policy s = "MRU" ->
  evicts_first_largest CacheBlock.last_access s w.
Proof.
  intros Hne Hp.
  destruct (py_max_index_spec CacheBlock.last_access (CacheSet.blocks s) Hne)
    as (i & b & Hi & Hb & Hmax & Hfirst).
  exists i, b. split_and!; try done.
  unfold CacheSet.replace, CacheSet.choose_victim. rewrite Hp. simpl.
  rewrite Hi. by destruct (CacheSet.blocks s).
Qed.

Lemma replace_mru_evicts_first_largest_witness :
  evicts_first_largest CacheBlock.last_access
    (CacheSet.mk 2 [CacheBlock.mk 7 5 1 3; CacheBlock.mk 8 6 2 1] "MRU")
    ticking_world.
Proof.
  apply (replace_mru_evicts_first_largest
           (CacheSet.mk 2 [CacheBlock.mk 7 5 1 3; CacheBlock.mk 8 6 2 1] "MRU")
           ticking_world).
  - discriminate.
  - reflexivity.
Defined.

Lemma choose_victim_unknown s w :
  ~ known_policy (CacheSet.policy s) ->
  CacheSet.choose_victim s w = (None, w).
Proof.
  intros Hp. unfold known_policy in Hp.
  rewrite !elem_of_cons, elem_of_nil in Hp.
  unfold CacheSet.choose_victim.
  destruct (String.eqb_spec (CacheSet.policy s) "LRU"); [tauto|].
  destruct (String.eqb_spec (CacheSet.policy s) "MRU"); [tauto|].
  destruct (String.eqb_spec (CacheSet.policy s) "LFU"); [tauto|].
  destruct (String.eqb_spec (CacheSet.policy s) "FIFO"); [tauto|].
  destruct (String.eqb_spec (CacheSet.policy s) "Random"); [tauto|].
  reflexivity.
Qed.

(** X3.  With a policy name that [replace] does not recognise no block is
    ever evicted: [insert] of a tag that is not resident appends a block
    and keeps all the others, also in a set that is already full, so the
    set outgrows its capacity. *)
Theorem insert_unknown_policy_never_evicts
    (s : CacheSet.t) (tag : Z) (w : World) :
  ~ known_policy (CacheSet.policy s) ->
  tag ∉ CacheSet.tags s ->
  CacheSet.tags (CacheSet.insert s tag w).1 = CacheSet.tags s ++ [tag]
  ∧ length (CacheSet.blocks (CacheSet.insert s tag w).1)
    = S (length (CacheSet.blocks s)).
Proof.
  intros Hp Habs. unfold CacheSet.insert, CacheSet.tags in *.
  apply (touch_first_None tag _ w) in Habs. rewrite Habs.
  assert (CacheSet.replace s w = (s, w)) as Hr.
  { unfold CacheSet.replace. rewrite (choose_victim_unknown s w Hp).
    by destruct (CacheSet.blocks s). }
  rewrite Hr.
  destruct (Z.of_nat (length (CacheSet.blocks s)) >=? CacheSet.capacity s);
    unfold CacheBlock.init, time_time; simpl;
    rewrite fmap_app, length_app; simpl; split; (done || lia).
Qed.

Lemma insert_unknown_policy_never_evicts_witness :
  CacheSet.tags
    (CacheSet.insert (CacheSet.mk 1 [CacheBlock.mk 7 5 1 3] "CLOCK") 9
       ticking_world).1
  = [7; 9].
Proof.
  apply (proj1 (insert_unknown_policy_never_evicts
                  (CacheSet.mk 1 [CacheBlock.mk 7 5 1 3] "CLOCK") 9
                  ticking_world
                  ltac:(apply (bool_decide_unpack _); vm_compute; reflexivity)
                  ltac:(apply (bool_decide_unpack _); vm_compute;
                        reflexivity))).
Defined.

(** ** CacheSet: what [access] and [insert] do *)

Lemma touch_first_Some_spec tag bs w :
  tag ∈ CacheBlock.tag <$> bs ->
  exists i b,
    bs !! i = Some b
    ∧ CacheBlock.tag b = tag
    ∧ (forall j b', (j < i)%nat -> bs !! j = Some b' ->
         CacheBlock.tag b' <> tag)
    ∧ CacheSet.touch_first tag bs w
      = Some (<[i := CacheBlock.mk tag (time_src w (ticks w))
                       (CacheBlock.insertion_time b)
                       (CacheBlock.access_count b + 1)]> bs,
              (time_time w).2).
Proof.
  induction bs as [|b0 bs IH]; simpl.
  - intros H. by apply elem_of_nil in H.
  - destruct (Z.eqb_spec (CacheBlock.tag b0) tag) as [Heq|Hne].
    + intros _. exists 0%nat, b0. split_and!; try done.
      * intros j b' Hj. lia.
      * unfold CacheBlock.touch, time_time. simpl. by rewrite Heq.
    + intros [Heq|Hin]%elem_of_cons; [congruence|].
      destruct (IH Hin) as (i & b & Hb & Htag & Hfirst & Ht).
      exists (S i), b. split_and!; try done.
      * intros [|j] b' Hj; simpl.
        -- by intros [= <-].
        -- apply Hfirst. lia.
      * by rewrite Ht.
Qed.

(** X4.  [CacheSet.access] reports a hit exactly when a block carries the
    tag.  On a miss it changes nothing: the set is returned as it was and
    the clock is not read. *)
Theorem set_access_miss_changes_nothing
    (s : CacheSet.t) (tag : Z) (w : World) :
  (CacheSet.access s tag w).1.2 = bool_decide (tag ∈ CacheSet.tags s)
  ∧ (tag ∉ CacheSet.tags s -> CacheSet.access s tag w = (s, false, w)).
Proof.
  split.
  - destruct (decide (tag ∈ CacheSet.tags s)) as [Hin|Hout].
    + rewrite bool_decide_eq_true_2 by done. by apply set_access_hit_iff.
    + rewrite bool_decide_eq_false_2 by done.
      destruct ((CacheSet.access s tag w).1.2) eqn:E; [|done].
      by apply set_access_hit_iff in E.
  - intros Hout. unfold CacheSet.access.
    apply (touch_first_None tag _ w) in Hout. by rewrite Hout.
Qed.

Lemma set_access_miss_changes_nothing_witness :
  CacheSet.access (CacheSet.mk 2 [CacheBlock.mk 7 5 1 3] "LRU") 9
    ticking_world
  = (CacheSet.mk 2 [CacheBlock.mk 7 5 1 3] "LRU", false, ticking_world).
Proof.
  apply (proj2 (set_access_miss_changes_nothing
                  (CacheSet.mk 2 [CacheBlock.mk 7 5 1 3] "LRU") 9
                  ticking_world)).
  apply (bool_decide_unpack _). vm_compute. reflexivity.
Defined.

Lemma set_touch_resident_aux (s : CacheSet.t) (tag : Z) (w : World) :
  tag ∈ CacheSet.tags s ->
  exists i b,
    CacheSet.blocks s !! i = Some b
    ∧ CacheBlock.tag b = tag
    ∧ (forall j b', (j < i)%nat -> CacheSet.blocks s !! j = Some b' ->
         CacheBlock.tag b' <> tag)
    ∧ let s' :=
        CacheSet.mk (CacheSet.capacity s)
          (<[i := CacheBlock.mk tag (time_src w (ticks w))
                    (CacheBlock.insertion_time b)
                    (CacheBlock.access_count b + 1)]> (CacheSet.blocks s))
          (CacheSet.policy s) in
      CacheSet.access s tag w = (s', true, (time_time w).2)
      ∧ CacheSet.insert s tag w = (s', (time_time w).2).
Proof.
  intros Hin.
  destruct (touch_first_Some_spec tag (CacheSet.blocks s) w Hin)
    as (i & b & Hb & Htag & Hfirst & Ht).
  exists i, b. split_and!; try done.
  unfold CacheSet.access, CacheSet.insert. by rewrite Ht.
Qed.

(** X5.  On a resident tag [access] and [insert] do the same thing: the
    first block carrying the tag gets the current clock reading as
    [last_access] and its [access_count] incremented; its [insertion_time],
    every other block and the order of the blocks stay, nothing is evicted,
    and the clock is read once. *)
Theorem set_touch_resident (s : CacheSet.t) (tag : Z) (w : World) :
  tag ∈ CacheSet.tags s ->
  exists i b,
    CacheSet.blocks s !! i = Some b
    ∧ CacheBlock.tag b = tag
    ∧ (forall j b', (j < i)%nat -> CacheSet.blocks s !! j = Some b' ->
         CacheBlock.tag b' <> tag)
    ∧ let s' :=
        CacheSet.mk (CacheSet.capacity s)
          (<[i := CacheBlock.mk tag (time_src w (ticks w))
                    (CacheBlock.insertion_time b)
                    (CacheBlock.access_count b + 1)]> (CacheSet.blocks s))
          (CacheSet.policy s) in
      CacheSet.access s tag w = (s', true, (time_time w).2)
      ∧ CacheSet.insert s tag w = (s', (time_time w).2).
Proof. exact (set_touch_resident_aux s tag w). Qed.

Lemma set_touch_resident_witness :
  exists i b,
    [CacheBlock.mk 7 5 1 3; CacheBlock.mk 8 6 2 1] !! i = Some b
    ∧ CacheSet.insert
        (CacheSet.mk 2 [CacheBlock.mk 7 5 1 3; CacheBlock.mk 8 6 2 1] "LRU")
        8 ticking_world
      = (CacheSet.mk 2
           (<[i := CacheBlock.mk 8 0 (CacheBlock.insertion_time b)
                     (CacheBlock.access_count b + 1)]>
              [CacheBlock.mk 7 5 1 3; CacheBlock.mk 8 6 2 1]) "LRU",
         (time_time ticking_world).2).
Proof.
  destruct (set_touch_resident
              (CacheSet.mk 2 [CacheBlock.mk 7 5 1 3; CacheBlock.mk 8 6 2 1]
                 "LRU") 8 ticking_world)
    as (i & b & Hb & _ & _ & _ & Hi).
  - apply (bool_decide_unpack _). vm_compute. reflexivity.
  - exists i, b. split; [exact Hb | exact Hi].
Defined.

Lemma set_insert_absent_aux (s : CacheSet.t) (tag : Z) (w : World) :
  tag ∉ CacheSet.tags s ->
  (Z.of_nat (length (CacheSet.blocks s)) < CacheSet.capacity s ->
   CacheSet.tags (CacheSet.insert s tag w).1 = CacheSet.tags s ++ [tag])
  ∧ (CacheSet.capacity s <= Z.of_nat (length (CacheSet.blocks s)) ->
     known_policy (CacheSet.policy s) ->
     CacheSet.blocks s <> [] ->
     exists i, (i < length (CacheSet.blocks s))%nat
               ∧ CacheSet.tags (CacheSet.insert s tag w).1
                 = delete i (CacheSet.tags s) ++ [tag]).
Proof.
  intros Hout. unfold CacheSet.insert, CacheSet.tags in *.
  apply (touch_first_None tag _ w) in Hout. rewrite Hout. split.
  - intros Hroom.
    destruct (Z.geb_spec (Z.of_nat (length (CacheSet.blocks s)))
                (CacheSet.capacity s)); [lia|].
    unfold CacheBlock.init, time_time. simpl. by rewrite fmap_app.
  - intros Hfull Hp Hne.
    destruct (Z.geb_spec (Z.of_nat (length (CacheSet.blocks s)))
                (CacheSet.capacity s)); [|lia].
    destruct (choose_victim_known s w Hp Hne) as (i & w' & Hv & Hi).
    exists i. split; [done|].
    unfold CacheSet.replace. rewrite Hv.
    destruct (CacheSet.blocks s) as [|b bs] eqn:E; [done|].
    unfold CacheBlock.init, time_time. simpl.
    by rewrite fmap_app, list_fmap_delete.
Qed.

(** X6.  [insert] of a tag that is not resident: when the set has room
    ([len(blocks) < capacity]) the tag is appended and every resident tag
    stays; when the set is full, not empty and has one of the five
    policies, exactly one resident tag is removed and the new tag is
    appended. *)
Theorem set_insert_absent (s : CacheSet.t) (tag : Z) (w : World) :
  tag ∉ CacheSet.tags s ->
  (Z.of_nat (length (CacheSet.blocks s)) < CacheSet.capacity s ->
   CacheSet.tags (CacheSet.insert s tag w).1 = CacheSet.tags s ++ [tag])
  ∧ (CacheSet.capacity s <= Z.of_nat (length (CacheSet.blocks s)) ->
     known_policy (CacheSet.policy s) ->
     CacheSet.blocks s <> [] ->
     exists i, (i < length (CacheSet.blocks s))%nat
               ∧ CacheSet.tags (CacheSet.insert s tag w).1
                 = delete i (CacheSet.tags s) ++ [tag]).
Proof. exact (set_insert_absent_aux s tag w). Qed.

Lemma set_insert_absent_witness :
  CacheSet.tags
    (CacheSet.insert (CacheSet.mk 2 [CacheBlock.mk 7 5 1 3] "LRU") 9
       ticking_world).1
  = [7; 9].
Proof.
  apply (proj1 (set_insert_absent
                  (CacheSet.mk 2 [CacheBlock.mk 7 5 1 3] "LRU") 9
                  ticking_world
                  ltac:(apply (bool_decide_unpack _); vm_compute;
                        reflexivity))).
  simpl. lia.
Defined.

Lemma set_insert_single_way_aux (s : CacheSet.t) (tag : Z) (w : World) :
  CacheSet.capacity s <= 1 ->
  (length (CacheSet.blocks s) <= 1)%nat ->
  known_policy (CacheSet.policy s) ->
  CacheSet.tags (CacheSet.insert s tag w).1 = [tag].
Proof.
  intros Hcap Hlen Hp.
  destruct (decide (tag ∈ CacheSet.tags s)) as [Hin|Hout].
  - destruct (set_touch_resident_aux s tag w Hin)
      as (i & b & Hb & Htag & _ & _ & ->).
    unfold CacheSet.tags. simpl.
    destruct (CacheSet.blocks s) as [|b0 [|b1 bs]]; simpl in *; [done| |lia].
    destruct i; simpl in *; [done|discriminate].
  - destruct (set_insert_absent_aux s tag w Hout) as [Hroom Hfull].
    destruct (CacheSet.blocks s) as [|b0 [|b1 bs]] eqn:E; simpl in *; [| |lia].
    + clear Hroom Hfull Hout Hp. destruct s as [cap bs p]. simpl in E.
      subst bs. unfold CacheSet.insert, CacheSet.replace. simpl.
      by destruct (_ >=? cap).
    + destruct Hfull as (i & Hi & ->); [lia|done|done|].
      unfold CacheSet.tags. rewrite E.
      destruct i; [done | simpl in Hi; lia].
Qed.

(** X7.  A set whose capacity is at most 1, which holds at most one block
    and has one of the five policies, holds after [insert(tag)] exactly
    the block of [tag]: every insertion of another tag evicts the block
    that was there.  This covers direct-mapped levels, and also a
    capacity of 0 or less, where the set still keeps one block. *)
Theorem set_insert_single_way (s : CacheSet.t) (tag : Z) (w : World) :
  CacheSet.capacity s <= 1 ->
  (length (CacheSet.blocks s) <= 1)%nat ->
  known_policy (CacheSet.policy s) ->
  CacheSet.tags (CacheSet.insert s tag w).1 = [tag].
Proof. exact (set_insert_single_way_aux s tag w). Qed.

Lemma set_insert_single_way_witness :
  CacheSet.tags
    (CacheSet.insert (CacheSet.mk 1 [CacheBlock.mk 7 5 1 3] "FIFO") 9
       ticking_world).1
  = [9].
Proof.
  apply (set_insert_single_way
           (CacheSet.mk 1 [CacheBlock.mk 7 5 1 3] "FIFO") 9 ticking_world).
  - simpl. lia.
  - simpl. lia.
  - unfold known_policy. repeat constructor.
Defined.

(** ** CacheLevel *)

(** X8.  Address decomposition loses nothing but the offset inside the
    block: with positive [block_size] and [num_sets], the index lies in
    [0, num_sets), the address is
    [(tag * num_sets + index) * block_size + offset] with an offset in
    [0, block_size), and two addresses decompose to the same index and tag
    exactly when they lie in the same block. *)
Theorem decomposition_identifies_block
    (l : CacheLevel.t) (address index tag : Z) :
  0 < CacheLevel.block_size l ->
  0 < CacheLevel.num_sets l ->
  CacheLevel.get_index_and_tag l address = Ok (index, tag) ->
  0 <= index < CacheLevel.num_sets l
  ∧ (exists offset,
       0 <= offset < CacheLevel.block_size l
       ∧ address
         = (tag * CacheLevel.num_sets l + index) * CacheLevel.block_size l
           + offset)
  ∧ (forall address',
       CacheLevel.get_index_and_tag l address' = Ok (index, tag)
       <-> address' / CacheLevel.block_size l
           = address / CacheLevel.block_size l).
Proof.
  intros Hb Hn Hd.
  assert (divides_safely l) as Hs by (split; lia).
  rewrite (get_index_and_tag_total l address Hs) in Hd.
  injection Hd as <- <-.
  set (bs := CacheLevel.block_size l) in *.
  set (ns := CacheLevel.num_sets l) in *.
  split; [|split].
  - apply Z.mod_pos_bound. lia.
  - exists (address mod bs). split; [apply Z.mod_pos_bound; lia|].
    pose proof (Z.div_mod address bs ltac:(lia)) as H1.
    pose proof (Z.div_mod (address / bs) ns ltac:(lia)) as H2.
    nia.
  - intros address'. rewrite (get_index_and_tag_total l address' Hs).
    fold bs ns. split.
    + intros [= Hi Ht].
      pose proof (Z.div_mod (address / bs) ns ltac:(lia)) as H1.
      pose proof (Z.div_mod (address' / bs) ns ltac:(lia)) as H2.
      rewrite Hi, Ht in H2. lia.
    + by intros ->.
Qed.

Lemma decomposition_identifies_block_witness :
  0 <= 3 < 128
  ∧ (exists offset, 0 <= offset < 64 ∧ 8400 = (1 * 128 + 3) * 64 + offset).
Proof.
  destruct (decomposition_identifies_block
              (CacheLevel.mk "L1 Cache" 32768 64 4 1 "LRU" 128 ∅ 0 0)
              8400 3 1) as (H1 & H2 & _).
  - simpl. lia.
  - simpl. lia.
  - reflexivity.
  - split; [exact H1 | exact H2].
Defined.

Lemma level_insert_then_probe_same_block l address w l' w' address' :
  CacheLevel.insert l address w = Ok (l', w') ->
  address' / CacheLevel.block_size l = address / CacheLevel.block_size l ->
  probe_hits l' address'.
Proof.
  intros Hi Hblock.
  destruct (level_insert_Ok_decomposes _ _ _ _ Hi) as (i & t & Hd).
  pose proof (get_index_and_tag_Ok _ _ _ _ Hd) as Hs.
  assert (CacheLevel.get_index_and_tag l address'
          = CacheLevel.get_index_and_tag l address) as Hsame.
  { rewrite !get_index_and_tag_total by done. by rewrite Hblock. }
  assert (CacheLevel.insert l address' w = Ok (l', w')) as Hi'.
  { unfold CacheLevel.insert in *. by rewrite Hsame. }
  by eapply level_insert_then_probe_hits.
Qed.

(** X9.  After [insert(address)] a probe of any address of the same block
    ([address' // block_size = address // block_size]) hits. *)
Theorem insert_then_probe_same_block_hits
    (l : CacheLevel.t) (address : Z) (w : World)
    (l' : CacheLevel.t) (w' : World) (address' : Z) :
  CacheLevel.insert l address w = Ok (l', w') ->
  address' / CacheLevel.block_size l = address / CacheLevel.block_size l ->
  forall w0 : World, exists l'' w1,
    CacheLevel.access l' address' w0 = Ok (l'', true, w1)
    ∧ CacheLevel.hits l'' = CacheLevel.hits l + 1
    ∧ CacheLevel.misses l'' = CacheLevel.misses l.
Proof.
  intros Hi Hblock w0.
  destruct (level_insert_then_probe_same_block _ _ _ _ _ _ Hi Hblock w0)
    as (l'' & w1 & Ha).
  exists l'', w1. split; [done|].
  destruct (level_insert_counters _ _ _ _ _ Hi) as [Hh Hm].
  destruct (level_access_Ok_decomposes _ _ _ _ Ha) as (i & t & Hd).
  pose proof (level_access_counters _ _ _ _ _ _ _ _ Ha Hd) as Hc.
  destruct (CacheLevel.sets l' !! i).
  - destruct Hc as [Hc1 Hc2]. lia.
  - by destruct Hc as (_ & ? & _).
Qed.

Lemma insert_then_probe_same_block_hits_witness :
  exists l'' w1,
    CacheLevel.access tiny_level_warm 63 ticking_world = Ok (l'', true, w1)
    ∧ CacheLevel.hits l'' = CacheLevel.hits tiny_level + 1
    ∧ CacheLevel.misses l'' = CacheLevel.misses tiny_level.
Proof.
  apply (insert_then_probe_same_block_hits tiny_level 0 ticking_world
           tiny_level_warm
           (unwrap (tiny_level, ticking_world)
              (CacheLevel.insert tiny_level 0 ticking_world)).2 63).
  - vm_compute. reflexivity.
  - reflexivity.
Defined.

(** X10.  Constructing a [CacheLevel] raises [ZeroDivisionError] exactly
    when [block_size] is 0; with another block size it returns a level or
    raises the [OverflowError] of the float division.  For a size below
    [2 ^ 53] in absolute value it returns the level whose number of set
    indices is the truncated quotient of the size by [block_size *
    associativity], or 1 if that is larger (1 for associativity 0, where
    the associativity becomes the truncated quotient of the size by the
    block size).  Every constructed level has the fields it was given, at
    least one set index, no set and zero counters; no sequence of [access]
    and [insert] calls on it raises, and until the first [insert] every
    probe is a miss that leaves the level, counters included, as it was. *)
Theorem level_construction
    (name : string) (size_bytes block_size associativity access_time : Z)
    (policy : string) :
  (CacheLevel.init name size_bytes block_size associativity access_time policy
   = Raise ZeroDivisionError
   <-> block_size = 0)
  ∧ (block_size <> 0 ->
     (exists l,
        CacheLevel.init name size_bytes block_size associativity access_time
          policy = Ok l)
     ∨ CacheLevel.init name size_bytes block_size associativity access_time
         policy = Raise OverflowError)
  ∧ (block_size <> 0 -> Z.abs size_bytes < 2 ^ 53 ->
     CacheLevel.init name size_bytes block_size associativity access_time
       policy
     = Ok (CacheLevel.mk name size_bytes block_size
             (if associativity =? 0 then Z.quot size_bytes block_size
              else associativity)
             access_time policy
             (if associativity =? 0 then 1
              else Z.max 1 (Z.quot size_bytes (block_size * associativity)))
             ∅ 0 0))
  ∧ (forall l,
       CacheLevel.init name size_bytes block_size associativity access_time
         policy = Ok l ->
       CacheLevel.name l = name
       ∧ CacheLevel.size l = size_bytes
       ∧ CacheLevel.block_size l = block_size
       ∧ CacheLevel.access_time l = access_time
       ∧ CacheLevel.policy l = policy
       ∧ (associativity <> 0 -> CacheLevel.associativity l = associativity)
       ∧ 1 <= CacheLevel.num_sets l
       ∧ (associativity = 0 -> CacheLevel.num_sets l = 1)
       ∧ CacheLevel.sets l = ∅
       ∧ CacheLevel.hits l = 0 ∧ CacheLevel.misses l = 0
       ∧ (forall ops w, is_ok (run_level_ops l ops w) = true)
       ∧ (forall address w,
            CacheLevel.access l address w = Ok (l, false, w))).
Proof.
  split_and!.
  - apply level_init_ZeroDivisionError.
  - apply level_init_cases.
  - intros Hb Hs. rewrite level_init_raises.
    rewrite <- (level_init_divisor block_size associativity) in Hb.
    rewrite (int_truediv_small _ _ Hb Hs).
    by destruct (associativity =? 0).
  - intros l Hl.
    destruct (level_init_Ok _ _ _ _ _ _ _ Hl) as (Hsafe & Hh & Hm & He).
    revert Hl. rewrite level_init_raises.
    destruct (int_truediv _ _) as [q|]; [|discriminate].
    intros [= Hl].
    assert (1 <= CacheLevel.num_sets l) as Hn.
    { rewrite <- Hl. simpl. destruct (associativity =? 0); lia. }
    split_and!; try done; try (by rewrite <- Hl).
    + intros Ha. rewrite <- Hl. simpl.
      by destruct (Z.eqb_spec associativity 0).
    + intros ->. by rewrite <- Hl.
    + intros ops w.
      by destruct (run_level_ops_counters ops l w Hsafe)
        as (l' & n & w' & -> & _).
    + intros address w.
      rewrite (level_access_unfold l address w _ _
                 (get_index_and_tag_total l address Hsafe)).
      simpl. by rewrite He, lookup_empty.
Qed.

Lemma level_construction_witness :
  CacheLevel.init "L1 Cache" 32768 64 4 1 "LRU"
  = Ok (CacheLevel.mk "L1 Cache" 32768 64 4 1 "LRU" 128 ∅ 0 0)
  ∧ ((exists l, CacheLevel.init "L1 Cache" (10 ^ 400) 64 4 1 "LRU" = Ok l)
     ∨ CacheLevel.init "L1 Cache" (10 ^ 400) 64 4 1 "LRU"
       = Raise OverflowError).
Proof.
  split.
  - apply (proj1 (proj2 (proj2
             (level_construction "L1 Cache" 32768 64 4 1 "LRU")))).
    + lia.
    + reflexivity.
  - apply (proj1 (proj2
             (level_construction "L1 Cache" (10 ^ 400) 64 4 1 "LRU"))).
    lia.
Defined.

(** X11.  [access] and [insert] work on one set only, the one at the index
    of the address: every other index keeps its set, or stays without one.
    [access] creates no set; [insert] creates the set of its index if the
    index had none. *)
Theorem level_calls_touch_one_index
    (l : CacheLevel.t) (address index tag : Z) (w : World) :
  CacheLevel.get_index_and_tag l address = Ok (index, tag) ->
  (exists l' hit w',
     CacheLevel.access l address w = Ok (l', hit, w')
     ∧ (forall index', index' <> index ->
          CacheLevel.sets l' !! index' = CacheLevel.sets l !! index')
     ∧ dom (CacheLevel.sets l') = dom (CacheLevel.sets l))
  ∧ (exists l' w',
       CacheLevel.insert l address w = Ok (l', w')
       ∧ (forall index', index' <> index ->
            CacheLevel.sets l' !! index' = CacheLevel.sets l !! index')
       ∧ dom (CacheLevel.sets l') = {[index]} ∪ dom (CacheLevel.sets l)).
Proof.
  intros Hd. split.
  - rewrite (level_access_unfold _ _ _ _ _ Hd).
    destruct (CacheLevel.sets l !! index) as [s|] eqn:Hs.
    + eexists _, _, _. split; [reflexivity|].
      assert (forall l0, CacheLevel.sets
                (if (CacheSet.access s tag w).1.2
                 then CacheLevel.add_hit l0 else CacheLevel.add_miss l0)
              = CacheLevel.sets l0) as Hsets
        by (intros l0; by destruct (CacheSet.access s tag w).1.2).
      rewrite Hsets. simpl. split.
      * intros index' Hne. by rewrite lookup_insert_ne.
      * rewrite dom_insert_L.
        assert (index ∈ dom (CacheLevel.sets l)) as Hin
          by (apply elem_of_dom; eauto).
        apply set_eq. intros k. rewrite elem_of_union, elem_of_singleton.
        split; [intros [->|?]; done | by right].
    + eexists _, _, _. split; [reflexivity|]. done.
  - rewrite (level_insert_unfold _ _ _ _ _ Hd). simpl.
    eexists _, _. split; [reflexivity|]. simpl. split.
    + intros index' Hne. by rewrite lookup_insert_ne.
    + by rewrite dom_insert_L.
Qed.

Lemma level_calls_touch_one_index_witness :
  exists l' w',
    CacheLevel.insert tiny_level 64 ticking_world = Ok (l', w')
    ∧ dom (CacheLevel.sets l') = {[0]} ∪ dom (CacheLevel.sets tiny_level).
Proof.
  destruct (proj2 (level_calls_touch_one_index tiny_level 64 0 1
                     ticking_world eq_refl))
    as (l' & w' & Hi & _ & Hdom).
  exists l', w'. split; [exact Hi | exact Hdom].
Defined.

(** The rates of one hit and two misses are the doubles 33.33333333333333
    and 66.66666666666666. *)
Lemma get_stats_one_hit_two_misses :
  CacheLevel.get_stats (CacheLevel.mk "L1 Cache" 64 64 1 1 "LRU" 1 ∅ 1 2)
  = Ok (1, 2, Float (mkFloat 4691249611844266 (-47)),
        Float (mkFloat 4691249611844266 (-46))).
Proof. vm_compute. reflexivity. Qed.

(** X12.  [get_stats] returns the two counters and the two rates in per
    cent.  Both rates are the integer 0 when [hits + misses <= 0].  When
    neither counter is negative and one is positive, [get_stats] returns
    and each rate is a float between 0 and 100; with no hit the hit rate
    is 0 and the miss rate 100. *)
Theorem get_stats_rates (l : CacheLevel.t) :
  (CacheLevel.hits l + CacheLevel.misses l <= 0 ->
   CacheLevel.get_stats l
   = Ok (CacheLevel.hits l, CacheLevel.misses l, Int 0, Int 0))
  ∧ (0 <= CacheLevel.hits l -> 0 <= CacheLevel.misses l ->
     0 < CacheLevel.hits l + CacheLevel.misses l ->
     exists hit_rate miss_rate,
       CacheLevel.get_stats l
       = Ok (CacheLevel.hits l, CacheLevel.misses l,
             Float hit_rate, Float miss_rate)
       ∧ (0 <= float_value hit_rate <= 100)%Q
       ∧ (0 <= float_value miss_rate <= 100)%Q
       ∧ (CacheLevel.hits l = 0 ->
          (float_value hit_rate == 0)%Q ∧ (float_value miss_rate == 100)%Q)).
Proof.
  unfold CacheLevel.get_stats. split.
  - intros Hle.
    by destruct (Z.gtb_spec (CacheLevel.hits l + CacheLevel.misses l) 0);
      [lia|].
  - intros Hh Hm Hpos.
    destruct (Z.gtb_spec (CacheLevel.hits l + CacheLevel.misses l) 0)
      as [_|]; [|lia].
    set (total := CacheLevel.hits l + CacheLevel.misses l) in *.
    destruct (truediv_between 0 1 (CacheLevel.hits l) total Hpos
                ltac:(done) ltac:(done) ltac:(lia)) as (x & Hx & Hvx).
    destruct (truediv_between 0 1 (CacheLevel.misses l) total Hpos
                ltac:(done) ltac:(done) ltac:(lia)) as (y & Hy & Hvy).
    destruct (float_mul_percent x Hvx) as (hr & Hhr & Hbh).
    destruct (float_mul_percent y Hvy) as (mr & Hmr & Hbm).
    exists hr, mr. rewrite Hx, Hy.
    cbn [mbind result_bind mret result_ret]. rewrite Hhr, Hmr.
    split; [reflexivity|]. split; [exact Hbh|]. split; [exact Hbm|].
    intros Hz. rewrite Hz in Hx. subst total. rewrite Hz, Z.add_0_l in *.
    split.
    + unfold truediv in Hx.
      destruct (Z.eqb_spec (CacheLevel.misses l) 0); [lia|].
      simpl in Hx. injection Hx as <-. vm_compute in Hhr.
      by injection Hhr as <-.
    + destruct (truediv_exact 1 (CacheLevel.misses l) Hpos ltac:(done))
        as (y' & Hy' & Hv').
      rewrite Z.mul_1_l, Hy in Hy'. injection Hy' as <-.
      destruct (float_mul_percent_one y Hv') as (mr' & Hmr' & Heq).
      rewrite Hmr in Hmr'. by injection Hmr' as <-.
Qed.

Lemma get_stats_rates_witness :
  exists hit_rate miss_rate,
    CacheLevel.get_stats (CacheLevel.mk "L1 Cache" 64 64 1 1 "LRU" 1 ∅ 3 1)
    = Ok (3, 1, Float hit_rate, Float miss_rate)
    ∧ (0 <= float_value hit_rate <= 100)%Q
    ∧ (0 <= float_value miss_rate <= 100)%Q.
Proof.
  destruct (proj2 (get_stats_rates
                     (CacheLevel.mk "L1 Cache" 64 64 1 1 "LRU" 1 ∅ 3 1)))
    as (hr & mr & Hs & Hh & Hm & _).
  - simpl. lia.
  - simpl. lia.
  - simpl. lia.
  - exists hr, mr. split; [exact Hs|]. split; [exact Hh | exact Hm].
Defined.

(** ** MemoryHierarchy *)

Lemma level_step_refl address l : level_step address l l.
Proof. exists l. split; by left. Qed.

Lemma access_memory_level_steps h address w h' r w' :
  MemoryHierarchy.access_memory h address w = Ok (h', r, w') ->
  Forall2 (level_step address)
    (MemoryHierarchy.levels h) (MemoryHierarchy.levels h').
Proof.
  unfold MemoryHierarchy.access_memory.
  destruct (MemoryHierarchy.probe_levels [] (MemoryHierarchy.levels h) 0
              address w) as [[[[ls1 t1] [i1 nm|]] w1]|e] eqn:Hp;
    simpl; try discriminate.
  - intros [= <- _ _]. simpl.
    apply probe_levels_HitAt in Hp
      as (pre & pre' & li & li' & post & warmed & wa & wb
          & -> & _ & Hmiss & Hhit & _ & Hwarm & ->).
    simpl in Hwarm. apply insert_all_Forall2 in Hwarm.
    apply Forall2_app.
    + eapply Forall2_impl; [exact (Forall2_compose _ _ _ _ _ Hmiss Hwarm)|].
      intros l l' (l1 & (wc & wd & Ha) & (we & wf & Hi)).
      exists l1. split; right; eauto.
    + constructor.
      * exists li'. split; [right; eauto | by left].
      * apply Forall2_same_length_lookup. split; [done|].
        intros i x y Hx Hy. rewrite Hx in Hy. injection Hy as <-.
        apply level_step_refl.
  - destruct (CacheLevel.insert
                (CacheLevel.add_hit (MemoryHierarchy.disk_level h)) address w1)
      as [[disk2 w2]|e] eqn:Hdisk; simpl; [|discriminate].
    destruct (MemoryHierarchy.insert_all ls1 address w2) as [[ls2 w3]|e]
      eqn:Hwarm; simpl; [|discriminate].
    intros [= <- _ _]. simpl.
    apply probe_levels_NoHit in Hp as (rest' & -> & Hmiss). simpl in Hwarm.
    apply insert_all_Forall2 in Hwarm.
    eapply Forall2_impl; [exact (Forall2_compose _ _ _ _ _ Hmiss Hwarm)|].
    intros l l' (l1 & (wc & wd & Ha) & (we & wf & Hi)).
    exists l1. split; right; eauto.
Qed.

Lemma access_memory_disk_step h address w h' r w' :
  MemoryHierarchy.access_memory h address w = Ok (h', r, w') ->
  MemoryHierarchy.disk_level h' = MemoryHierarchy.disk_level h
  ∨ exists wa wb,
      CacheLevel.insert (CacheLevel.add_hit (MemoryHierarchy.disk_level h))
        address wa = Ok (MemoryHierarchy.disk_level h', wb).
Proof.
  unfold MemoryHierarchy.access_memory.
  destruct (MemoryHierarchy.probe_levels [] (MemoryHierarchy.levels h) 0
              address w) as [[[[ls1 t1] [i1 nm|]] w1]|e] eqn:Hp;
    simpl; try discriminate.
  - intros [= <- _ _]. by left.
  - destruct (CacheLevel.insert
                (CacheLevel.add_hit (MemoryHierarchy.disk_level h)) address w1)
      as [[disk2 w2]|e] eqn:Hdisk; simpl; [|discriminate].
    destruct (MemoryHierarchy.insert_all ls1 address w2) as [[ls2 w3]|e]
      eqn:Hwarm; simpl; [|discriminate].
    intros [= <- _ _]. right. eauto.
Qed.

Lemma level_step_shape address l l' :
  level_step address l l' -> same_shape l l'.
Proof.
  intros (l1 & H1 & H2).
  assert (same_shape l l1) as S1.
  { destruct H1 as [->|(wa & hit & wb & Ha)]; [apply same_shape_refl|].
    by eapply level_access_shape. }
  assert (same_shape l1 l') as S2.
  { destruct H2 as [->|(wc & wd & Hi)]; [apply same_shape_refl|].
    by eapply level_insert_shape. }
  by eapply same_shape_trans.
Qed.

Lemma set_access_inv s tag w :
  set_inv s -> set_inv (CacheSet.access s tag w).1.1.
Proof.
  intros [Hlen Hnd]. unfold set_inv.
  pose proof (set_access_tags s tag w) as Ht.
  rewrite set_access_capacity, Ht. split; [|done].
  unfold CacheSet.tags in Ht. apply (f_equal length) in Ht.
  rewrite !length_fmap in Ht. lia.
Qed.

Lemma level_access_sets l address w l' hit w' index tag :
  CacheLevel.access l address w = Ok (l', hit, w') ->
  CacheLevel.get_index_and_tag l address = Ok (index, tag) ->
  CacheLevel.sets l'
  = match CacheLevel.sets l !! index with
    | Some s => <[index := (CacheSet.access s tag w).1.1]> (CacheLevel.sets l)
    | None => CacheLevel.sets l
    end.
Proof.
  intros Ha Hd. rewrite (level_access_unfold _ _ _ _ _ Hd) in Ha.
  destruct (CacheLevel.sets l !! index) as [s|].
  - simpl in Ha. injection Ha as <- _ _.
    by destruct (CacheSet.access s tag w).1.2.
  - by injection Ha as <- _ _.
Qed.

Lemma level_insert_sets l address w l' w' index tag :
  CacheLevel.insert l address w = Ok (l', w') ->
  CacheLevel.get_index_and_tag l address = Ok (index, tag) ->
  CacheLevel.sets l'
  = <[index := (CacheSet.insert
                  (default (CacheSet.init (CacheLevel.associativity l)
                              (CacheLevel.policy l))
                     (CacheLevel.sets l !! index)) tag w).1]>
      (CacheLevel.sets l).
Proof.
  intros Hi Hd. rewrite (level_insert_unfold _ _ _ _ _ Hd) in Hi.
  simpl in Hi. injection Hi as <- _. simpl.
  by destruct (CacheLevel.sets l !! index).
Qed.

Lemma level_inv_update l l' index s' :
  same_shape l l' ->
  CacheLevel.sets l' = <[index := s']> (CacheLevel.sets l) ->
  0 <= index < CacheLevel.num_sets l ->
  CacheSet.capacity s' = CacheLevel.associativity l ->
  CacheSet.policy s' = CacheLevel.policy l ->
  set_inv s' ->
  level_inv l -> level_inv l'.
Proof.
  intros (_ & _ & _ & Eassoc & _ & Ep & En) Hsets Hr Hc Hpol Hsi Hinv k s.
  rewrite Hsets, Eassoc, En, Ep, lookup_insert.
  destruct (decide (index = k)) as [->|Hne]; [|by apply Hinv].
  by intros [= <-].
Qed.

Lemma level_access_well_formed l address w l' hit w' :
  CacheLevel.access l address w = Ok (l', hit, w') ->
  well_formed l -> well_formed l'.
Proof.
  intros Ha (Hassoc & Hn & Hb & Hp & Hinv).
  pose proof (level_access_shape _ _ _ _ _ _ Ha) as Hshape.
  destruct (level_access_Ok_decomposes _ _ _ _ Ha) as (i & t & Hd).
  pose proof (level_access_sets _ _ _ _ _ _ _ _ Ha Hd) as Hsets.
  destruct Hshape as (En' & Es' & Eb & Eassoc & Et' & Ep & En).
  unfold well_formed. rewrite Eassoc, En, Eb, Ep. split_and!; try done.
  destruct (CacheLevel.sets l !! i) as [s|] eqn:Hs.
  - destruct (Hinv i s Hs) as (Hr & Hc & Hpol & Hsi).
    eapply (level_inv_update l l' i); try done.
    + by rewrite set_access_capacity.
    + by rewrite set_access_policy.
    + by apply set_access_inv.
  - intros k s. rewrite Hsets, Eassoc, En, Ep. apply Hinv.
Qed.

Lemma level_insert_well_formed l address w l' w' :
  CacheLevel.insert l address w = Ok (l', w') ->
  well_formed l -> well_formed l'.
Proof.
  intros Hi (Hassoc & Hn & Hb & Hp & Hinv).
  pose proof (level_insert_shape _ _ _ _ _ Hi) as Hshape.
  destruct (level_insert_Ok_decomposes _ _ _ _ Hi) as (i & t & Hd).
  pose proof (level_insert_sets _ _ _ _ _ _ _ Hi Hd) as Hsets.
  assert (0 <= i < CacheLevel.num_sets l) as Hr.
  { rewrite (get_index_and_tag_total l address) in Hd by (split; lia).
    injection Hd as <- _. apply Z.mod_pos_bound. lia. }
  destruct Hshape as (En' & Es' & Eb & Eassoc & Et' & Ep & En).
  unfold well_formed. rewrite Eassoc, En, Eb, Ep. split_and!; try done.
  eapply (level_inv_update l l' i); try done.
  - rewrite set_insert_capacity.
    destruct (CacheLevel.sets l !! i) as [s|] eqn:Hs; simpl; [|done].
    by destruct (Hinv i s Hs) as (_ & ? & _).
  - rewrite set_insert_policy.
    destruct (CacheLevel.sets l !! i) as [s|] eqn:Hs; simpl; [|done].
    by destruct (Hinv i s Hs) as (_ & _ & ? & _).
  - destruct (CacheLevel.sets l !! i) as [s|] eqn:Hs; simpl.
    + destruct (Hinv i s Hs) as (_ & Hc & Hpol & Hsi).
      apply set_insert_inv; [lia | by rewrite Hpol | done].
    + apply set_insert_inv; simpl; [lia | done |].
      split; simpl; [lia | constructor].
Qed.

Lemma level_step_well_formed address l l' :
  level_step address l l' -> well_formed l -> well_formed l'.
Proof.
  intros (l1 & H1 & H2) Hwf.
  assert (well_formed l1) as Hwf1.
  { destruct H1 as [->|(wa & hit & wb & Ha)]; [done|].
    by eapply level_access_well_formed. }
  destruct H2 as [->|(wc & wd & Hi)]; [done|].
  by eapply level_insert_well_formed.
Qed.

Lemma hierarchy_construction_layout_aux
    (c : MemoryHierarchy.config) (h : MemoryHierarchy.t) :
  MemoryHierarchy.init c = Ok h ->
  CacheLevel.name <$> MemoryHierarchy.levels h
  = "L1 Cache"
    :: (if MemoryHierarchy.l2_enabled c then ["L2 Cache"] else [])
    ++ (if MemoryHierarchy.l3_enabled c then ["L3 Cache"] else [])
    ++ ["Main Memory (RAM)"]
  ∧ CacheLevel.access_time <$> MemoryHierarchy.levels h
    = MemoryHierarchy.l1_time c
      :: (if MemoryHierarchy.l2_enabled c then [MemoryHierarchy.l2_time c]
          else [])
      ++ (if MemoryHierarchy.l3_enabled c then [MemoryHierarchy.l3_time c]
          else [])
      ++ [MemoryHierarchy.ram_time c]
  ∧ Forall (fun l =>
              CacheLevel.block_size l = MemoryHierarchy.block_size c
              ∧ CacheLevel.policy l = MemoryHierarchy.cfg_policy c
              ∧ 1 <= CacheLevel.num_sets l
              ∧ CacheLevel.sets l = ∅
              ∧ CacheLevel.hits l = 0 ∧ CacheLevel.misses l = 0)
           (MemoryHierarchy.levels h)
  ∧ CacheLevel.name (MemoryHierarchy.disk_level h) = "Secondary Memory (Disk)"
  ∧ CacheLevel.policy (MemoryHierarchy.disk_level h) = "FIFO"
  ∧ CacheLevel.associativity (MemoryHierarchy.disk_level h) = 1
  ∧ CacheLevel.block_size (MemoryHierarchy.disk_level h)
    = MemoryHierarchy.block_size c
  ∧ CacheLevel.access_time (MemoryHierarchy.disk_level h)
    = MemoryHierarchy.disk_time c
  ∧ 1 <= CacheLevel.num_sets (MemoryHierarchy.disk_level h)
  ∧ CacheLevel.sets (MemoryHierarchy.disk_level h) = ∅.
Proof.
  intros Hinit. pose proof (hierarchy_init_block_size c h Hinit) as Hb.
  revert Hinit.
  unfold MemoryHierarchy.init. rewrite !level_init_raises.
  destruct (MemoryHierarchy.l2_enabled c), (MemoryHierarchy.l3_enabled c);
    simpl; each_level_division; intros [= <-]; simpl;
    (split_and!; try done; try lia;
     repeat (apply Forall_cons_2;
             [split_and!; simpl; try done; repeat case_match; lia|]);
     apply Forall_nil_2).
Qed.

(** X13.  A constructed hierarchy has its levels in the order L1, L2 (if
    enabled), L3 (if enabled), main memory, with the access times of the
    configuration.  Every level has the configured block size and policy,
    at least one set index, no set and zero counters.  The disk level
    always has the policy FIFO and associativity 1, whatever policy is
    configured. *)
Theorem hierarchy_construction_layout
    (c : MemoryHierarchy.config) (h : MemoryHierarchy.t) :
  MemoryHierarchy.init c = Ok h ->
  CacheLevel.name <$> MemoryHierarchy.levels h
  = "L1 Cache"
    :: (if MemoryHierarchy.l2_enabled c then ["L2 Cache"] else [])
    ++ (if MemoryHierarchy.l3_enabled c then ["L3 Cache"] else [])
    ++ ["Main Memory (RAM)"]
  ∧ CacheLevel.access_time <$> MemoryHierarchy.levels h
    = MemoryHierarchy.l1_time c
      :: (if MemoryHierarchy.l2_enabled c then [MemoryHierarchy.l2_time c]
          else [])
      ++ (if MemoryHierarchy.l3_enabled c then [MemoryHierarchy.l3_time c]
          else [])
      ++ [MemoryHierarchy.ram_time c]
  ∧ Forall (fun l =>
              CacheLevel.block_size l = MemoryHierarchy.block_size c
              ∧ CacheLevel.policy l = MemoryHierarchy.cfg_policy c
              ∧ 1 <= CacheLevel.num_sets l
              ∧ CacheLevel.sets l = ∅
              ∧ CacheLevel.hits l = 0 ∧ CacheLevel.misses l = 0)
           (MemoryHierarchy.levels h)
  ∧ CacheLevel.name (MemoryHierarchy.disk_level h) = "Secondary Memory (Disk)"
  ∧ CacheLevel.policy (MemoryHierarchy.disk_level h) = "FIFO"
  ∧ CacheLevel.associativity (MemoryHierarchy.disk_level h) = 1
  ∧ CacheLevel.block_size (MemoryHierarchy.disk_level h)
    = MemoryHierarchy.block_size c
  ∧ CacheLevel.access_time (MemoryHierarchy.disk_level h)
    = MemoryHierarchy.disk_time c
  ∧ 1 <= CacheLevel.num_sets (MemoryHierarchy.disk_level h)
  ∧ CacheLevel.sets (MemoryHierarchy.disk_level h) = ∅.
Proof. exact (hierarchy_construction_layout_aux c h). Qed.

Lemma hierarchy_construction_layout_witness :
  CacheLevel.name <$> MemoryHierarchy.levels demo_hierarchy
  = ["L1 Cache"; "L2 Cache"; "L3 Cache"; "Main Memory (RAM)"]
  ∧ CacheLevel.policy (MemoryHierarchy.disk_level demo_hierarchy) = "FIFO".
Proof.
  assert (MemoryHierarchy.init demo_config = Ok demo_hierarchy) as Hinit
    by (vm_compute; reflexivity).
  destruct (hierarchy_construction_layout demo_config demo_hierarchy Hinit)
    as (Hn & _ & _ & _ & Hp & _).
  split; [exact Hn | exact Hp].
Defined.

Lemma reachable_levels_well_formed h0 h :
  Forall well_formed (MemoryHierarchy.levels h0) ->
  well_formed (MemoryHierarchy.disk_level h0) ->
  reachable h0 h ->
  Forall well_formed (MemoryHierarchy.levels h)
  ∧ well_formed (MemoryHierarchy.disk_level h).
Proof.
  intros Hl0 Hd0. induction 1 as [|h address w h' r w' _ [IHl IHd] Hstep];
    [done|].
  split.
  - pose proof (access_memory_level_steps _ _ _ _ _ _ Hstep) as Hsteps.
    clear Hstep. induction Hsteps as [|l l' ls ls' Hs _ IH]; [done|].
    apply Forall_cons in IHl as [Hwf Hrest].
    apply Forall_cons_2; [by eapply level_step_well_formed | by apply IH].
  - destruct (access_memory_disk_step _ _ _ _ _ _ Hstep)
      as [->|(wa & wb & Hi)]; [done|].
    eapply level_insert_well_formed; [exact Hi|]. exact IHd.
Qed.

(** X14.  In every hierarchy that [access_memory] calls produce from a
    constructed one whose levels have positive associativity and one of
    the five policies, every set of every level, the disk level included,
    sits at an index in [0, num_sets), holds at most [associativity]
    blocks, and holds no tag twice. *)
Theorem sets_stay_within_associativity
    (c : MemoryHierarchy.config) (h0 h : MemoryHierarchy.t) :
  MemoryHierarchy.init c = Ok h0 ->
  known_policy (MemoryHierarchy.cfg_policy c) ->
  Forall (fun l => 0 < CacheLevel.associativity l) (MemoryHierarchy.levels h0) ->
  reachable h0 h ->
  forall l, l ∈ MemoryHierarchy.levels h ++ [MemoryHierarchy.disk_level h] ->
    forall index s,
      CacheLevel.sets l !! index = Some s ->
      0 <= index < CacheLevel.num_sets l
      ∧ Z.of_nat (length (CacheSet.blocks s)) <= CacheLevel.associativity l
      ∧ NoDup (CacheSet.tags s).
Proof.
  intros Hinit Hp Hassoc Hreach.
  destruct (hierarchy_construction_layout_aux c h0 Hinit)
    as (_ & _ & Hall & _ & Hdp & Hda & Hdb & _ & Hdn & Hds).
  destruct (hierarchy_init_Ok c h0 Hinit) as ([Hsafe Hdsafe] & _).
  assert (Forall well_formed (MemoryHierarchy.levels h0)) as Hl0.
  { apply Forall_forall. intros l Hl.
    rewrite Forall_forall in Hall, Hassoc, Hsafe.
    destruct (Hall l Hl) as (Eb & Ep & Hn & Hs & _).
    destruct (Hsafe l Hl) as [Hb _].
    split_and!; [by apply Hassoc | lia | done | by rewrite Ep |].
    intros k s. by rewrite Hs, lookup_empty. }
  assert (well_formed (MemoryHierarchy.disk_level h0)) as Hd0.
  { destruct Hdsafe as [Hb _].
    split_and!; [lia | lia | done | |].
    - rewrite Hdp. unfold known_policy. repeat constructor.
    - intros k s. by rewrite Hds, lookup_empty. }
  destruct (reachable_levels_well_formed h0 h Hl0 Hd0 Hreach) as [Hl Hd].
  assert (Forall well_formed
            (MemoryHierarchy.levels h ++ [MemoryHierarchy.disk_level h]))
    as Hwf by (apply Forall_app; split; [done | by apply Forall_singleton]).
  intros l Hin index s Hs. rewrite Forall_forall in Hwf.
  destruct (Hwf l Hin) as (_ & _ & _ & _ & Hinv).
  destruct (Hinv index s Hs) as (Hr & Hc & _ & [Hlen Hnd]).
  split; [done | split; [lia | done]].
Qed.

Lemma sets_stay_within_associativity_witness :
  exists s,
    CacheLevel.sets (MemoryHierarchy.disk_level demo_after_hit.1.1) !! 0
    = Some s
    ∧ Z.of_nat (length (CacheSet.blocks s))
      <= CacheLevel.associativity
           (MemoryHierarchy.disk_level demo_after_hit.1.1)
    ∧ NoDup (CacheSet.tags s).
Proof.
  destruct (CacheLevel.sets (MemoryHierarchy.disk_level demo_after_hit.1.1)
              !! 0) as [s|] eqn:Hs; [|vm_compute in Hs; discriminate].
  exists s. split; [reflexivity|].
  apply (sets_stay_within_associativity demo_config demo_hierarchy
           demo_after_hit.1.1
           ltac:(vm_compute; reflexivity)
           ltac:(unfold known_policy; simpl; repeat constructor)
           ltac:(apply (bool_decide_unpack _); vm_compute; reflexivity)
           ltac:(eapply (reachable_step _ demo_after_five.1.1 0
                           demo_after_five.2 _ demo_after_hit.1.2
                           demo_after_hit.2);
                 [eapply (run_trace_reachable demo_hierarchy
                            [0; 8192; 16384; 24576; 32768] demo_hierarchy 0
                            ticking_world _ demo_after_five.1.2
                            demo_after_five.2);
                  [apply reachable_start | vm_compute; reflexivity]
                 | vm_compute; reflexivity])
           (MemoryHierarchy.disk_level demo_after_hit.1.1)
           ltac:(apply elem_of_app; right; apply list_elem_of_singleton;
                 reflexivity)
           0 s Hs).
Defined.

Lemma total_latency_app ls1 ls2 :
  total_latency (ls1 ++ ls2) = total_latency ls1 + total_latency ls2.
Proof.
  unfold total_latency. induction ls1 as [|l ls1 IH]; simpl; [done|].
  rewrite IH. lia.
Qed.

Lemma probe_levels_time rest :
  forall done total address w ls' total' o w',
    MemoryHierarchy.probe_levels done rest total address w
    = Ok (ls', total', o, w') ->
    match o with
    | MemoryHierarchy.HitAt i _ =>
        (length done <= i)%nat
        ∧ total' = total + total_latency (take (S (i - length done)) rest)
    | MemoryHierarchy.NoHit => total' = total + total_latency rest
    end.
Proof.
  induction rest as [|l rest IH]; intros done total address w ls' total' o w';
    simpl.
  - intros [= _ <- <- _]. unfold total_latency. simpl. lia.
  - destruct (CacheLevel.access l address w) as [[[l1 hit] w1]|e] eqn:Ha;
      simpl; [|discriminate].
    destruct hit.
    + destruct (MemoryHierarchy.insert_all done address w1) as [[ws w2]|e];
        simpl; [|discriminate].
      intros [= _ <- <- _]. split; [done|].
      rewrite Nat.sub_diag. unfold total_latency. simpl. lia.
    + intros H. apply IH in H. destruct o as [i nm|].
      * destruct H as [Hi ->]. rewrite length_app in *. simpl in *.
        split; [lia|].
        replace (i - length done)%nat with (S (i - (length done + 1)))
          by lia.
        unfold total_latency. simpl. lia.
      * rewrite H. unfold total_latency. simpl. lia.
Qed.

Lemma access_memory_time_aux
    (h : MemoryHierarchy.t) (address : Z) (w : World)
    (h' : MemoryHierarchy.t) (total_time : Z) (name : string) (w' : World) :
  MemoryHierarchy.access_memory h address w = Ok (h', (total_time, name), w') ->
  total_time
  = match MemoryHierarchy.resolving_position h address w with
    | Some i => total_latency (take (S i) (MemoryHierarchy.levels h))
    | None =>
        total_latency (MemoryHierarchy.levels h)
        + CacheLevel.access_time (MemoryHierarchy.disk_level h)
    end.
Proof.
  unfold MemoryHierarchy.access_memory, MemoryHierarchy.resolving_position.
  destruct (MemoryHierarchy.probe_levels [] (MemoryHierarchy.levels h) 0
              address w) as [[[[ls1 t1] o] w1]|e] eqn:Hp;
    simpl; [|discriminate].
  apply probe_levels_time in Hp. destruct o as [i nm|].
  - intros [= _ <- _ _]. destruct Hp as [_ ->]. simpl.
    by rewrite Nat.sub_0_r.
  - destruct (CacheLevel.insert _ address w1) as [[disk2 w2]|e]; simpl;
      [|discriminate].
    destruct (MemoryHierarchy.insert_all ls1 address w2) as [[ls2 w3]|e];
      simpl; [|discriminate].
    intros [= _ <- _ _]. rewrite Hp. lia.
Qed.

(** X15.  The time that [access_memory] returns is the sum of the access
    times of the levels it probed: those at the positions [0 .. i] when it
    resolves at position [i], and all of them plus the disk level's access
    time when no level hits. *)
Theorem access_memory_time
    (h : MemoryHierarchy.t) (address : Z) (w : World)
    (h' : MemoryHierarchy.t) (total_time : Z) (name : string) (w' : World) :
  MemoryHierarchy.access_memory h address w = Ok (h', (total_time, name), w') ->
  total_time
  = match MemoryHierarchy.resolving_position h address w with
    | Some i => total_latency (take (S i) (MemoryHierarchy.levels h))
    | None =>
        total_latency (MemoryHierarchy.levels h)
        + CacheLevel.access_time (MemoryHierarchy.disk_level h)
    end.
Proof.
  exact (access_memory_time_aux h address w h' total_time name w').
Qed.

Lemma access_memory_time_witness :
  demo_after_hit.1.2.1 = 1 + 5
  ∧ demo_after_fetch.1.2.1 = 1 + 5 + 15 + 100 + 10000000.
Proof.
  split.
  - rewrite (access_memory_time demo_after_five.1.1 0 demo_after_five.2
               demo_after_hit.1.1 demo_after_hit.1.2.1 demo_after_hit.1.2.2
               demo_after_hit.2 ltac:(vm_compute; reflexivity)).
    vm_compute. reflexivity.
  - rewrite (access_memory_time demo_hierarchy 0 ticking_world
               demo_after_fetch.1.1 demo_after_fetch.1.2.1
               demo_after_fetch.1.2.2 demo_after_fetch.2
               ltac:(vm_compute; reflexivity)).
    vm_compute. reflexivity.
Defined.

Lemma level_access_hit_then_probe_hits l address w l' w' :
  CacheLevel.access l address w = Ok (l', true, w') -> probe_hits l' address.
Proof.
  intros Ha w0.
  pose proof (level_access_shape _ _ _ _ _ _ Ha) as Hshape.
  destruct (level_access_Ok_decomposes _ _ _ _ Ha) as (i & t & Hd).
  pose proof (level_access_sets _ _ _ _ _ _ _ _ Ha Hd) as Hsets.
  rewrite (level_access_unfold _ _ _ _ _ Hd) in Ha.
  destruct (CacheLevel.sets l !! i) as [s|] eqn:Hs; [|discriminate].
  simpl in Ha. injection Ha as _ Hhit _.
  apply set_access_hit_iff in Hhit.
  rewrite <- (get_index_and_tag_shape _ _ _ Hshape) in Hd.
  rewrite (level_access_unfold _ _ _ _ _ Hd), Hsets, lookup_insert_eq. simpl.
  match goal with |- context [CacheSet.access ?s' t w0] =>
    pose proof (proj2 (set_access_hit_iff s' t w0)) as Hagain end.
  rewrite Hagain by (by rewrite set_access_tags).
  eauto.
Qed.

Lemma access_memory_first_level_hits h address w h' r w' l0 :
  MemoryHierarchy.access_memory h address w = Ok (h', r, w') ->
  MemoryHierarchy.levels h !! 0%nat = Some l0 ->
  exists l0', MemoryHierarchy.levels h' !! 0%nat = Some l0'
              ∧ same_shape l0 l0' ∧ probe_hits l0' address.
Proof.
  intros Hrun Hl0.
  pose proof (access_memory_level_steps _ _ _ _ _ _ Hrun) as Hsteps.
  destruct (Forall2_lookup_l _ _ _ _ _ Hsteps Hl0) as (l0' & Hl0' & Hstep).
  exists l0'. split; [done|]. split; [by eapply level_step_shape|].
  revert Hrun.
  unfold MemoryHierarchy.access_memory.
  destruct (MemoryHierarchy.probe_levels [] (MemoryHierarchy.levels h) 0
              address w) as [[[[ls1 t1] [i1 nm|]] w1]|e] eqn:Hp;
    simpl; try discriminate.
  - intros [= <- _ _]. simpl in Hl0'.
    apply probe_levels_HitAt in Hp
      as (pre & pre' & li & li' & post & warmed & wa & wb
          & Hlv & _ & Hmiss & Hhit & _ & Hwarm & ->).
    simpl in Hwarm. apply insert_all_Forall2 in Hwarm.
    pose proof (Forall2_length _ _ _ Hmiss) as Hlen1.
    pose proof (Forall2_length _ _ _ Hwarm) as Hlen2.
    destruct warmed as [|x warmed].
    + simpl in Hl0'. injection Hl0' as <-.
      by eapply level_access_hit_then_probe_hits.
    + simpl in Hl0'. injection Hl0' as <-.
      apply Forall2_insert_probe_hits in Hwarm.
      by apply Forall_cons in Hwarm as [? _].
  - destruct (CacheLevel.insert _ address w1) as [[disk2 w2]|e]; simpl;
      [|discriminate].
    destruct (MemoryHierarchy.insert_all ls1 address w2) as [[ls2 w3]|e]
      eqn:Hwarm; simpl; [|discriminate].
    intros [= <- _ _]. simpl in Hl0'.
    apply insert_all_Forall2, Forall2_insert_probe_hits in Hwarm.
    rewrite Forall_lookup in Hwarm. by eapply Hwarm.
Qed.

(** X16.  Right after any [access_memory(address)] that returns, a second
    [access_memory] of the same address resolves at the first level of
    [levels]: it returns that level's name and, as time, that level's
    access time alone. *)
Theorem repeated_access_hits_first_level
    (h : MemoryHierarchy.t) (address : Z) (w : World)
    (h' : MemoryHierarchy.t) (r : Z * string) (w' : World)
    (l0 : CacheLevel.t) :
  MemoryHierarchy.access_memory h address w = Ok (h', r, w') ->
  MemoryHierarchy.levels h !! 0%nat = Some l0 ->
  forall w0 : World,
    MemoryHierarchy.resolving_position h' address w0 = Some 0%nat
    ∧ exists h'' w1,
        MemoryHierarchy.access_memory h' address w0
        = Ok (h'', (CacheLevel.access_time l0, CacheLevel.name l0), w1).
Proof.
  intros Hrun Hl0 w0.
  destruct (access_memory_first_level_hits _ _ _ _ _ _ _ Hrun Hl0)
    as (l0' & Hl0' & Hshape & Hhits).
  destruct (Hhits w0) as (l0'' & w1 & Ha).
  pose proof (level_access_shape _ _ _ _ _ _ Ha) as Hshape'.
  destruct Hshape as (En & _ & _ & _ & Et & _).
  destruct Hshape' as (En' & _).
  unfold MemoryHierarchy.resolving_position, MemoryHierarchy.access_memory.
  destruct (MemoryHierarchy.levels h') as [|x rest]; [discriminate|].
  simpl in Hl0'. injection Hl0' as ->. simpl. rewrite Ha. simpl.
  split; [done|]. eexists _, _. rewrite En', En, Et. reflexivity.
Qed.

Lemma repeated_access_hits_first_level_witness :
  MemoryHierarchy.resolving_position demo_after_fetch.1.1 0 ticking_world
  = Some 0%nat.
Proof.
  apply (repeated_access_hits_first_level demo_hierarchy 0 ticking_world
           demo_after_fetch.1.1 demo_after_fetch.1.2 demo_after_fetch.2
           (CacheLevel.mk "L1 Cache" 32768 64 4 1 "LRU" 128 ∅ 0 0)).
  - vm_compute. reflexivity.
  - vm_compute. reflexivity.
Defined.

Lemma access_memory_disk_counters h address w h' r w' :
  MemoryHierarchy.access_memory h address w = Ok (h', r, w') ->
  CacheLevel.hits (MemoryHierarchy.disk_level h')
  = CacheLevel.hits (MemoryHierarchy.disk_level h)
    + match MemoryHierarchy.resolving_position h address w with
      | Some _ => 0
      | None => 1
      end
  ∧ CacheLevel.misses (MemoryHierarchy.disk_level h')
    = CacheLevel.misses (MemoryHierarchy.disk_level h).
Proof.
  unfold MemoryHierarchy.access_memory, MemoryHierarchy.resolving_position.
  destruct (MemoryHierarchy.probe_levels [] (MemoryHierarchy.levels h) 0
              address w) as [[[[ls1 t1] [i1 nm|]] w1]|e] eqn:Hp;
    simpl; try discriminate.
  - intros [= <- _ _]. simpl. split; [lia | done].
  - destruct (CacheLevel.insert _ address w1) as [[disk2 w2]|e] eqn:Hdisk;
      simpl; [|discriminate].
    destruct (MemoryHierarchy.insert_all ls1 address w2) as [[ls2 w3]|e];
      simpl; [|discriminate].
    intros [= <- _ _]. simpl.
    destruct (level_insert_counters _ _ _ _ _ Hdisk) as [Hh Hm].
    rewrite Hh, Hm. done.
Qed.

(** X17.  Along the driver's loop the counters count what happened: for
    every level of [levels], [hits + misses] grows by the number of probes
    of that level that found a set at their index; the disk level's [hits]
    grows by the number of addresses that no level resolved, and its
    [misses] does not change. *)
Theorem counters_along_trace
    (h : MemoryHierarchy.t) (addrs : list Z) (t_mem : Z) (w : World)
    (h' : MemoryHierarchy.t) (t_mem' : Z) (w' : World) :
  run_trace h addrs t_mem w = Ok (h', t_mem', w') ->
  (forall j l,
     MemoryHierarchy.levels h !! j = Some l ->
     exists l',
       MemoryHierarchy.levels h' !! j = Some l'
       ∧ CacheLevel.hits l' + CacheLevel.misses l'
         = CacheLevel.hits l + CacheLevel.misses l
           + Z.of_nat (reached_probes h addrs w j))
  ∧ CacheLevel.hits (MemoryHierarchy.disk_level h')
    = CacheLevel.hits (MemoryHierarchy.disk_level h)
      + Z.of_nat (terminal_fetches h addrs w)
  ∧ CacheLevel.misses (MemoryHierarchy.disk_level h')
    = CacheLevel.misses (MemoryHierarchy.disk_level h).
Proof.
  intros Hrun. split.
  - intros j l Hl. by eapply run_trace_level_counters.
  - revert h t_mem w Hrun.
    induction addrs as [|a addrs IH]; intros h t_mem w; simpl.
    + intros [= <- _ _]. split; [lia | done].
    + destruct (MemoryHierarchy.access_memory h a w)
        as [[[h1 [t1 n1]] w1]|e] eqn:Hstep; simpl; [|discriminate].
      intros Hrun. destruct (IH _ _ _ Hrun) as [Hh Hm].
      destruct (access_memory_disk_counters _ _ _ _ _ _ Hstep) as [Hh1 Hm1].
      rewrite Hh, Hm, Hh1, Hm1. split; [|done].
      destruct (MemoryHierarchy.resolving_position h a w); lia.
Qed.

Lemma counters_along_trace_witness :
  CacheLevel.hits (MemoryHierarchy.disk_level demo_after_five.1.1)
  = CacheLevel.hits (MemoryHierarchy.disk_level demo_hierarchy)
    + Z.of_nat (terminal_fetches demo_hierarchy
                  [0; 8192; 16384; 24576; 32768] ticking_world).
Proof.
  apply (counters_along_trace demo_hierarchy [0; 8192; 16384; 24576; 32768]
           0 ticking_world demo_after_five.1.1 demo_after_five.1.2
           demo_after_five.2).
  vm_compute. reflexivity.
Defined.

Lemma total_latency_nonneg ls :
  Forall (fun l => 0 <= CacheLevel.access_time l) ls -> 0 <= total_latency ls.
Proof.
  unfold total_latency. induction 1; simpl; lia.
Qed.

Lemma total_latency_fmap ls ls' :
  CacheLevel.access_time <$> ls = CacheLevel.access_time <$> ls' ->
  total_latency ls = total_latency ls'.
Proof.
  unfold total_latency. revert ls'.
  induction ls as [|l ls IH]; intros [|l' ls']; simpl; try done.
  intros [= Ht Hrest]. rewrite Ht. f_equal. by apply IH.
Qed.

Lemma access_memory_latencies h address w h' r w' :
  MemoryHierarchy.access_memory h address w = Ok (h', r, w') ->
  CacheLevel.access_time <$> MemoryHierarchy.levels h'
  = CacheLevel.access_time <$> MemoryHierarchy.levels h
  ∧ CacheLevel.access_time (MemoryHierarchy.disk_level h')
    = CacheLevel.access_time (MemoryHierarchy.disk_level h).
Proof.
  intros Hrun. split.
  - pose proof (access_memory_level_steps _ _ _ _ _ _ Hrun) as Hsteps.
    induction Hsteps as [|l l' ls ls' Hs _ IH]; [done|].
    rewrite !fmap_cons, IH.
    by destruct (level_step_shape _ _ _ Hs) as (_ & _ & _ & _ & -> & _).
  - by destruct (access_memory_disk _ _ _ _ _ _ Hrun)
      as ((_ & _ & _ & _ & -> & _) & _).
Qed.

Lemma access_memory_time_bounds h address w h' total_time name w' l0 :
  MemoryHierarchy.access_memory h address w = Ok (h', (total_time, name), w') ->
  Forall (fun l => 0 <= CacheLevel.access_time l) (MemoryHierarchy.levels h) ->
  0 <= CacheLevel.access_time (MemoryHierarchy.disk_level h) ->
  MemoryHierarchy.levels h !! 0%nat = Some l0 ->
  CacheLevel.access_time l0 <= total_time
  <= total_latency (MemoryHierarchy.levels h)
     + CacheLevel.access_time (MemoryHierarchy.disk_level h).
Proof.
  intros Hrun Hnn Hdisk Hl0.
  rewrite (access_memory_time_aux _ _ _ _ _ _ _ Hrun).
  destruct (MemoryHierarchy.levels h) as [|x rest] eqn:E; [discriminate|].
  simpl in Hl0. injection Hl0 as ->.
  apply Forall_cons in Hnn as [Hx Hrest].
  pose proof (total_latency_nonneg rest Hrest) as Hr.
  destruct (MemoryHierarchy.resolving_position h address w) as [i|].
  - rewrite <- (take_drop i rest) in Hr, Hrest.
    rewrite total_latency_app in Hr.
    apply Forall_app in Hrest as [Ht Hd].
    pose proof (total_latency_nonneg _ Ht).
    pose proof (total_latency_nonneg _ Hd).
    rewrite firstn_cons.
    change (total_latency (l0 :: take i rest))
      with (CacheLevel.access_time l0 + total_latency (take i rest)).
    change (total_latency (l0 :: rest))
      with (CacheLevel.access_time l0 + total_latency rest).
    rewrite <- (take_drop i rest) at 3. rewrite total_latency_app. lia.
  - change (total_latency (l0 :: rest))
      with (CacheLevel.access_time l0 + total_latency rest).
    lia.
Qed.

Lemma run_trace_time_bounds addrs :
  forall h t_mem w h' t_mem' w' l0,
    run_trace h addrs t_mem w = Ok (h', t_mem', w') ->
    Forall (fun l => 0 <= CacheLevel.access_time l)
           (MemoryHierarchy.levels h) ->
    0 <= CacheLevel.access_time (MemoryHierarchy.disk_level h) ->
    MemoryHierarchy.levels h !! 0%nat = Some l0 ->
    Z.of_nat (length addrs) * CacheLevel.access_time l0
    <= t_mem' - t_mem
    <= Z.of_nat (length addrs)
       * (total_latency (MemoryHierarchy.levels h)
          + CacheLevel.access_time (MemoryHierarchy.disk_level h)).
Proof.
  induction addrs as [|a addrs IH]; intros h t_mem w h' t_mem' w' l0; simpl.
  - intros [= _ <- _] _ _ _. lia.
  - destruct (MemoryHierarchy.access_memory h a w)
      as [[[h1 [t1 n1]] w1]|e] eqn:Hstep; simpl; [|discriminate].
    intros Hrun Hnn Hdisk Hl0.
    pose proof (access_memory_time_bounds _ _ _ _ _ _ _ _ Hstep Hnn Hdisk Hl0)
      as Hb.
    destruct (access_memory_latencies _ _ _ _ _ _ Hstep) as [Hls Hd].
    pose proof (total_latency_fmap _ _ Hls) as Hsum.
    assert (exists l1, MemoryHierarchy.levels h1 !! 0%nat = Some l1
                       ∧ CacheLevel.access_time l1
                         = CacheLevel.access_time l0) as (l1 & Hl1 & Et).
    { destruct (MemoryHierarchy.levels h1) as [|y ys],
        (MemoryHierarchy.levels h) as [|x xs]; try discriminate.
      simpl in *. injection Hl0 as ->. injection Hls as Ht _. eauto. }
    assert (Forall (fun l => 0 <= CacheLevel.access_time l)
                   (MemoryHierarchy.levels h1)) as Hnn1.
    { apply Forall_fmap in Hnn.
      apply (Forall_fmap CacheLevel.access_time (fun t => 0 <= t)).
      by rewrite Hls. }
    specialize (IH h1 (t_mem + t1) w1 h' t_mem' w' l1 Hrun Hnn1
                  ltac:(by rewrite Hd) Hl1).
    rewrite Et, Hsum, Hd in IH. nia.
Qed.

Lemma amat_between_first_level_and_full_miss_aux
    (h : MemoryHierarchy.t) (addrs : list Z) (w : World)
    (h' : MemoryHierarchy.t) (t_mem : Z) (w' : World) (l0 : CacheLevel.t) :
  run_trace h addrs 0 w = Ok (h', t_mem, w') ->
  Forall (fun l => 0 <= CacheLevel.access_time l) (MemoryHierarchy.levels h) ->
  0 <= CacheLevel.access_time (MemoryHierarchy.disk_level h) ->
  MemoryHierarchy.levels h !! 0%nat = Some l0 ->
  let n := Z.of_nat (length addrs) in
  let worst := total_latency (MemoryHierarchy.levels h)
               + CacheLevel.access_time (MemoryHierarchy.disk_level h) in
  n * CacheLevel.access_time l0 <= t_mem <= n * worst
  ∧ (addrs <> [] -> worst <= 2 ^ 53 ->
     exists x,
       PerformanceAnalyzer.init h' t_mem n
       = Ok (PerformanceAnalyzer.mk h' t_mem n (Float x))
       ∧ (inject_Z (CacheLevel.access_time l0)
          <= float_value x
          <= inject_Z worst)%Q).
Proof.
  intros Hrun Hnn Hdisk Hl0 n worst.
  pose proof (run_trace_time_bounds _ _ _ _ _ _ _ _ Hrun Hnn Hdisk Hl0) as Hb.
  fold n worst in Hb. rewrite Z.sub_0_r in Hb. split; [exact Hb|].
  intros Hne Hworst. assert (0 < n) as Hn.
  { subst n. destruct addrs; [done | simpl; lia]. }
  pose proof (Forall_lookup_1 _ _ _ _ Hnn Hl0) as Hl0nn. simpl in Hl0nn.
  assert (CacheLevel.access_time l0 <= worst) as Hlw by nia.
  destruct (truediv_between (CacheLevel.access_time l0) worst t_mem n Hn
              ltac:(lia) ltac:(lia) Hb) as (x & Hx & Hv).
  exists x. split; [|exact Hv].
  rewrite analyzer_init_unfold, Hx.
  by destruct (Z.gtb_spec n 0) as [_|]; [|lia].
Qed.

(** X18.  When no access time is negative, every [access_memory] call
    costs at least the first level's access time and at most the sum of
    all access times, the disk level's included.  The total of the
    driver's loop over [n] addresses lies between [n] times the one and
    [n] times the other.  When [n > 0] and that sum is at most [2 ^ 53],
    the analyzer is constructed without overflow and its [amat], a float,
    lies between the one and the other. *)
Theorem amat_between_first_level_and_full_miss
    (h : MemoryHierarchy.t) (addrs : list Z) (w : World)
    (h' : MemoryHierarchy.t) (t_mem : Z) (w' : World) (l0 : CacheLevel.t) :
  run_trace h addrs 0 w = Ok (h', t_mem, w') ->
  Forall (fun l => 0 <= CacheLevel.access_time l) (MemoryHierarchy.levels h) ->
  0 <= CacheLevel.access_time (MemoryHierarchy.disk_level h) ->
  MemoryHierarchy.levels h !! 0%nat = Some l0 ->
  let n := Z.of_nat (length addrs) in
  let worst := total_latency (MemoryHierarchy.levels h)
               + CacheLevel.access_time (MemoryHierarchy.disk_level h) in
  n * CacheLevel.access_time l0 <= t_mem <= n * worst
  ∧ (addrs <> [] -> worst <= 2 ^ 53 ->
     exists x,
       PerformanceAnalyzer.init h' t_mem n
       = Ok (PerformanceAnalyzer.mk h' t_mem n (Float x))
       ∧ (inject_Z (CacheLevel.access_time l0)
          <= float_value x
          <= inject_Z worst)%Q).
Proof.
  exact (amat_between_first_level_and_full_miss_aux h addrs w h' t_mem w'
           l0).
Qed.

Lemma amat_between_first_level_and_full_miss_witness :
  5 * 1 <= demo_after_five.1.2 <= 5 * (1 + 5 + 15 + 100 + 10000000).
Proof.
  assert (run_trace demo_hierarchy [0; 8192; 16384; 24576; 32768] 0
            ticking_world
          = Ok (demo_after_five.1.1, demo_after_five.1.2, demo_after_five.2))
    as Hrun by (vm_compute; reflexivity).
  assert (Forall (fun l => 0 <= CacheLevel.access_time l)
            (MemoryHierarchy.levels demo_hierarchy)) as Hnn
    by (apply (bool_decide_unpack _); vm_compute; reflexivity).
  assert (0 <= CacheLevel.access_time
                 (MemoryHierarchy.disk_level demo_hierarchy)) as Hdisk
    by (vm_compute; discriminate).
  assert (MemoryHierarchy.levels demo_hierarchy !! 0%nat
          = Some (CacheLevel.mk "L1 Cache" 32768 64 4 1 "LRU" 128 ∅ 0 0))
    as Hl0 by (vm_compute; reflexivity).
  exact (proj1 (amat_between_first_level_and_full_miss _ _ _ _ _ _ _
                  Hrun Hnn Hdisk Hl0)).
Defined.

Lemma access_retime t l address w :
  CacheLevel.access (retime t l) address w
  = match CacheLevel.access l address w with
    | Ok (l', hit, w') => Ok (retime t l', hit, w')
    | Raise e => Raise e
    end.
Proof.
  unfold CacheLevel.access, CacheLevel.get_index_and_tag, retime. simpl.
  destruct (floordiv address (CacheLevel.block_size l)) as [bn|e]; simpl;
    [|done].
  destruct (pymod bn (CacheLevel.num_sets l)) as [i|e]; simpl; [|done].
  destruct (floordiv bn (CacheLevel.num_sets l)) as [tg|e]; simpl; [|done].
  destruct (CacheLevel.sets l !! i) as [s|]; [|done].
  by destruct (CacheSet.access s tg w) as [[s' []] w'].
Qed.

Lemma insert_retime t l address w :
  CacheLevel.insert (retime t l) address w
  = match CacheLevel.insert l address w with
    | Ok (l', w') => Ok (retime t l', w')
    | Raise e => Raise e
    end.
Proof.
  unfold CacheLevel.insert, CacheLevel.get_index_and_tag, retime. simpl.
  destruct (floordiv address (CacheLevel.block_size l)) as [bn|e]; simpl;
    [|done].
  destruct (pymod bn (CacheLevel.num_sets l)) as [i|e]; simpl; [|done].
  destruct (floordiv bn (CacheLevel.num_sets l)) as [tg|e]; simpl; [|done].
  by destruct (CacheSet.insert _ tg w) as [s' w'].
Qed.

Lemma slower_level_access l1 l2 address w l1' hit w' :
  slower_level l1 l2 ->
  CacheLevel.access l1 address w = Ok (l1', hit, w') ->
  exists l2', CacheLevel.access l2 address w = Ok (l2', hit, w')
              ∧ slower_level l1' l2'.
Proof.
  intros [Heq Hle] Ha. rewrite Heq, access_retime, Ha.
  eexists. split; [reflexivity|].
  destruct (level_access_shape _ _ _ _ _ _ Ha) as (_ & _ & _ & _ & Et & _).
  split; simpl; [done | lia].
Qed.

Lemma slower_level_insert l1 l2 address w l1' w' :
  slower_level l1 l2 ->
  CacheLevel.insert l1 address w = Ok (l1', w') ->
  exists l2', CacheLevel.insert l2 address w = Ok (l2', w')
              ∧ slower_level l1' l2'.
Proof.
  intros [Heq Hle] Hi. rewrite Heq, insert_retime, Hi.
  eexists. split; [reflexivity|].
  destruct (level_insert_shape _ _ _ _ _ Hi) as (_ & _ & _ & _ & Et & _).
  split; simpl; [done | lia].
Qed.

Lemma slower_insert_all ls1 :
  forall ls2 address w ls1' w',
    Forall2 slower_level ls1 ls2 ->
    MemoryHierarchy.insert_all ls1 address w = Ok (ls1', w') ->
    exists ls2', MemoryHierarchy.insert_all ls2 address w = Ok (ls2', w')
                 ∧ Forall2 slower_level ls1' ls2'.
Proof.
  induction ls1 as [|l1 ls1 IH]; intros ls2 address w ls1' w' HF; inv HF;
    simpl.
  - intros [= <- <-]. exists []. split; [done | constructor].
  - destruct (CacheLevel.insert l1 address w) as [[l1' w1]|e] eqn:Hi; simpl;
      [|discriminate].
    destruct (MemoryHierarchy.insert_all ls1 address w1) as [[ls1'' w2]|e]
      eqn:Hr; simpl; [|discriminate].
    intros [= <- <-].
    match goal with H : slower_level l1 _ |- _ =>
      destruct (slower_level_insert _ _ _ _ _ _ H Hi) as (l2' & -> & Hs) end.
    simpl.
    match goal with H : Forall2 slower_level ls1 _ |- _ =>
      destruct (IH _ _ _ _ _ H Hr) as (ls2' & -> & HF') end.
    simpl. eexists. split; [reflexivity|]. by constructor.
Qed.

Lemma slower_level_name l1 l2 :
  slower_level l1 l2 -> CacheLevel.name l2 = CacheLevel.name l1.
Proof. intros [Heq _]. by rewrite Heq. Qed.

Lemma slower_probe_levels rest1 :
  forall rest2 done1 done2 total1 total2 address w ls1 t1 o w',
    Forall2 slower_level done1 done2 ->
    Forall2 slower_level rest1 rest2 ->
    MemoryHierarchy.probe_levels done1 rest1 total1 address w
    = Ok (ls1, t1, o, w') ->
    exists ls2 t2,
      MemoryHierarchy.probe_levels done2 rest2 total2 address w
      = Ok (ls2, t2, o, w')
      ∧ Forall2 slower_level ls1 ls2.
Proof.
  induction rest1 as [|l1 rest1 IH];
    intros rest2 done1 done2 total1 total2 address w ls1 t1 o w' Hd Hr;
    inv Hr; simpl.
  - intros [= <- _ <- <-]. eauto.
  - destruct (CacheLevel.access l1 address w) as [[[l1' hit] w1]|e] eqn:Ha;
      simpl; [|discriminate].
    match goal with H : slower_level l1 _ |- _ =>
      destruct (slower_level_access _ _ _ _ _ _ _ H Ha) as (l2' & -> & Hs) end.
    simpl. destruct hit.
    + destruct (MemoryHierarchy.insert_all done1 address w1) as [[ws1 w2]|e]
        eqn:Hw; simpl; [|discriminate].
      intros [= <- _ <- <-].
      destruct (slower_insert_all _ _ _ _ _ _ Hd Hw) as (ws2 & -> & HF).
      simpl. rewrite (Forall2_length _ _ _ Hd), (slower_level_name _ _ Hs).
      eexists _, _. split; [reflexivity|].
      apply Forall2_app; [done|]. by constructor.
    + intros H. eapply IH; [|eassumption|exact H].
      apply Forall2_app; [done|]. apply Forall2_cons_2; [done|].
      apply Forall2_nil_2.
Qed.

Lemma total_latency_mono ls1 ls2 :
  Forall2 slower_level ls1 ls2 -> total_latency ls1 <= total_latency ls2.
Proof.
  unfold total_latency. induction 1 as [|l1 l2 ls1 ls2 [_ Hle] _ IH]; simpl; lia.
Qed.

Lemma slower_access_memory h1 h2 address w h1' t1 name w' :
  slower_hierarchy h1 h2 ->
  MemoryHierarchy.access_memory h1 address w = Ok (h1', (t1, name), w') ->
  exists h2' t2,
    MemoryHierarchy.access_memory h2 address w = Ok (h2', (t2, name), w')
    ∧ slower_hierarchy h1' h2'
    ∧ t1 <= t2.
Proof.
  intros [Hls Hd] Hrun.
  assert (exists h2' t2,
            MemoryHierarchy.access_memory h2 address w
            = Ok (h2', (t2, name), w')
            ∧ slower_hierarchy h1' h2'
            ∧ MemoryHierarchy.resolving_position h2 address w
              = MemoryHierarchy.resolving_position h1 address w)
    as (h2' & t2 & Hrun2 & Hs & Hpos).
  { revert Hrun.
    unfold MemoryHierarchy.access_memory, MemoryHierarchy.resolving_position.
    destruct (MemoryHierarchy.probe_levels [] (MemoryHierarchy.levels h1) 0
                address w) as [[[[ls1 tt1] o] w1]|e] eqn:Hp;
      simpl; [|discriminate].
    destruct (slower_probe_levels _ _ [] [] 0 0 _ _ _ _ _ _
                (Forall2_nil_2 _ _ slower_level) Hls Hp) as (ls2 & tt2 & -> & HF).
    simpl. destruct o as [i nm|].
    - intros [= <- _ <- <-]. eexists _, _. split; [reflexivity|].
      split; [|done]. by split.
    - destruct (CacheLevel.insert
                  (CacheLevel.add_hit (MemoryHierarchy.disk_level h1))
                  address w1) as [[d1 w2]|e] eqn:Hdi; simpl; [|discriminate].
      destruct (MemoryHierarchy.insert_all ls1 address w2) as [[ls1' w3]|e]
        eqn:Hw; simpl; [|discriminate].
      intros [= <- _ <- <-].
      assert (slower_level
                (CacheLevel.add_hit (MemoryHierarchy.disk_level h1))
                (CacheLevel.add_hit (MemoryHierarchy.disk_level h2))) as Hd'.
      { destruct Hd as [Heq Hle]. split; [|exact Hle].
        rewrite Heq at 1. reflexivity. }
      destruct (slower_level_insert _ _ _ _ _ _ Hd' Hdi) as (d2 & -> & Hsd).
      simpl.
      destruct (slower_insert_all _ _ _ _ _ _ HF Hw) as (ls2' & -> & HF').
      simpl. eexists _, _. split; [reflexivity|]. split; [|done].
      by split. }
  exists h2', t2. split_and!; try done.
  rewrite (access_memory_time_aux _ _ _ _ _ _ _ Hrun).
  rewrite (access_memory_time_aux _ _ _ _ _ _ _ Hrun2), Hpos.
  destruct (MemoryHierarchy.resolving_position h1 address w) as [i|].
  - apply total_latency_mono. by apply Forall2_take.
  - pose proof (total_latency_mono _ _ Hls). destruct Hd as [_ Hle]. lia.
Qed.

Lemma slower_run_trace addrs :
  forall h1 h2 t1 t2 w h1' t1' w',
    slower_hierarchy h1 h2 ->
    t1 <= t2 ->
    run_trace h1 addrs t1 w = Ok (h1', t1', w') ->
    exists h2' t2',
      run_trace h2 addrs t2 w = Ok (h2', t2', w')
      ∧ slower_hierarchy h1' h2'
      ∧ t1' <= t2'.
Proof.
  induction addrs as [|a addrs IH]; intros h1 h2 t1 t2 w h1' t1' w' Hs Hle;
    simpl.
  - intros [= <- <- <-]. eauto.
  - destruct (MemoryHierarchy.access_memory h1 a w)
      as [[[h1a [ta na]] wa]|e] eqn:Hstep; simpl; [|discriminate].
    destruct (slower_access_memory _ _ _ _ _ _ _ _ Hs Hstep)
      as (h2a & tb & -> & Hsa & Hlt).
    simpl. apply IH; [done | lia].
Qed.

(** X19.  Raising access times never lowers the measured time.  If a
    second hierarchy differs from a first only in access times that are
    not smaller, then on the same addresses and in the same world the
    driver's loop returns on the second whenever it does on the first,
    with a total time that is not smaller; the two final hierarchies again
    differ only in those access times (same sets, same hit and miss
    counters).  Whenever the two analyzers are constructed for the same
    count, the [amat] of the second is not smaller either. *)
Theorem slower_levels_never_lower_amat
    (h1 h2 : MemoryHierarchy.t) (addrs : list Z) (w : World)
    (h1' : MemoryHierarchy.t) (t1 : Z) (w' : World) (n : Z) :
  slower_hierarchy h1 h2 ->
  run_trace h1 addrs 0 w = Ok (h1', t1, w') ->
  exists h2' t2,
    run_trace h2 addrs 0 w = Ok (h2', t2, w')
    ∧ slower_hierarchy h1' h2'
    ∧ t1 <= t2
    ∧ (forall a1 a2,
         PerformanceAnalyzer.init h1' t1 n = Ok a1 ->
         PerformanceAnalyzer.init h2' t2 n = Ok a2 ->
         number_le (PerformanceAnalyzer.amat a1)
           (PerformanceAnalyzer.amat a2)).
Proof.
  intros Hs Hrun.
  destruct (slower_run_trace addrs h1 h2 0 0 w h1' t1 w' Hs ltac:(lia) Hrun)
    as (h2' & t2 & Hrun2 & Hs' & Hle).
  exists h2', t2. split_and!; try done.
  intros a1 a2. rewrite !analyzer_init_unfold.
  destruct (Z.gtb_spec n 0) as [Hn|_].
  - destruct (truediv t1 n) as [x1|] eqn:H1; [|discriminate].
    destruct (truediv t2 n) as [x2|] eqn:H2; [|discriminate].
    intros [= <-] [= <-]. simpl.
    by apply (truediv_mono t1 t2 n).
  - intros [= <-] [= <-]. simpl. lia.
Qed.

Lemma slower_levels_never_lower_amat_witness :
  exists h2' t2,
    run_trace demo_slow_ram [0; 8192; 16384; 24576; 32768] 0 ticking_world
    = Ok (h2', t2, demo_after_five.2)
    ∧ demo_after_five.1.2 <= t2.
Proof.
  assert (slower_hierarchy demo_hierarchy demo_slow_ram) as Hs.
  { split.
    - repeat (apply Forall2_cons_2;
              [split; [vm_compute; reflexivity | vm_compute; discriminate]|]).
      apply Forall2_nil_2.
    - split; [vm_compute; reflexivity | vm_compute; discriminate]. }
  assert (run_trace demo_hierarchy [0; 8192; 16384; 24576; 32768] 0
            ticking_world
          = Ok (demo_after_five.1.1, demo_after_five.1.2, demo_after_five.2))
    as Hrun by (vm_compute; reflexivity).
  destruct (slower_levels_never_lower_amat _ _ _ _ _ _ _ 5 Hs Hrun)
    as (h2' & t2 & Hrun2 & _ & Hle & _).
  exists h2', t2. split; [exact Hrun2 | exact Hle].
Defined.

(** ** AccessPatternGenerator *)

Lemma sequential_loop_closed_form g stride count :
  forall j : Z,
    AccessPatternGenerator.max_address g <> 0 ->
    AccessPatternGenerator.sequential_loop g (S count) stride
      ((j * stride) mod AccessPatternGenerator.max_address g)
    = Ok ((fun k => ((j + Z.of_nat k) * stride)
                    mod AccessPatternGenerator.max_address g)
          <$> seq 0 (S count)).
Proof.
  set (m := AccessPatternGenerator.max_address g).
  induction count as [|count IH]; intros j Hm.
  - simpl. fold m. unfold pymod.
    destruct (Z.eqb_spec m 0) as [|_]; [done|]. simpl.
    by rewrite Z.add_0_r.
  - change (AccessPatternGenerator.sequential_loop g (S (S count)) stride
              ((j * stride) mod m))
      with (next ← pymod ((j * stride) mod m + stride) m;
            addresses ← AccessPatternGenerator.sequential_loop g (S count)
                          stride next;
            mret ((j * stride) mod m :: addresses)).
    unfold pymod at 1. destruct (Z.eqb_spec m 0) as [|_]; [done|].
    cbn [mbind result_bind].
    replace (((j * stride) mod m + stride) mod m)
      with (((j + 1) * stride) mod m)
      by (rewrite Zplus_mod_idemp_l; f_equal; lia).
    rewrite (IH (j + 1) Hm). cbn [mbind result_bind mret result_ret].
    f_equal. rewrite (fmap_cons _ 0%nat (seq 1 (S count))).
    f_equal; [f_equal; lia|].
    rewrite <- (fmap_S_seq 0 (S count)), <- list_fmap_compose.
    apply list_fmap_ext. intros _ k _. simpl. f_equal. lia.
Qed.

Lemma generate_sequential_closed_form_aux
    (g : AccessPatternGenerator.t) (num_requests stride : Z) :
  AccessPatternGenerator.max_address g <> 0 ->
  AccessPatternGenerator.generate_sequential g num_requests stride
  = Ok ((fun k => (Z.of_nat k * stride)
                  mod AccessPatternGenerator.max_address g)
        <$> seq 0 (Z.to_nat num_requests))
  ∧ (0 < AccessPatternGenerator.max_address g ->
     forall addresses,
       AccessPatternGenerator.generate_sequential g num_requests stride
       = Ok addresses ->
       Forall (fun a => 0 <= a < AccessPatternGenerator.max_address g)
              addresses).
Proof.
  intros Hm.
  assert (AccessPatternGenerator.generate_sequential g num_requests stride
          = Ok ((fun k => (Z.of_nat k * stride)
                          mod AccessPatternGenerator.max_address g)
                <$> seq 0 (Z.to_nat num_requests))) as Hform.
  { unfold AccessPatternGenerator.generate_sequential.
    destruct (Z.to_nat num_requests) as [|count]; [done|].
    pose proof (sequential_loop_closed_form g stride count 0 Hm) as H.
    rewrite Z.mul_0_l, Zmod_0_l in H. exact H. }
  split; [exact Hform|].
  intros Hpos addresses. rewrite Hform. intros [= <-].
  apply Forall_fmap, Forall_forall. intros k _. simpl.
  apply Z.mod_pos_bound. lia.
Qed.

(** X20.  [generate_sequential] walks the address space with a fixed
    stride: with a bound other than 0 it returns exactly [num_requests]
    addresses (none for a count of 0 or less), the [k]-th being
    [(k * stride) % max_address]; with a positive bound all of them lie in
    [0, max_address). *)
Theorem generate_sequential_closed_form
    (g : AccessPatternGenerator.t) (num_requests stride : Z) :
  AccessPatternGenerator.max_address g <> 0 ->
  AccessPatternGenerator.generate_sequential g num_requests stride
  = Ok ((fun k => (Z.of_nat k * stride)
                  mod AccessPatternGenerator.max_address g)
        <$> seq 0 (Z.to_nat num_requests))
  ∧ (0 < AccessPatternGenerator.max_address g ->
     forall addresses,
       AccessPatternGenerator.generate_sequential g num_requests stride
       = Ok addresses ->
       Forall (fun a => 0 <= a < AccessPatternGenerator.max_address g)
              addresses).
Proof. exact (generate_sequential_closed_form_aux g num_requests stride). Qed.

Lemma generate_sequential_closed_form_witness :
  AccessPatternGenerator.generate_sequential (AccessPatternGenerator.mk 10)
    5 4
  = Ok [0; 4; 8; 2; 6].
Proof.
  apply (proj1 (generate_sequential_closed_form
                  (AccessPatternGenerator.mk 10) 5 4 ltac:(discriminate))).
Defined.

(** X21.  [generate_sequential] with a bound of 0 raises
    [ZeroDivisionError] as soon as one address is requested; for a count
    of 0 or less it returns the empty list whatever the bound is. *)
Theorem generate_sequential_edge_cases
    (g : AccessPatternGenerator.t) (num_requests stride : Z) :
  (num_requests <= 0 ->
   AccessPatternGenerator.generate_sequential g num_requests stride = Ok [])
  ∧ (0 < num_requests -> AccessPatternGenerator.max_address g = 0 ->
     AccessPatternGenerator.generate_sequential g num_requests stride
     = Raise ZeroDivisionError).
Proof.
  unfold AccessPatternGenerator.generate_sequential. split.
  - intros Hn. by replace (Z.to_nat num_requests) with 0%nat by lia.
  - intros Hn Hm.
    destruct (Z.to_nat num_requests) as [|count] eqn:Hc; [lia|].
    simpl. by rewrite Hm.
Qed.

Lemma generate_sequential_edge_cases_witness :
  AccessPatternGenerator.generate_sequential (AccessPatternGenerator.mk 0)
    (-3) 4 = Ok []
  ∧ AccessPatternGenerator.generate_sequential (AccessPatternGenerator.mk 0)
      3 4 = Raise ZeroDivisionError.
Proof.
  split.
  - apply (proj1 (generate_sequential_edge_cases
                    (AccessPatternGenerator.mk 0) (-3) 4)). lia.
  - apply (proj2 (generate_sequential_edge_cases
                    (AccessPatternGenerator.mk 0) 3 4)); [lia | reflexivity].
Defined.

Lemma random_loop_spec g count :
  forall w,
    0 <= AccessPatternGenerator.max_address g ->
    exists addresses w',
      AccessPatternGenerator.random_loop g count w = Ok (addresses, w')
      ∧ length addresses = count
      ∧ Forall (fun a => 0 <= a <= AccessPatternGenerator.max_address g)
               addresses
      ∧ draws w' = (draws w + count)%nat
      ∧ ticks w' = ticks w.
Proof.
  induction count as [|count IH]; intros w Hm; simpl.
  - exists [], w. split_and!; done || lia.
  - unfold random_randint.
    destruct (Z.ltb_spec (AccessPatternGenerator.max_address g) 0); [lia|].
    simpl. destruct (IH (next_draw w) Hm) as (addrs & w' & -> & Hl & Hr & Hd & Ht).
    simpl. eexists _, _. split; [reflexivity|]. split_and!.
    + simpl. by rewrite Hl.
    + apply Forall_cons_2; [|done].
      pose proof (Z.mod_pos_bound (Z.of_nat (rand_src w (draws w)))
                    (AccessPatternGenerator.max_address g - 0 + 1)
                    ltac:(lia)).
      lia.
    + rewrite Hd. simpl. lia.
    + rewrite Ht. reflexivity.
Qed.

(** X22.  [generate_random] with a bound that is not negative returns
    exactly [num_requests] addresses (none for a count of 0 or less), each
    between 0 and [max_address] inclusive, so the bound itself can be
    drawn; it takes one random draw per address and does not read the
    clock.  With a negative bound it raises [ValueError] as soon as one
    address is requested. *)
Theorem generate_random_range
    (g : AccessPatternGenerator.t) (num_requests : Z) (w : World) :
  (0 <= AccessPatternGenerator.max_address g ->
   exists addresses w',
     AccessPatternGenerator.generate_random g num_requests w
     = Ok (addresses, w')
     ∧ length addresses = Z.to_nat num_requests
     ∧ Forall (fun a => 0 <= a <= AccessPatternGenerator.max_address g)
              addresses
     ∧ draws w' = (draws w + Z.to_nat num_requests)%nat
     ∧ ticks w' = ticks w)
  ∧ (AccessPatternGenerator.max_address g < 0 -> 0 < num_requests ->
     AccessPatternGenerator.generate_random g num_requests w
     = Raise ValueError).
Proof.
  unfold AccessPatternGenerator.generate_random. split.
  - intros Hm. by apply random_loop_spec.
  - intros Hm Hn.
    destruct (Z.to_nat num_requests) as [|count] eqn:Hc; [lia|].
    simpl. unfold random_randint.
    by destruct (Z.ltb_spec (AccessPatternGenerator.max_address g) 0); [|lia].
Qed.

Lemma generate_random_range_witness :
  (exists addresses w',
     AccessPatternGenerator.generate_random (AccessPatternGenerator.mk 2) 4
       ticking_world = Ok (addresses, w')
     ∧ length addresses = Z.to_nat 4)
  ∧ AccessPatternGenerator.generate_random (AccessPatternGenerator.mk (-1)) 4
      ticking_world = Raise ValueError.
Proof.
  split.
  - destruct (proj1 (generate_random_range (AccessPatternGenerator.mk 2) 4
                       ticking_world))
      as (addresses & w' & Hrun & Hlen & _).
    + simpl. lia.
    + exists addresses, w'. split; [exact Hrun | exact Hlen].
  - apply (proj2 (generate_random_range (AccessPatternGenerator.mk (-1)) 4
                    ticking_world)); simpl; lia.
Defined.

Lemma locality_loop_spec g num_requests count :
  forall i current_hotspot w,
    0 < AccessPatternGenerator.max_address g ->
    10 <= num_requests ->
    exists addresses w',
      AccessPatternGenerator.locality_loop g num_requests count i
        current_hotspot w = Ok (addresses, w')
      ∧ length addresses = count
      ∧ Forall (fun a => 0 <= a < AccessPatternGenerator.max_address g
                         ∧ a mod 4 = 0) addresses.
Proof.
  set (m := AccessPatternGenerator.max_address g).
  induction count as [|count IH]; intros i hotspot w Hm Hn.
  - exists [], w. simpl. split_and!; done.
  - assert (forall a, 0 <= a mod m - (a mod m) mod 4 < m
                      ∧ (a mod m - (a mod m) mod 4) mod 4 = 0) as Haligned.
    { intros a. pose proof (Z.mod_pos_bound a m Hm).
      pose proof (Z.mod_pos_bound (a mod m) 4 ltac:(lia)).
      pose proof (Z.mod_le (a mod m) 4 ltac:(lia) ltac:(lia)).
      split; [lia|].
      rewrite Zminus_mod_idemp_r, Z.sub_diag. reflexivity. }
    simpl. fold m.
    assert (num_requests / 10 <> 0) as Hchunk.
    { pose proof (Z.div_le_mono 10 num_requests 10 ltac:(lia) Hn) as H.
      rewrite Z.div_same in H by lia. lia. }
    assert (pymod i (num_requests / 10) = Ok (i mod (num_requests / 10)))
      as -> by (unfold pymod; apply Z.eqb_neq in Hchunk; by rewrite Hchunk).
    cbn [mbind result_bind].
    assert (forall hs w1,
              exists addresses w',
                (pymod (Z.abs (hs + gauss_src w1 (draws w1))) m
                 ≫= fun addr =>
                      AccessPatternGenerator.locality_loop g num_requests
                        count (i + 1) hs (next_draw w1)
                      ≫= fun '(addresses0, w3) =>
                           mret (addr - addr mod 4 :: addresses0, w3))
                = Ok (addresses, w')
                ∧ length addresses = S count
                ∧ Forall (fun a => 0 <= a < m ∧ a mod 4 = 0) addresses)
      as Hrest.
    { intros hs w1. unfold pymod.
      destruct (Z.eqb_spec m 0) as [|_]; [lia|]. cbn [mbind result_bind].
      destruct (IH (i + 1) hs (next_draw w1) Hm Hn)
        as (addrs & w' & -> & Hl & Hall).
      cbn [mbind result_bind mret result_ret].
      eexists _, _. split; [reflexivity|]. split; [simpl; lia|].
      apply Forall_cons_2; [apply Haligned | done]. }
    destruct (i mod (num_requests / 10) =? 0).
    + unfold random_randint. destruct (Z.ltb_spec m 0); [lia|].
      cbn [mbind result_bind]. apply Hrest.
    + cbn [mbind result_bind mret result_ret]. apply Hrest.
Qed.

(** X23.  [generate_locality] with at least 10 requests over a positive
    bound returns exactly [num_requests] addresses, each inside
    [0, max_address) and a multiple of 4, whatever the random draws
    are. *)
Theorem generate_locality_aligned_in_range
    (g : AccessPatternGenerator.t) (num_requests : Z) (w : World) :
  0 < AccessPatternGenerator.max_address g ->
  10 <= num_requests ->
  exists addresses w',
    AccessPatternGenerator.generate_locality g num_requests w
    = Ok (addresses, w')
    ∧ Z.of_nat (length addresses) = num_requests
    ∧ Forall (fun a => 0 <= a < AccessPatternGenerator.max_address g
                       ∧ a mod 4 = 0) addresses.
Proof.
  intros Hm Hn. unfold AccessPatternGenerator.generate_locality,
    random_randint.
  destruct (Z.ltb_spec (AccessPatternGenerator.max_address g) 0); [lia|].
  simpl.
  destruct (locality_loop_spec g num_requests (Z.to_nat num_requests) 0
              (0 + Z.of_nat (rand_src w (draws w))
                   mod (AccessPatternGenerator.max_address g - 0 + 1))
              (next_draw w) Hm Hn)
    as (addresses & w' & Hrun & Hl & Hall).
  exists addresses, w'. split; [exact Hrun|]. split; [lia | done].
Qed.

Lemma generate_locality_aligned_in_range_witness :
  exists addresses w',
    AccessPatternGenerator.generate_locality (AccessPatternGenerator.mk 1024)
      12 ticking_world = Ok (addresses, w')
    ∧ Z.of_nat (length addresses) = 12.
Proof.
  destruct (generate_locality_aligned_in_range
              (AccessPatternGenerator.mk 1024) 12 ticking_world)
    as (addresses & w' & Hrun & Hlen & _).
  - simpl. lia.
  - lia.
  - exists addresses, w'. split; [exact Hrun | exact Hlen].
Defined.

(** ** The driver *)

Lemma generate_sequential_zero_bound_at g num_requests stride :
  AccessPatternGenerator.max_address g = 0 ->
  0 < num_requests ->
  AccessPatternGenerator.generate_sequential g num_requests stride
  = Raise ZeroDivisionError.
Proof.
  intros Hm Hn. unfold AccessPatternGenerator.generate_sequential.
  destruct (Z.to_nat num_requests) as [|count] eqn:Hc; [lia|].
  simpl. by rewrite Hm.
Qed.

Lemma run_trace_total addrs :
  forall h t_mem w,
    hierarchy_safe h ->
    exists h' t_mem' w', run_trace h addrs t_mem w = Ok (h', t_mem', w').
Proof.
  induction addrs as [|a addrs IH]; intros h t_mem w Hs; simpl; [eauto|].
  destruct (access_memory_total h a w Hs) as (h1 & [t1 n1] & w1 & -> & Hs1).
  simpl. by apply IH.
Qed.

Lemma total_latency_sum ls :
  total_latency ls = foldr Z.add 0 (CacheLevel.access_time <$> ls).
Proof.
  unfold total_latency. induction ls as [|l ls IH]; [done|].
  rewrite fmap_cons. simpl. by rewrite IH.
Qed.

Lemma run_simulation_unfold_sequential c num w h0 :
  MemoryHierarchy.init c = Ok h0 ->
  MemoryHierarchy.ram_size c <> 0 ->
  exists h' t_mem w',
    run_trace h0
      ((fun k => (Z.of_nat k * 4) mod (MemoryHierarchy.ram_size c * 1024 * 1024))
       <$> seq 0 (Z.to_nat num)) 0 (time_time w).2
    = Ok (h', t_mem, w')
    ∧ SimulatorApp.run_simulation c num "Sequential" w
      = (analyzer ← PerformanceAnalyzer.init h' t_mem num;
         mret (analyzer, (time_time w').2)).
Proof.
  intros Hinit Hram.
  destruct (hierarchy_init_Ok c h0 Hinit) as (Hsafe & _).
  destruct (run_trace_total
              ((fun k => (Z.of_nat k * 4)
                         mod (MemoryHierarchy.ram_size c * 1024 * 1024))
               <$> seq 0 (Z.to_nat num)) h0 0 (time_time w).2 Hsafe)
    as (h' & t_mem & w' & Hrun).
  exists h', t_mem, w'. split; [exact Hrun|].
  unfold SimulatorApp.run_simulation. rewrite Hinit. simpl.
  destruct (generate_sequential_closed_form_aux
              (AccessPatternGenerator.mk
                 (MemoryHierarchy.ram_size c * 1024 * 1024)) num 4) as [-> _].
  { simpl. lia. }
  simpl. unfold time_time in Hrun. simpl in Hrun. rewrite Hrun. reflexivity.
Qed.

(** X24.  When the block size and the main memory size are not 0 and the
    byte sizes of the levels are below [2 ^ 1023] in absolute value, a
    simulation with the pattern ["Sequential"] and a positive request
    count returns an analyzer that carries that count, or raises the
    [OverflowError] of the division that computes [amat].  When moreover
    no access time of the configuration is negative and the sum of the
    access times of L1, the enabled L2 and L3, main memory and disk is at
    most [2 ^ 53], it returns an analyzer, and the [amat] of that is a
    float between the L1 access time and that sum. *)
Theorem sequential_simulation_completes
    (c : MemoryHierarchy.config) (num : Z) (w : World) :
  MemoryHierarchy.block_size c <> 0 ->
  MemoryHierarchy.sizes_in_double_range c = true ->
  MemoryHierarchy.ram_size c <> 0 ->
  0 < num ->
  let worst :=
    MemoryHierarchy.l1_time c
    + (if MemoryHierarchy.l2_enabled c then MemoryHierarchy.l2_time c else 0)
    + (if MemoryHierarchy.l3_enabled c then MemoryHierarchy.l3_time c else 0)
    + MemoryHierarchy.ram_time c
    + MemoryHierarchy.disk_time c in
  ((exists a w',
      SimulatorApp.run_simulation c num "Sequential" w = Ok (a, w')
      ∧ PerformanceAnalyzer.num_requests a = num)
   ∨ SimulatorApp.run_simulation c num "Sequential" w = Raise OverflowError)
  ∧ (0 <= MemoryHierarchy.l1_time c -> 0 <= MemoryHierarchy.l2_time c ->
     0 <= MemoryHierarchy.l3_time c -> 0 <= MemoryHierarchy.ram_time c ->
     0 <= MemoryHierarchy.disk_time c -> worst <= 2 ^ 53 ->
     exists a w' x,
       SimulatorApp.run_simulation c num "Sequential" w = Ok (a, w')
       ∧ PerformanceAnalyzer.num_requests a = num
       ∧ PerformanceAnalyzer.amat a = Float x
       ∧ (inject_Z (MemoryHierarchy.l1_time c)
          <= float_value x
          <= inject_Z worst)%Q).
Proof.
  intros Hb Hsizes Hram Hnum worst.
  destruct (hierarchy_init_in_range c Hb Hsizes) as [h0 Hinit].
  destruct (run_simulation_unfold_sequential c num w h0 Hinit Hram)
    as (h' & t_mem & w' & Hrun & ->).
  split.
  { destruct (analyzer_init_cases h' t_mem num Hnum)
      as [(x & -> & _)|[-> _]]; [left | by right].
    eexists _, _. split; reflexivity. }
  intros H1 H2 H3 H4 H5 Hworst.
  destruct (hierarchy_construction_layout_aux c h0 Hinit)
    as (_ & Htimes & _ & _ & _ & _ & _ & Hdt & _).
  set (addrs := (fun k => (Z.of_nat k * 4)
                          mod (MemoryHierarchy.ram_size c * 1024 * 1024))
                <$> seq 0 (Z.to_nat num)) in *.
  assert (Z.of_nat (length addrs) = num) as Hlen.
  { subst addrs. rewrite length_fmap, length_seq. lia. }
  assert (exists l0, MemoryHierarchy.levels h0 !! 0%nat = Some l0
                     ∧ CacheLevel.access_time l0 = MemoryHierarchy.l1_time c)
    as (l0 & Hl0 & Et).
  { destruct (MemoryHierarchy.levels h0) as [|l0 ls]; [discriminate|].
    injection Htimes as Ht _. eauto. }
  assert (Forall (fun l => 0 <= CacheLevel.access_time l)
                 (MemoryHierarchy.levels h0)) as Hnn.
  { apply (Forall_fmap CacheLevel.access_time (fun t => 0 <= t)).
    rewrite Htimes.
    destruct (MemoryHierarchy.l2_enabled c), (MemoryHierarchy.l3_enabled c);
      simpl; repeat (apply Forall_cons_2; [done|]); apply Forall_nil_2. }
  assert (total_latency (MemoryHierarchy.levels h0)
          + CacheLevel.access_time (MemoryHierarchy.disk_level h0)
          = worst) as Hsum.
  { rewrite total_latency_sum, Htimes, Hdt. subst worst.
    destruct (MemoryHierarchy.l2_enabled c), (MemoryHierarchy.l3_enabled c);
      simpl; lia. }
  destruct (amat_between_first_level_and_full_miss_aux h0 addrs (time_time w).2
              h' t_mem w' l0 Hrun Hnn ltac:(by rewrite Hdt) Hl0)
    as [_ Hamat].
  rewrite Hlen, Et, Hsum in Hamat.
  destruct Hamat as (x & -> & Hx); [|done|].
  { intros Hnil. rewrite Hnil in Hlen. simpl in Hlen. lia. }
  eexists _, _, x. split; [reflexivity|]. split; [reflexivity|].
  split; [reflexivity | exact Hx].
Qed.

Lemma sequential_simulation_completes_witness :
  exists a w' x,
    SimulatorApp.run_simulation demo_config 20 "Sequential" ticking_world
    = Ok (a, w')
    ∧ PerformanceAnalyzer.num_requests a = 20
    ∧ PerformanceAnalyzer.amat a = Float x
    ∧ (inject_Z 1 <= float_value x <= inject_Z 10000121)%Q.
Proof.
  apply (proj2 (sequential_simulation_completes demo_config 20 ticking_world
                  ltac:(simpl; lia) ltac:(reflexivity) ltac:(simpl; lia)
                  ltac:(lia))).
  - simpl. lia.
  - simpl. lia.
  - simpl. lia.
  - simpl. lia.
  - simpl. lia.
  - simpl. lia.
Defined.

(** X25.  How a simulation fails.  With a block size of 0 it raises
    [ZeroDivisionError] whatever the pattern is.  When the hierarchy is
    constructed: the pattern ["Sequential"] over a main memory of size 0
    raises [ZeroDivisionError] for a positive request count; a negative
    main memory size raises [ValueError] with the pattern ["Random"] for a
    positive request count and with any other pattern but ["Sequential"]
    always; and every pattern name other than ["Sequential"] and
    ["Random"], the locality pattern, raises [ZeroDivisionError] for 1 to 9
    requests. *)
Theorem simulation_failure_modes
    (c : MemoryHierarchy.config) (num : Z) (pat : string) (w : World) :
  (MemoryHierarchy.block_size c = 0 ->
   SimulatorApp.run_simulation c num pat w = Raise ZeroDivisionError)
  ∧ (is_ok (MemoryHierarchy.init c) = true ->
     (pat = "Sequential" -> MemoryHierarchy.ram_size c = 0 -> 0 < num ->
      SimulatorApp.run_simulation c num pat w = Raise ZeroDivisionError)
     ∧ (pat <> "Sequential" -> MemoryHierarchy.ram_size c < 0 ->
        (pat = "Random" -> 0 < num) ->
        SimulatorApp.run_simulation c num pat w = Raise ValueError)
     ∧ (pat <> "Sequential" -> pat <> "Random" ->
        0 <= MemoryHierarchy.ram_size c -> 0 < num < 10 ->
        SimulatorApp.run_simulation c num pat w = Raise ZeroDivisionError)).
Proof.
  unfold SimulatorApp.run_simulation. split.
  - intros Hb. apply hierarchy_init_raises in Hb. by rewrite Hb.
  - destruct (MemoryHierarchy.init c) as [h0|]; [intros _ | discriminate].
    cbn [mbind result_bind AccessPatternGenerator.init mret result_ret].
    split_and!.
    + intros -> Hram Hnum. simpl.
      rewrite generate_sequential_zero_bound_at by (simpl; lia). reflexivity.
    + intros Hseq Hram Hnum.
      destruct (String.eqb_spec pat "Sequential") as [|_]; [done|].
      destruct (String.eqb_spec pat "Random") as [Hr|_].
      * unfold AccessPatternGenerator.generate_random.
        destruct (Z.to_nat num) as [|count] eqn:Hc; [specialize (Hnum Hr); lia|].
        simpl. unfold random_randint.
        destruct (Z.ltb_spec (MemoryHierarchy.ram_size c * 1024 * 1024) 0);
          [done | lia].
      * unfold AccessPatternGenerator.generate_locality, random_randint.
        simpl.
        destruct (Z.ltb_spec (MemoryHierarchy.ram_size c * 1024 * 1024) 0);
          [done | lia].
    + intros Hseq Hrand Hram Hnum.
      destruct (String.eqb_spec pat "Sequential") as [|_]; [done|].
      destruct (String.eqb_spec pat "Random") as [|_]; [done|].
      rewrite generate_locality_small_raises by (simpl; lia). reflexivity.
Qed.

Lemma simulation_failure_modes_witness :
  SimulatorApp.run_simulation demo_config 5 "Locality (Real)" ticking_world
  = Raise ZeroDivisionError
  ∧ SimulatorApp.run_simulation zero_block_config 5000 "Random" ticking_world
    = Raise ZeroDivisionError.
Proof.
  split.
  - apply (proj2 (proj2 (proj2 (simulation_failure_modes demo_config 5
                                  "Locality (Real)" ticking_world)
                           ltac:(vm_compute; reflexivity)))).
    + discriminate.
    + discriminate.
    + simpl. lia.
    + lia.
  - apply (proj1 (simulation_failure_modes zero_block_config 5000 "Random"
                    ticking_world)).
    reflexivity.
Defined.

(** ** Conflict misses *)

(** X26.  In a level with associativity 1 whose sets satisfy the level
    invariant, two blocks that share a set index displace each other:
    after [insert] of an address, a probe of any address with the same
    index and another tag is a counted miss. *)
Theorem direct_mapped_conflict_miss
    (l : CacheLevel.t) (address other : Z) (index tag tag' : Z) (w : World)
    (l' : CacheLevel.t) (w' : World) :
  well_formed l ->
  CacheLevel.associativity l = 1 ->
  CacheLevel.get_index_and_tag l address = Ok (index, tag) ->
  CacheLevel.get_index_and_tag l other = Ok (index, tag') ->
  tag <> tag' ->
  CacheLevel.insert l other w = Ok (l', w') ->
  forall w0 : World,
    exists l'',
      CacheLevel.access l' address w0 = Ok (l'', false, w0)
      ∧ CacheLevel.misses l'' = CacheLevel.misses l + 1
      ∧ CacheLevel.hits l'' = CacheLevel.hits l.
Proof.
  intros (Hassoc & Hn & Hb & Hp & Hinv) Hone Hd Hd' Hne Hi w0.
  pose proof (level_insert_shape _ _ _ _ _ Hi) as Hshape.
  pose proof (level_insert_sets _ _ _ _ _ _ _ Hi Hd') as Hsets.
  destruct (level_insert_counters _ _ _ _ _ Hi) as [Hh Hm].
  rewrite <- (get_index_and_tag_shape _ _ _ Hshape) in Hd.
  set (s0 := default (CacheSet.init (CacheLevel.associativity l)
                        (CacheLevel.policy l))
               (CacheLevel.sets l !! index)) in *.
  assert (CacheSet.tags (CacheSet.insert s0 tag' w).1 = [tag']) as Htags.
  { apply set_insert_single_way_aux; subst s0;
      destruct (CacheLevel.sets l !! index) as [s|] eqn:Hs; simpl;
      try lia; try done.
    - destruct (Hinv index s Hs) as (_ & Hc & _). lia.
    - destruct (Hinv index s Hs) as (_ & Hc & _ & [Hlen _]). lia.
    - destruct (Hinv index s Hs) as (_ & _ & Hpol & _). by rewrite Hpol. }
  rewrite (level_access_unfold _ _ _ _ _ Hd), Hsets, lookup_insert_eq.
  assert (tag ∉ CacheSet.tags (CacheSet.insert s0 tag' w).1) as Hout.
  { rewrite Htags. intros ->%list_elem_of_singleton. done. }
  unfold CacheSet.access. apply (touch_first_None tag _ w0) in Hout.
  rewrite Hout. simpl. eexists. split; [reflexivity|]. simpl.
  split; [by rewrite Hm | by rewrite Hh].
Qed.

Lemma direct_mapped_conflict_miss_witness :
  exists l'',
    CacheLevel.access
      (unwrap (tiny_level, ticking_world)
         (CacheLevel.insert tiny_level_warm 64 ticking_world)).1
      0 ticking_world = Ok (l'', false, ticking_world)
    ∧ CacheLevel.misses l'' = CacheLevel.misses tiny_level_warm + 1
    ∧ CacheLevel.hits l'' = CacheLevel.hits tiny_level_warm.
Proof.
  apply (direct_mapped_conflict_miss tiny_level_warm 0 64 0 0 1 ticking_world
           (unwrap (tiny_level, ticking_world)
              (CacheLevel.insert tiny_level_warm 64 ticking_world)).1
           (unwrap (tiny_level, ticking_world)
              (CacheLevel.insert tiny_level_warm 64 ticking_world)).2).
  - assert (well_formed tiny_level) as Htiny.
    { split_and!.
      - vm_compute. reflexivity.
      - vm_compute. reflexivity.
      - vm_compute. discriminate.
      - unfold known_policy. simpl. repeat constructor.
      - intros index s Hs. simpl in Hs. rewrite lookup_empty in Hs.
        discriminate. }
    eapply (level_insert_well_formed tiny_level 0 ticking_world
              tiny_level_warm
              (unwrap (tiny_level, ticking_world)
                 (CacheLevel.insert tiny_level 0 ticking_world)).2);
      [vm_compute; reflexivity | exact Htiny].
  - reflexivity.
  - reflexivity.
  - reflexivity.
  - discriminate.
  - vm_compute. reflexivity.
Defined.
